(** * The tiny transformer engine of llm_emulator

    A shallow embedding of [src/lib/math.ts] (vector primitives) and of the
    model file that follows it ([initializeWeights], [attentionHead],
    [feedForward], [forward], [trainStep]).

    - A JavaScript number is an IEEE 754 binary64 value: Rocq's primitive
      [float], whose [+ - * /] and [sqrt] are the same correctly rounded
      operations.
    - [Math.exp], [Math.log] and [Math.random] belong to the host: ECMAScript
      fixes them at a few arguments only, so the engine is stated over any
      host ([Host]) and evaluated with a reference one ([ref_host]).
    - Reading an array out of range yields [undefined], which arithmetic
      turns into [NaN] ([get]); reading a property of [undefined] throws a
      [TypeError] (the [js] monad).
    - Arrays are values in the numeric model; a heap model makes them
      objects to speak about aliasing in [trainStep].
    - A string is the sequence of its UTF-16 code units; [toLowerCase] and
      the printing of a number belong to the host ([StringHost]). A
      vocabulary object is the list of its own properties in creation
      order, with the names it inherits from [Object.prototype] beside it. *)

From Stdlib Require Import Floats Reals Lra Lia ZArith NArith DecimalString List Bool.
From stdpp Require Import base option list gmap strings.

Set Warnings "-inexact-float".

(** ** Part I: definitions *)

(** *** The host's Math object *)

Class Host := {
  Math_exp : float -> float;
  Math_log : float -> float;
  (** the k-th value [Math.random()] returns, counted from the start of the run *)
  Math_random : nat -> float
}.

(** *** Arithmetic the vector kernels are written over *)

Class Arith (num : Type) := {
  num_zero : num;
  num_add : num -> num -> num;
  num_sub : num -> num -> num;
  num_mul : num -> num -> num;
  num_div : num -> num -> num;
  num_sqrt : num -> num;
  num_exp : num -> num;
  (** [Math.max(...x)] *)
  num_max : list num -> num;
  (** [x.length] read as a number *)
  num_of_nat : nat -> num;
  (** the literal [1e-5] *)
  num_1e_5 : num
}.

Declare Scope num_scope.
Delimit Scope num_scope with num.
Notation "x + y" := (num_add x y) : num_scope.
Notation "x - y" := (num_sub x y) : num_scope.
Notation "x * y" := (num_mul x y) : num_scope.
Notation "x / y" := (num_div x y) : num_scope.

Section Kernels.
Context {num : Type} {arith : Arith num}.
Local Open Scope num_scope.

(** [x.reduce((a, b) => a + b, 0)] *)
Definition sum_of (x : list num) : num :=
  fold_left (fun a b => a + b) x num_zero.

(** math.ts, softmax *)
Definition softmax (x : list num) : list num :=
  let maxVal := num_max x in
  let expValues := map (fun v => num_exp (v - maxVal)) x in
  let sumExp := sum_of expValues in
  map (fun v => v / sumExp) expValues.

(** math.ts, layerNorm; [(v - mean) ** 2] is the product of [v - mean]
    with itself *)
Definition layerNorm (x : list num) : list num :=
  let mean := sum_of x / num_of_nat (length x) in
  let variance :=
    fold_left (fun sum v => sum + (v - mean) * (v - mean)) x num_zero
    / num_of_nat (length x) in
  let std := num_sqrt (variance + num_1e_5) in
  map (fun v => (v - mean) / std) x.


End Kernels.

(** *** Doubles *)

Definition is_pos_zero (x : float) : bool :=
  match PrimFloat.classify x with PZero => true | _ => false end.

Definition is_neg_zero (x : float) : bool :=
  match PrimFloat.classify x with NZero => true | _ => false end.

(** ECMAScript, Math.max: start from -Infinity; a NaN argument gives NaN;
    +0 is larger than -0. *)
Fixpoint max_from (highest : float) (l : list float) : float :=
  match l with
  | [] => highest
  | n :: l' =>
      if PrimFloat.is_nan n then nan
      else if is_pos_zero n && is_neg_zero highest then max_from 0%float l'
      else if (highest <? n)%float then max_from n l'
      else max_from highest l'
  end.

Definition Math_max (l : list float) : float := max_from neg_infinity l.

Definition float_of_nat (n : nat) : float :=
  PrimFloat.of_uint63 (Uint63.of_Z (Z.of_nat n)).

#[export] Instance float_arith `{Host} : Arith float := {|
  num_zero := 0%float;
  num_add := PrimFloat.add;
  num_sub := PrimFloat.sub;
  num_mul := PrimFloat.mul;
  num_div := PrimFloat.div;
  num_sqrt := PrimFloat.sqrt;
  num_exp := Math_exp;
  num_max := Math_max;
  num_of_nat := float_of_nat;
  num_1e_5 := 1e-5%float
|}.

(** *** Exact arithmetic: the same kernels read over the reals *)

Definition Rmax_list (x : list R) : R :=
  match x with
  | [] => 0%R
  | a :: l => fold_left Rmax l a
  end.


#[export] Instance real_arith : Arith R := {|
  num_zero := 0%R;
  num_add := Rplus;
  num_sub := Rminus;
  num_mul := Rmult;
  num_div := Rdiv;
  num_sqrt := R_sqrt.sqrt;
  num_exp := Rtrigo_def.exp;
  num_max := Rmax_list;
  num_of_nat := INR;
  num_1e_5 := (1 / 100000)%R
|}.

(** *** JavaScript values the engine relies on *)

(** A computation either returns or throws a TypeError (a property of
    [undefined] was read, or [undefined] was spread). *)
Inductive js (A : Type) : Type :=
  | Return (a : A)
  | TypeError.
Arguments Return {A} a.
Arguments TypeError {A}.

#[export] Instance js_ret : MRet js := @Return.
#[export] Instance js_bind : MBind js := fun A B k m =>
  match m with
  | Return a => k a
  | TypeError => TypeError
  end.

(** [o.p] or [[...o]] for a value [o] that may be [undefined] *)
Definition defined {A} (o : option A) : js A :=
  match o with
  | Some a => Return a
  | None => TypeError
  end.

Fixpoint js_mapM {A B} (f : A -> js B) (l : list A) : js (list B) :=
  match l with
  | [] => Return []
  | a :: l' => b ← f a; bs ← js_mapM f l'; Return (b :: bs)
  end.

(** [for (let i = 0; i < n; i++) body], threading the variables the body
    assigns *)
Definition for_loop {St} (n : nat) (body : nat -> St -> St) (init : St) : St :=
  fold_left (fun s i => body i s) (seq 0 n) init.

Fixpoint js_fold {A St} (body : A -> St -> js St) (l : list A) (s : St) : js St :=
  match l with
  | [] => Return s
  | a :: l' => s' ← body a s; js_fold body l' s'
  end.

Definition js_for {St} (n : nat) (body : nat -> St -> js St) (init : St) : js St :=
  js_fold body (seq 0 n) init.

(** [x[i]] used as a number: [undefined] becomes NaN *)
Definition get (x : list float) (i : nat) : float := default nan (x !! i).

(** [m[i]] for an index the source keeps in range *)
Definition row (m : list (list float)) (i : nat) : list float :=
  default [] (m !! i).

(** [x[n - 1]]: [undefined] when [n] is 0 *)
Definition at_pred {A} (x : list A) (n : nat) : option A :=
  match n with
  | O => None
  | S m => x !! m
  end.

(** [x[i] = v]: assignment past the end extends the array; the elements
    skipped are holes, which read as [undefined] *)
Definition assign (x : list float) (i : nat) (v : float) : list float :=
  if (i <? length x)%nat then <[i := v]> x
  else x ++ replicate (i - length x) nan ++ [v].

(** [x[i] += v] *)
Definition add_at (x : list float) (i : nat) (v : float) : list float :=
  assign x i (get x i + v)%float.

(** [a.reduce((acc, v, i) => f(acc, v, i), init)] *)
Fixpoint reduce_from {A St} (f : St -> A -> nat -> St) (i : nat) (a : list A) (acc : St) : St :=
  match a with
  | [] => acc
  | v :: a' => reduce_from f (S i) a' (f acc v i)
  end.

Definition reduce {A St} (f : St -> A -> nat -> St) (a : list A) (init : St) : St :=
  reduce_from f 0 a init.

(** *** types.ts: the parameter tree *)

Abbreviation vec := (list float).
Abbreviation mat := (list (list float)).

Record ModelConfig := {
  embedDim : nat;
  numLayers : nat;
  numHeads : nat;
  learningRate : float
}.

Record AttentionHead := { Wq : mat; Wk : mat; Wv : mat }.

Record FFN := { W1 : mat; b1 : vec; W2 : mat; b2 : vec }.

(** [attention: { heads }] is flattened into the layer *)
Record TransformerLayer := { heads : list AttentionHead; ffn : FFN }.

Record OutputLayer := { output_W : mat; output_b : vec }.

Record Weights := {
  embeddings : mat;
  layers : list TransformerLayer;
  output : OutputLayer
}.

Record LayerOutput := {
  attentionScores : list mat;
  attentionOutput : mat;
  ffnOutput : mat
}.

Record ForwardResult := {
  inputTokens : list nat;
  embeddingsSnapshot : mat;
  layerOutputs : list LayerOutput;
  logits : vec;
  probabilities : vec;
  predictedToken : nat;
  loss : option float;
  targetToken : option nat
}.

Record TrainResult := {
  newWeights : Weights;
  train_loss : option float;
  result : ForwardResult
}.

(** *** math.ts and the model, over doubles *)

Section Engine.
Context `{Host}.
Local Open Scope float_scope.

Definition dotProduct (a b : vec) : float :=
  reduce (fun sum v i => sum + v * get b i) a 0.

Definition matVecMul (matrix : mat) (v : vec) : vec :=
  map (fun r => dotProduct r v) matrix.

Definition vecAdd (a b : vec) : vec := imap (fun i v => v + get b i) a.

Definition vecSub (a b : vec) : vec := imap (fun i v => v - get b i) a.

Definition vecScale (a : vec) (scalar : float) : vec :=
  map (fun v => v * scalar) a.

Definition relu (x : vec) : vec := map (fun v => Math_max [0; v]) x.

Definition crossEntropyLoss (predicted : vec) (targetIndex : nat) : float :=
  let prob := Math_max [get predicted targetIndex; 1e-10] in
  - Math_log prob.

(** **** Random initialisation: the state is the number of draws so far *)

Definition Rand (A : Type) : Type := nat -> A * nat.

Fixpoint Array_from {A} (n : nat) (f : Rand A) : Rand (list A) :=
  fun k =>
    match n with
    | O => ([], k)
    | S n' =>
        let '(a, k1) := f k in
        let '(l, k2) := Array_from n' f k1 in
        (a :: l, k2)
    end.

Definition randomVector (size : nat) (scale : float) : Rand vec :=
  Array_from size (fun k => ((Math_random k * 2 - 1) * scale, S k)).

Definition randomMatrix (rows cols : nat) (scale : float) : Rand mat :=
  Array_from rows
    (Array_from cols (fun k => ((Math_random k * 2 - 1) * scale, S k))).

Definition initHead (embedDim headDim : nat) : Rand AttentionHead :=
  fun k =>
    let '(wq, k1) := randomMatrix embedDim headDim 0.1 k in
    let '(wk, k2) := randomMatrix embedDim headDim 0.1 k1 in
    let '(wv, k3) := randomMatrix embedDim headDim 0.1 k2 in
    ({| Wq := wq; Wk := wk; Wv := wv |}, k3).

Definition initLayer (embedDim headDim nHeads : nat) : Rand TransformerLayer :=
  fun k =>
    let '(hs, k1) := Array_from nHeads (initHead embedDim headDim) k in
    let '(w1, k2) := randomMatrix embedDim (embedDim * 2) 0.1 k1 in
    let '(v1, k3) := randomVector (embedDim * 2) 0.1 k2 in
    let '(w2, k4) := randomMatrix (embedDim * 2) embedDim 0.1 k3 in
    let '(v2, k5) := randomVector embedDim 0.1 k4 in
    ({| heads := hs; ffn := {| W1 := w1; b1 := v1; W2 := w2; b2 := v2 |} |}, k5).

(** [headDim = Math.floor(embedDim / numHeads)]; it is only read inside
    the loop over heads *)
Definition initializeWeights (vocabSize : nat) (config : ModelConfig) : Rand Weights :=
  fun k =>
    let headDim := (embedDim config / numHeads config)%nat in
    let '(emb, k1) := randomMatrix vocabSize (embedDim config) 0.5 k in
    let '(ls, k2) :=
      Array_from (numLayers config)
        (initLayer (embedDim config) headDim (numHeads config)) k1 in
    let '(w, k3) := randomMatrix (embedDim config) vocabSize 0.1 k2 in
    let '(v, k4) := randomVector vocabSize 0.1 k3 in
    ({| embeddings := emb; layers := ls;
        output := {| output_W := w; output_b := v |} |}, k4).

(** **** attentionHead *)

(** the literal [-1e9] pushed for a masked position *)
Definition mask : float := -1e9.

(** the row pushed into [softmax] for query position [i]: the inner loop
    over [j] *)
Definition rowScores (Q K : mat) (scale : float) (seqLen i : nat) : vec :=
  map (fun j => if (i <? j)%nat then mask
                else dotProduct (row Q i) (row K j) / scale)
      (seq 0 seqLen).

(** the loops over [j] and [k] that fill [weighted] for position [i] *)
Definition weightedSum (scores_i : vec) (V : mat) (width seqLen : nat) : vec :=
  for_loop seqLen
    (fun j weighted =>
       for_loop width
         (fun k weighted => add_at weighted k (get scores_i j * get (row V j) k))
         weighted)
    (replicate width 0).

(** [input.map((x) => matVecMul(M, x))]: the Q, K and V of a head *)
Definition projectAll (M : mat) (input : mat) : mat :=
  map (fun x => matVecMul M x) input.

Definition attentionHead (input : mat) (head : AttentionHead) : js (mat * mat) :=
  let seqLen := length input in
  let Q := projectAll (Wq head) input in
  let K := projectAll (Wk head) input in
  let V := projectAll (Wv head) input in
  Q0 ← defined (Q !! 0%nat);
  let dk := length Q0 in
  let scale := PrimFloat.sqrt (float_of_nat dk) in
  let scores := map (fun i => softmax (rowScores Q K scale seqLen i)) (seq 0 seqLen) in
  V0 ← defined (V !! 0%nat);
  let output :=
    map (fun i => weightedSum (row scores i) V (length V0) seqLen) (seq 0 seqLen) in
  Return (scores, output).

(** **** feedForward *)

Definition feedForward (input : vec) (f : FFN) : vec :=
  let hidden := relu (vecAdd (matVecMul (W1 f) input) (b1 f)) in
  vecAdd (matVecMul (W2 f) hidden) (b2 f).

(** **** forward *)

(** [x[d % x.length]]: the remainder by 0 is NaN, and [x[NaN]] is
    [undefined] *)
Definition get_mod (x : vec) (d : nat) : float :=
  if (length x =? 0)%nat then nan else get x (d mod length x).

(** the callback of [current.map((_, i) => ...)] that builds [combined] *)
Definition combineHeads (current : mat) (headOutputs : list mat) (i : nat) : vec :=
  fold_left
    (fun combined headOut =>
       for_loop (length combined)
         (fun d combined =>
            add_at combined d
              (get_mod (row headOut i) d / float_of_nat (length headOutputs)))
         combined)
    headOutputs
    (map (fun _ => 0) (row current 0)).

(** one pass of the loop over [weights.layers]: the new [current] and the
    record pushed on [layerOutputs] *)
Definition layerForward (current : mat) (layer : TransformerLayer)
  : js (mat * LayerOutput) :=
  hs ← js_mapM (fun head => attentionHead current head) (heads layer);
  let allScores := map fst hs in
  let headOutputs := map snd hs in
  let attentionOutput :=
    imap (fun i _ => combineHeads current headOutputs i) current in
  let afterAttention :=
    imap (fun i x => layerNorm (vecAdd x (row attentionOutput i))) current in
  let ffnOutput := map (fun x => feedForward x (ffn layer)) afterAttention in
  let current' :=
    imap (fun i x => layerNorm (vecAdd x (row ffnOutput i))) afterAttention in
  Return (current',
          {| attentionScores := allScores;
             attentionOutput := attentionOutput;
             ffnOutput := ffnOutput |}).

Definition layersForward (ls : list TransformerLayer) (current : mat)
  : js (mat * list LayerOutput) :=
  js_fold
    (fun layer '(current, outs) =>
       '(current', out) ← layerForward current layer;
       Return (current', outs ++ [out]))
    ls (current, []).

(** [matVecMul(matrix, lastHidden)] when [lastHidden] may be [undefined]:
    the first row that has an element reads [undefined[0]] and throws *)
Definition project (matrix : mat) (lastHidden : option vec) : js vec :=
  match lastHidden with
  | Some v => Return (matVecMul matrix v)
  | None =>
      js_mapM (fun r : vec => match r with [] => Return 0 | _ => TypeError end)
              matrix
  end.

(** the loop that finds the predicted token *)
Definition argmax (probabilities : vec) : nat :=
  snd (for_loop (length probabilities)
         (fun i '(maxProb, predicted) =>
            if maxProb <? get probabilities i
            then (get probabilities i, i)
            else (maxProb, predicted))
         (-1, 0%nat)).

Definition forward (inputTokens : list nat) (weights : Weights)
    (targetToken : option nat) : js ForwardResult :=
  let seqLen := length inputTokens in
  current0 ← js_mapM (fun t => defined (embeddings weights !! t)) inputTokens;
  let embeddingsSnapshot := current0 in
  '(current, layerOutputs) ← layersForward (layers weights) current0;
  let lastHidden := at_pred current seqLen in
  projected ← project (output_W (output weights)) lastHidden;
  let logits := vecAdd projected (output_b (output weights)) in
  let probabilities := softmax logits in
  Return {| inputTokens := inputTokens;
            embeddingsSnapshot := embeddingsSnapshot;
            layerOutputs := layerOutputs;
            logits := logits;
            probabilities := probabilities;
            predictedToken := argmax probabilities;
            loss := option_map (crossEntropyLoss probabilities) targetToken;
            targetToken := targetToken |}.

(** **** trainStep, on array values

    [newWeights] is built from fresh arrays, so its rows are distinct
    objects and updating one leaves the others alone; the heap model below
    makes the copy explicit. *)

(** the loop over [v] and [d] that updates [newWeights.output] *)
Definition updateOutput (probs : vec) (lastHidden : option vec)
    (targetToken : nat) (learningRate : float) (o : OutputLayer)
  : js OutputLayer :=
  js_for (length probs)
    (fun v o =>
       let error := (if (v =? targetToken)%nat then 1 else 0) - get probs v in
       h ← defined lastHidden;
       W' ← js_for (length h)
              (fun d W =>
                 r ← defined (W !! d);
                 Return (<[d := add_at r v (learningRate * error * get h d)]> W))
              (output_W o);
       Return {| output_W := W';
                 output_b := add_at (output_b o) v (learningRate * error) |})
    o.

(** the loop over [inputTokens] that perturbs [newWeights.embeddings];
    the state carries the number of draws made *)
Definition updateEmbeddings (inputTokens : list nat) (learningRate : float)
    (E : mat) (k : nat) : js (mat * nat) :=
  js_fold
    (fun tokenId '(E, k) =>
       r ← defined (E !! tokenId);
       let '(r', k') :=
         for_loop (length r)
           (fun d '(r, k) =>
              let adjustment := learningRate * (Math_random k - 0.5) * 0.1 in
              (add_at r d adjustment, S k))
           (r, k) in
       Return (<[tokenId := r']> E, k'))
    inputTokens (E, k).

Definition trainStep (inputTokens : list nat) (targetToken : nat)
    (weights : Weights) (learningRate : float) (k : nat)
  : js (TrainResult * nat) :=
  result ← forward inputTokens weights (Some targetToken);
  let probs := probabilities result in
  lastLayer ← defined (at_pred (layerOutputs result) (length (layerOutputs result)));
  let lastHidden := at_pred (ffnOutput lastLayer) (length inputTokens) in
  o ← updateOutput probs lastHidden targetToken learningRate (output weights);
  '(E, k') ← updateEmbeddings inputTokens learningRate (embeddings weights) k;
  Return ({| newWeights := {| embeddings := E;
                              layers := layers weights;
                              output := o |};
             train_loss := loss result;
             result := result |}, k').
End Engine.

(** *** Shapes

    The shape [initializeWeights] gives a head ([embedDim] rows of [headDim]
    numbers each) and a layer. *)

Definition head_shape (E Hd : nat) (h : AttentionHead) : Prop :=
  (length (Wq h) = E /\ Forall (fun r => length r = Hd) (Wq h)) /\
  (length (Wk h) = E /\ Forall (fun r => length r = Hd) (Wk h)) /\
  (length (Wv h) = E /\ Forall (fun r => length r = Hd) (Wv h)).

Definition layer_shape (E Hd N : nat) (l : TransformerLayer) : Prop :=
  length (heads l) = N /\
  Forall (head_shape E Hd) (heads l) /\
  length (W1 (ffn l)) = E /\ Forall (fun r => length r = E * 2) (W1 (ffn l)) /\
  length (b1 (ffn l)) = E * 2 /\
  length (W2 (ffn l)) = E * 2 /\ Forall (fun r => length r = E) (W2 (ffn l)) /\
  length (b2 (ffn l)) = E.

(** what [initializeWeights] returns for a vocabulary and a configuration *)
Definition initialized `{Host} (vocabSize : nat) (config : ModelConfig) (w : Weights) : Prop :=
  exists k, w = fst (initializeWeights vocabSize config k).

(** what one layer records about its feed-forward output *)
Definition ffn_rows (n : nat) (layer : TransformerLayer) (out : LayerOutput) : Prop :=
  length (ffnOutput out) = n /\
  Forall (fun r => length r = length (W2 (ffn layer))) (ffnOutput out).

(** [out] is the record of [layer] run on some sequence of [n] vectors *)
Definition layer_record `{Host} (n : nat) (layer : TransformerLayer) (out : LayerOutput) : Prop :=
  exists current current',
    length current = n /\ layerForward current layer = Return (current', out).


(** *** The embedding update, occurrence by occurrence *)

(** one pass of the loop over [d] on a row, with draws [k], [k + 1], ... *)
Definition perturb `{Host} (learningRate : float) (k : nat) (r : vec) : vec :=
  imap (fun d v => (v + learningRate * (Math_random (k + d) - 0.5) * 0.1)%float) r.

(** the row of token [t] after the loop over [inputTokens]: perturbed once
    for each occurrence of [t]; [width t'] is the length of the row of
    [t'], the number of draws an occurrence of [t'] makes *)
Fixpoint perturbations `{Host} (learningRate : float) (width : nat -> nat)
    (inputTokens : list nat) (k : nat) (t : nat) (r : vec) : vec :=
  match inputTokens with
  | [] => r
  | t' :: rest =>
      perturbations learningRate width rest (k + width t') t
        (if (t' =? t)%nat then perturb learningRate k r else r)
  end.


(** *** A reference host

    A conforming [Math.exp] / [Math.log] (ECMAScript: NaN, the zeros, 1 and
    the infinities are fixed, the rest is implementation-approximated) and a
    fixed sequence for [Math.random], used wherever the engine is run on
    concrete inputs. *)

Module Ref.
Local Open Scope float_scope.

(** [(p, e^p, e^-p)] for the powers of two below 1024 *)
Definition exp_table : list (float * float * float) :=
  [ (512, 0x1.9476504ba852ep+738, 0x1.44109edb20931p-739);
    (256, 0x1.41c7a8814bebap+369, 0x1.9755956ad4e9cp-370);
    (128, 0x1.95e54c5dd4217p+184, 0x1.42eb9f39afb0bp-185);
    (64, 0x1.425982cf597cdp+92, 0x1.969d47321e4ccp-93);
    (32, 0x1.1f43fcc4b662cp+46, 0x1.c8464f7616468p-47);
    (16, 0x1.0f2ebd0a80020p+23, 0x1.e355bbaee85cbp-24);
    (8, 0x1.749ea7d470c6ep+11, 0x1.5fc21041027adp-12);
    (4, 0x1.b4c902e273a58p+5, 0x1.2c155b8213cf4p-6);
    (2, 0x1.d8e64b8d4ddaep+2, 0x1.152aaa3bf81ccp-3);
    (1, 0x1.5bf0a8b145769p+1, 0x1.78b56362cef38p-2) ].

(** split [x] into a sum of table entries and a rest in (-1, 1); the
    factor collects the exponentials of the entries *)
Fixpoint exp_reduce (t : list (float * float * float)) (x factor : float)
  : float * float :=
  match t with
  | [] => (x, factor)
  | (p, ep, en) :: t' =>
      if p <=? x then exp_reduce t' (x - p) (factor * ep)
      else if x <=? - p then exp_reduce t' (x + p) (factor * en)
      else exp_reduce t' x factor
  end.

(** the Taylor polynomial of degree [n] at [r], by Horner's rule *)
Fixpoint exp_series (n : nat) (r acc : float) : float :=
  match n with
  | O => acc
  | S n' => exp_series n' r (1 + r * acc / float_of_nat n)
  end.

Definition exp (x : float) : float :=
  if PrimFloat.is_nan x then nan
  else if 710 <=? x then infinity
  else if x <=? -746 then 0
  else let '(r, factor) := exp_reduce exp_table x 1 in
       factor * exp_series 22 r 1.

Definition float_of_Z (z : Z) : float :=
  if (z <? 0)%Z then - float_of_nat (Z.to_nat (- z)) else float_of_nat (Z.to_nat z).

(** [1/(2n+1) + s2 * (1/(2n+3) + ...)]: the series of [atanh s / s] *)
Fixpoint atanh_series (n : nat) (s2 acc : float) : float :=
  match n with
  | O => 1 + s2 * acc
  | S n' => atanh_series n' s2 (1 / float_of_nat (2 * n + 1) + s2 * acc)
  end.

Definition ln2 : float := 0x1.62e42fefa39efp-1.

Definition log (x : float) : float :=
  if PrimFloat.is_nan x then nan
  else if x <? 0 then nan
  else if x =? 0 then neg_infinity
  else if x =? infinity then infinity
  else let '(m, e) := Z.frexp x in
       let '(m, e) := if m <? 0x1.6a09e667f3bcdp-1 then (m * 2, (e - 1)%Z) else (m, e) in
       let s := (m - 1) / (m + 1) in
       2 * s * atanh_series 14 (s * s) 0 + float_of_Z e * ln2.

(** a fixed sequence in [0, 1) *)
Definition random (k : nat) : float :=
  float_of_nat ((k * 37 + 11) mod 64) / 64.
End Ref.

Definition ref_host : Host :=
  {| Math_exp := Ref.exp; Math_log := Ref.log; Math_random := Ref.random |}.

(** *** Inputs used to run the engine *)

(** the configuration of the specification's small test, and weights built
    for it by [initializeWeights] from the reference host's draws *)
Definition small_config : ModelConfig :=
  {| embedDim := 2; numLayers := 1; numHeads := 1; learningRate := 0.1%float |}.

Definition small_weights : Weights :=
  fst (initializeWeights (H := ref_host) 3 small_config 0).

Definition no_layer_config : ModelConfig :=
  {| embedDim := 2; numLayers := 0; numHeads := 1; learningRate := 0.1%float |}.

Definition no_layer_weights : Weights :=
  fst (initializeWeights (H := ref_host) 3 no_layer_config 0).


(** four dimensions shared by two heads *)
Definition two_head_config : ModelConfig :=
  {| embedDim := 4; numLayers := 1; numHeads := 2; learningRate := 0.1%float |}.

Definition two_head_weights : Weights :=
  fst (initializeWeights (H := ref_host) 3 two_head_config 0).

(** the value of a computation that returns *)
Definition returned {A} (d : A) (m : js A) : A :=
  match m with
  | Return a => a
  | TypeError => d
  end.

Definition no_layer_output : LayerOutput :=
  {| attentionScores := []; attentionOutput := []; ffnOutput := [] |}.

(** the first layer of [two_head_weights] run on the embeddings of tokens 0 and 1 *)
Definition two_head_layer : TransformerLayer :=
  default {| heads := []; ffn := {| W1 := []; b1 := []; W2 := []; b2 := [] |} |}
          (layers two_head_weights !! 0).

Definition two_head_input : mat :=
  [row (embeddings two_head_weights) 0; row (embeddings two_head_weights) 1].

Definition two_head_run : mat * LayerOutput :=
  returned ([], no_layer_output) (layerForward (H := ref_host) two_head_input two_head_layer).

(** weights whose matrices have as many rows as outputs, with a large
    embedding for token 0 *)
Definition steep_head : AttentionHead :=
  {| Wq := [[1%float]]; Wk := [[(-1)%float]]; Wv := [[1%float]] |}.

Definition steep_weights : Weights :=
  {| embeddings := [[100000%float]; [1%float]];
     layers := [ {| heads := [steep_head];
                    ffn := {| W1 := [[1%float]]; b1 := [0%float];
                              W2 := [[1%float]]; b2 := [0%float] |} |} ];
     output := {| output_W := [[1%float]; [1%float]];
                  output_b := [0%float; 0%float] |} |}.

(** the value the engine falls back on in [returned] *)
Definition no_result : ForwardResult :=
  {| inputTokens := []; embeddingsSnapshot := []; layerOutputs := [];
     logits := []; probabilities := []; predictedToken := 0;
     loss := None; targetToken := None |}.

(** *** trainStep on the heap

    Every array of the parameter tree is a heap cell: a [number[]], a
    [number[][]] (an array of references to its rows), the array of heads
    of a layer, the array of layers. Object literals ([{ Wq, Wk, Wv }], the
    layer, the tree itself) are never assigned to by [trainStep]; they are
    records of references. The forward pass only reads the weights, and the
    arrays it builds are reachable from its result alone: it is run on the
    value read from the heap, and its result is kept as a value. *)

Abbreviation loc := positive.

Record HeadRef := { ref_Wq : loc; ref_Wk : loc; ref_Wv : loc }.

Record LayerRef := {
  ref_heads : loc;
  ref_W1 : loc; ref_b1 : loc; ref_W2 : loc; ref_b2 : loc
}.

Record WeightsRef := {
  ref_embeddings : loc;
  ref_layers : loc;
  ref_output_W : loc; ref_output_b : loc
}.

Inductive cell : Type :=
  | Numbers (xs : list float)
  | Rows (rs : list loc)
  | HeadArray (hs : list HeadRef)
  | LayerArray (ls : list LayerRef).

Abbreviation heap := (gmap loc cell).

(** **** The value a reference stands for *)

Definition read_vec (h : heap) (l : loc) : option vec :=
  match h !! l with
  | Some (Numbers xs) => Some xs
  | _ => None
  end.

Definition read_mat (h : heap) (l : loc) : option mat :=
  match h !! l with
  | Some (Rows rs) => mapM (read_vec h) rs
  | _ => None
  end.

Definition read_head (h : heap) (r : HeadRef) : option AttentionHead :=
  q ← read_mat h (ref_Wq r);
  k ← read_mat h (ref_Wk r);
  v ← read_mat h (ref_Wv r);
  Some {| Wq := q; Wk := k; Wv := v |}.

Definition read_heads (h : heap) (l : loc) : option (list AttentionHead) :=
  match h !! l with
  | Some (HeadArray hs) => mapM (read_head h) hs
  | _ => None
  end.

Definition read_layer (h : heap) (r : LayerRef) : option TransformerLayer :=
  hs ← read_heads h (ref_heads r);
  w1 ← read_mat h (ref_W1 r);
  v1 ← read_vec h (ref_b1 r);
  w2 ← read_mat h (ref_W2 r);
  v2 ← read_vec h (ref_b2 r);
  Some {| heads := hs; ffn := {| W1 := w1; b1 := v1; W2 := w2; b2 := v2 |} |}.

Definition read_layers (h : heap) (l : loc) : option (list TransformerLayer) :=
  match h !! l with
  | Some (LayerArray ls) => mapM (read_layer h) ls
  | _ => None
  end.

Definition read_weights (h : heap) (r : WeightsRef) : option Weights :=
  e ← read_mat h (ref_embeddings r);
  ls ← read_layers h (ref_layers r);
  w ← read_mat h (ref_output_W r);
  v ← read_vec h (ref_output_b r);
  Some {| embeddings := e; layers := ls;
          output := {| output_W := w; output_b := v |} |}.

(** **** Computations on the heap: a result or a TypeError, and the heap
    as the computation left it *)

Definition Heap (A : Type) : Type := heap -> js A * heap.

#[export] Instance heap_ret : MRet Heap := fun A a h => (Return a, h).

#[export] Instance heap_bind : MBind Heap := fun A B k m h =>
  match m h with
  | (Return a, h1) => k a h1
  | (TypeError, h1) => (TypeError, h1)
  end.

Definition lift {A} (m : js A) : Heap A := fun h => (m, h).

(** a new array *)
Definition alloc (c : cell) : Heap loc :=
  fun h => let l := fresh (dom h) in (Return l, <[l := c]> h).

Definition numbers (l : loc) : Heap (list float) :=
  fun h => (defined (read_vec h l), h).

Definition rows_of (l : loc) : Heap (list loc) :=
  fun h => match h !! l with
           | Some (Rows rs) => (Return rs, h)
           | _ => (TypeError, h)
           end.

Definition heads_of (l : loc) : Heap (list HeadRef) :=
  fun h => match h !! l with
           | Some (HeadArray hs) => (Return hs, h)
           | _ => (TypeError, h)
           end.

Definition layers_of (l : loc) : Heap (list LayerRef) :=
  fun h => match h !! l with
           | Some (LayerArray ls) => (Return ls, h)
           | _ => (TypeError, h)
           end.

(** [a[i] += x] on the array at [l] *)
Definition add_at_ref (l : loc) (i : nat) (x : float) : Heap unit :=
  fun h => match read_vec h l with
           | Some xs => (Return tt, <[l := Numbers (add_at xs i x)]> h)
           | None => (TypeError, h)
           end.

Fixpoint heap_mapM {A B} (f : A -> Heap B) (l : list A) : Heap (list B) :=
  match l with
  | [] => mret []
  | a :: l' => b ← f a; bs ← heap_mapM f l'; mret (b :: bs)
  end.

Fixpoint heap_fold {A St} (body : A -> St -> Heap St) (l : list A) (s : St) : Heap St :=
  match l with
  | [] => mret s
  | a :: l' => s' ← body a s; heap_fold body l' s'
  end.

Definition heap_for {St} (n : nat) (body : nat -> St -> Heap St) (init : St) : Heap St :=
  heap_fold body (seq 0 n) init.

(** **** The copy: [newWeights] *)

(** [[...e]] *)
Definition spread (e : loc) : Heap loc :=
  xs ← numbers e; alloc (Numbers xs).

(** [m.map((r) => [...r])] *)
Definition copyRows (m : loc) : Heap loc :=
  rs ← rows_of m; rs' ← heap_mapM spread rs; alloc (Rows rs').

Definition copyHead (r : HeadRef) : Heap HeadRef :=
  q ← copyRows (ref_Wq r);
  k ← copyRows (ref_Wk r);
  v ← copyRows (ref_Wv r);
  mret {| ref_Wq := q; ref_Wk := k; ref_Wv := v |}.

Definition copyLayer (r : LayerRef) : Heap LayerRef :=
  hs ← heads_of (ref_heads r);
  hs' ← heap_mapM copyHead hs;
  hl ← alloc (HeadArray hs');
  w1 ← copyRows (ref_W1 r);
  v1 ← spread (ref_b1 r);
  w2 ← copyRows (ref_W2 r);
  v2 ← spread (ref_b2 r);
  mret {| ref_heads := hl; ref_W1 := w1; ref_b1 := v1; ref_W2 := w2; ref_b2 := v2 |}.

Definition copyWeights (r : WeightsRef) : Heap WeightsRef :=
  e ← copyRows (ref_embeddings r);
  ls ← layers_of (ref_layers r);
  ls' ← heap_mapM copyLayer ls;
  ll ← alloc (LayerArray ls');
  w ← copyRows (ref_output_W r);
  v ← spread (ref_output_b r);
  mret {| ref_embeddings := e; ref_layers := ll; ref_output_W := w; ref_output_b := v |}.

(** **** The updates, in place on [newWeights] *)

Section HeapEngine.
Context `{Host}.
Local Open Scope float_scope.

Definition updateOutputRef (probs : vec) (lastHidden : option vec)
    (targetToken : nat) (learningRate : float) (nw : WeightsRef) : Heap unit :=
  heap_for (length probs)
    (fun v _ =>
       let error := (if (v =? targetToken)%nat then 1 else 0) - get probs v in
       hd ← lift (defined lastHidden);
       heap_for (length hd)
         (fun d _ =>
            rs ← rows_of (ref_output_W nw);
            r ← lift (defined (rs !! d));
            add_at_ref r v (learningRate * error * get hd d))
         tt;;
       add_at_ref (ref_output_b nw) v (learningRate * error))
    tt.

Definition updateEmbeddingsRef (inputTokens : list nat) (learningRate : float)
    (nw : WeightsRef) (k : nat) : Heap nat :=
  heap_fold
    (fun tokenId k =>
       rs ← rows_of (ref_embeddings nw);
       r ← lift (defined (rs !! tokenId));
       xs ← numbers r;
       heap_for (length xs)
         (fun d k =>
            let adjustment := learningRate * (Math_random k - 0.5) * 0.1 in
            add_at_ref r d adjustment;;
            mret (S k))
         k)
    inputTokens k.

Definition trainStepRef (inputTokens : list nat) (targetToken : nat)
    (weights : WeightsRef) (learningRate : float) (k : nat)
  : Heap (WeightsRef * option float * ForwardResult * nat) :=
  W ← (fun h => (defined (read_weights h weights), h));
  result ← lift (forward inputTokens W (Some targetToken));
  nw ← copyWeights weights;
  let probs := probabilities result in
  lastLayer ← lift (defined (at_pred (layerOutputs result) (length (layerOutputs result))));
  let lastHidden := at_pred (ffnOutput lastLayer) (length inputTokens) in
  updateOutputRef probs lastHidden targetToken learningRate nw;;
  k' ← updateEmbeddingsRef inputTokens learningRate nw k;
  mret (nw, loss result, result, k').
End HeapEngine.

(** [op] copies what [read] reads: on a reference that reads as [v] it
    returns a reference that reads as [v] in the cells created by the call
    alone, and leaves every cell that existed as it was *)
Definition fresh_copy {A V} (read : heap -> A -> option V) (op : A -> Heap A) : Prop :=
  forall h x v, read h x = Some v ->
    exists x' h', op x h = (Return x', h') /\ h ⊆ h' /\ read (h' ∖ h) x' = Some v.

(** what [copyWeights] leaves behind: the heap after the embeddings were
    copied ([h1]), after the layers ([h2]) and after the output layer
    ([h3]); each part of the copy reads, in the cells created for it alone,
    as the part of the input it copies *)
Definition copied (h : heap) (r' : WeightsRef) (W : Weights) (h1 h2 h3 : heap) : Prop :=
  h ⊆ h1 /\ h1 ⊆ h2 /\ h2 ⊆ h3 /\
  read_mat (h1 ∖ h) (ref_embeddings r') = Some (embeddings W) /\
  read_layers (h2 ∖ h1) (ref_layers r') = Some (layers W) /\
  read_mat (h3 ∖ h2) (ref_output_W r') = Some (output_W (output W)) /\
  read_vec (h3 ∖ h2) (ref_output_b r') = Some (output_b (output W)).

(** the cells the updates may write: arrays of numbers created while the
    embeddings or the output layer were copied *)
Definition writable (h h1 h2 h3 : heap) (l : loc) : Prop :=
  (exists xs, h3 !! l = Some (Numbers xs)) /\
  ((h !! l = None /\ is_Some (h1 !! l)) \/ h2 !! l = None).

(** a heap reached from [h3] by writing numbers into writable cells *)
Definition updated (h h1 h2 h3 : heap) (H : heap) : Prop :=
  forall l, H !! l = h3 !! l \/
            (writable h h1 h2 h3 l /\ exists ys, H !! l = Some (Numbers ys)).

(** **** Putting a parameter tree on the heap *)

Definition store_vec (x : vec) : Heap loc := alloc (Numbers x).

Definition store_mat (m : mat) : Heap loc :=
  rs ← heap_mapM store_vec m; alloc (Rows rs).

Definition store_head (a : AttentionHead) : Heap HeadRef :=
  q ← store_mat (Wq a); k ← store_mat (Wk a); v ← store_mat (Wv a);
  mret {| ref_Wq := q; ref_Wk := k; ref_Wv := v |}.

Definition store_layer (a : TransformerLayer) : Heap LayerRef :=
  hs ← heap_mapM store_head (heads a);
  hl ← alloc (HeadArray hs);
  w1 ← store_mat (W1 (ffn a)); v1 ← store_vec (b1 (ffn a));
  w2 ← store_mat (W2 (ffn a)); v2 ← store_vec (b2 (ffn a));
  mret {| ref_heads := hl; ref_W1 := w1; ref_b1 := v1; ref_W2 := w2; ref_b2 := v2 |}.

Definition store_weights (w : Weights) : Heap WeightsRef :=
  e ← store_mat (embeddings w);
  ls ← heap_mapM store_layer (layers w);
  ll ← alloc (LayerArray ls);
  ow ← store_mat (output_W (output w)); ob ← store_vec (output_b (output w));
  mret {| ref_embeddings := e; ref_layers := ll; ref_output_W := ow; ref_output_b := ob |}.

Definition no_ref : WeightsRef :=
  {| ref_embeddings := 1%positive; ref_layers := 1%positive;
     ref_output_W := 1%positive; ref_output_b := 1%positive |}.

(** [steep_weights] on an otherwise empty heap *)
Definition steep_ref : WeightsRef := returned no_ref (fst (store_weights steep_weights ∅)).

Definition steep_heap : heap := snd (store_weights steep_weights ∅).

(** a computation that only adds cells to the heap *)
Definition extends_only {A} (m : Heap A) : Prop :=
  forall h res h', m h = (res, h') -> h ⊆ h'.

(** in [H] the embeddings and the output layer of [nw] are held by the rows
    [rsE] and [rsW] and stand for [E] and [o] *)
Definition mutable_rep (H : heap) (nw : WeightsRef) (rsE rsW : list loc)
    (E : mat) (o : OutputLayer) : Prop :=
  H !! ref_embeddings nw = Some (Rows rsE) /\
  H !! ref_output_W nw = Some (Rows rsW) /\
  Forall2 (fun r x => H !! r = Some (Numbers x)) rsE E /\
  Forall2 (fun r x => H !! r = Some (Numbers x)) rsW (output_W o) /\
  H !! ref_output_b nw = Some (Numbers (output_b o)).

(** the computation [m] on the heap, run from [H], does what the
    computation [p] on values does: both throw, or both return, and then
    [post] relates the heap left behind and the two results *)
Definition refines {A B} (post : heap -> A -> B -> Prop)
    (m : Heap A) (H : heap) (p : js B) : Prop :=
  match p with
  | Return b => exists a H', m H = (Return a, H') /\ post H' a b
  | TypeError => exists H', m H = (TypeError, H')
  end.

(** *** math.ts: matMul, transpose, computeAttention *)

Section MatrixKernels.
Context `{Host}.
Local Open Scope float_scope.

(** [b[0].length] throws on an empty [b], whatever [a] is; [b[k][j]]
    throws when [b] has no row [k]; a missing [a[i][k]] or [b[k][j]] reads
    as [undefined] and makes the sum NaN *)
Definition matMul (a b : mat) : js mat :=
  let rows := length a in
  b0 ← defined (b !! 0%nat);
  let cols := length b0 in
  js_mapM
    (fun i =>
       js_mapM
         (fun j =>
            js_for (length (row a 0))
              (fun k sum =>
                 bk ← defined (b !! k);
                 Return (sum + get (row a i) k * get bk j))
              0)
         (seq 0 cols))
    (seq 0 rows).

(** [dotProduct(a, b)] when [b] may be [undefined]: the callback of
    [reduce] reads [b[i]], so a non-empty [a] throws and an empty one
    returns the initial 0 *)
Definition dotProduct_undefined (a : vec) (b : option vec) : js float :=
  match b with
  | Some b => Return (dotProduct a b)
  | None => match a with [] => Return 0 | _ => TypeError end
  end.

Definition computeAttention (queries keys values : mat) : js (mat * mat) :=
  let seqLen := length queries in
  q0 ← defined (queries !! 0%nat);
  let dk := length q0 in
  let scale := PrimFloat.sqrt (float_of_nat dk) in
  scores ←
    js_mapM
      (fun i =>
         rowScores ←
           js_mapM
             (fun j =>
                p ← dotProduct_undefined (row queries i) (keys !! j);
                Return (p / scale))
             (seq 0 seqLen);
         Return (softmax rowScores))
      (seq 0 seqLen);
  output ←
    js_mapM
      (fun i =>
         v0 ← defined (values !! 0%nat);
         js_for seqLen
           (fun j weighted =>
              js_for (length v0)
                (fun k weighted =>
                   vj ← defined (values !! j);
                   Return (add_at weighted k (get (row scores i) j * get vj k)))
                weighted)
           (replicate (length v0) 0))
      (seq 0 seqLen);
  Return (scores, output).
End MatrixKernels.

(** [transpose]: an element of the result is [row[colIndex]], which is
    [undefined] where a row is shorter than the first one; elements are
    therefore numbers or [undefined] *)
Definition transpose (matrix : list (list (option float)))
  : js (list (list (option float))) :=
  first ← defined (matrix !! 0%nat);
  Return (imap (fun colIndex (_ : option float) =>
                  map (fun r : list (option float) => default None (r !! colIndex)) matrix)
               first).

(** a matrix of numbers as a matrix of elements *)
Definition elements (m : mat) : list (list (option float)) := map (map Some) m.

(** the columns of a matrix of numbers, a missing element read as NaN *)
Definition columns (m : mat) : mat :=
  imap (fun colIndex _ => map (fun r => get r colIndex) m) (row m 0).

(** every row has [n] elements *)
Definition rectangular (n : nat) (m : mat) : Prop := Forall (fun r => length r = n) m.

(** *** Strings

    A string is its sequence of UTF-16 code units. [toLowerCase] (the
    Unicode case mapping) and the conversion of a number to a string
    belong to the host. *)

Abbreviation jsstring := (list N).

Class StringHost := {
  toLowerCase : jsstring -> jsstring;
  (** [`${n}`] for a token id *)
  Number_toString : nat -> jsstring
}.

(** the code units of the characters of a literal *)
Definition str (s : string) : jsstring :=
  map Ascii.N_of_ascii (String.list_ascii_of_string s).

(** the class [[.,!?]] *)
Definition is_punctuation (c : N) : bool :=
  ((c =? 46) || (c =? 44) || (c =? 33) || (c =? 63))%N.

(** the class [\s]: WhiteSpace (TAB, VT, FF, ZWNBSP and the space
    separators of Unicode) and LineTerminator (LF, CR, LS, PS) *)
Definition is_space (c : N) : bool :=
  ((c =? 9) || (c =? 10) || (c =? 11) || (c =? 12) || (c =? 13) || (c =? 32)
   || (c =? 160) || (c =? 5760) || ((8192 <=? c) && (c <=? 8202))
   || (c =? 8232) || (c =? 8233) || (c =? 8239) || (c =? 8287)
   || (c =? 12288) || (c =? 65279))%N.

(** [s.replace(/[.,!?]/g, "")] *)
Definition strip_punctuation (s : jsstring) : jsstring :=
  filter (fun c => is_punctuation c = false) s.

(** [s.split(/\s+/)]: the fields between maximal runs of white space; a
    run at either end leaves an empty field there, and the empty string
    gives one empty field. [field] is the field being read and
    [in_separator] tells that the code unit before was white space. *)
Fixpoint split_from (s : jsstring) (field : jsstring) (in_separator : bool)
  : list jsstring :=
  match s with
  | [] => [field]
  | c :: s' =>
      if is_space c
      then if in_separator then split_from s' [] true
           else field :: split_from s' [] true
      else split_from s' (field ++ [c]) false
  end.

Definition split_spaces (s : jsstring) : list jsstring := split_from s [] false.

(** *** The vocabulary object

    A [Record<string, number>] built by assignments: its own properties in
    creation order. It inherits from [Object.prototype]. *)

Abbreviation vocabulary := (list (jsstring * nat)).

(** the property names of [Object.prototype] *)
Definition Object_prototype_names : list jsstring :=
  map str
    [ "constructor"; "__defineGetter__"; "__defineSetter__"; "hasOwnProperty";
      "__lookupGetter__"; "__lookupSetter__"; "isPrototypeOf";
      "propertyIsEnumerable"; "toString"; "valueOf"; "__proto__";
      "toLocaleString" ]%string.

(** what [vocabulary[word]] reads: a number the object holds, or a value
    of [Object.prototype], which is no number *)
Inductive property : Type :=
  | Own (id : nat)
  | Inherited.

Definition own (v : vocabulary) (word : jsstring) : option nat :=
  snd <$> find (fun e => bool_decide (fst e = word)) v.

(** [vocabulary[word]]; [None] is [undefined] *)
Definition get_property (v : vocabulary) (word : jsstring) : option property :=
  match own v word with
  | Some id => Some (Own id)
  | None => if bool_decide (word ∈ Object_prototype_names) then Some Inherited else None
  end.

(** [word in vocabulary] *)
Definition has_property (v : vocabulary) (word : jsstring) : bool :=
  bool_decide (is_Some (get_property v word)).

(** a property name that is an array index: the canonical decimal
    numeral of an integer below 2^32 - 1 *)
Definition digit (c : N) : option N :=
  if ((48 <=? c) && (c <=? 57))%N then Some (c - 48)%N else None.

Fixpoint numeral_from (s : jsstring) (acc : N) : option N :=
  match s with
  | [] => Some acc
  | c :: s' => d ← digit c; numeral_from s' (acc * 10 + d)%N
  end.

Definition array_index (s : jsstring) : option N :=
  match s with
  | [] => None
  | [48%N] => Some 0%N
  | 48%N :: _ => None
  | _ => n ← numeral_from s 0; if (n <? 4294967295)%N then Some n else None
  end.

Fixpoint insert_by_index {A} (i : N) (a : A) (l : list (N * A)) : list (N * A) :=
  match l with
  | [] => [(i, a)]
  | (j, b) :: l' =>
      if (i <? j)%N then (i, a) :: (j, b) :: l' else (j, b) :: insert_by_index i a l'
  end.

(** [Object.entries(vocabulary)]: the properties named by an array index
    in ascending order of the index, then the others in creation order *)
Definition Object_entries (v : vocabulary) : list (jsstring * nat) :=
  let indexed :=
    fold_left
      (fun l e => match array_index (fst e) with
                  | Some i => insert_by_index i e l
                  | None => l
                  end) v [] in
  map snd indexed ++ filter (fun e => array_index (fst e) = None) v.

(** [Object.keys(vocabulary).length] *)
Definition vocabSize_of (v : vocabulary) : nat := length v.

(** *** tokenize, detokenize and the vocabulary of a corpus *)

Section Tokens.
Context `{StringHost}.

(** [sentence.toLowerCase().replace(/[.,!?]/g, "").split(/\s+/)] *)
Definition words (sentence : jsstring) : list jsstring :=
  split_spaces (strip_punctuation (toLowerCase sentence)).

(** the elements of the result are what [vocabulary[word]] reads for the
    words that are [in] the vocabulary *)
Definition tokenize (sentence : jsstring) (v : vocabulary) : list property :=
  omap (fun word => get_property v word)
       (filter (fun word => has_property v word = true) (words sentence)).

Definition detokenize (tokenId : nat) (v : vocabulary) : jsstring :=
  match find (fun e => (snd e =? tokenId)%nat) (Object_entries v) with
  | Some e => fst e
  | None => str "<" ++ Number_toString tokenId ++ str ">"
  end.

(** ConfigPanel.tsx, the vocabulary extracted from the corpus:
    [if (word && !(word in vocab)) vocab[word] = id++] *)
Definition addWord (word : jsstring) (st : vocabulary * nat) : vocabulary * nat :=
  let '(vocab, id) := st in
  if bool_decide (word <> []) && negb (has_property vocab word)
  then (vocab ++ [(word, id)], S id)
  else (vocab, id).

Definition corpusVocabulary (corpus : list jsstring) : vocabulary :=
  fst (fold_left
         (fun st sentence => fold_left (fun st word => addWord word st) (words sentence) st)
         corpus ([], 0%nat)).
End Tokens.

(** what the loop over the corpus keeps: the next id is the number of
    words, the ids are 0, 1, ... in creation order, no word occurs twice,
    and no word is empty or names a property of [Object.prototype] *)
Definition well_numbered (st : vocabulary * nat) : Prop :=
  snd st = length (fst st) /\
  map snd (fst st) = seq 0 (length (fst st)) /\
  NoDup (map fst (fst st)) /\
  Forall (fun e => fst e <> [] /\ fst e ∉ Object_prototype_names) (fst st).

(** the ids of the elements that are numbers *)
Definition token_ids (tokens : list property) : list nat :=
  omap (fun p => match p with Own id => Some id | Inherited => None end) tokens.

(** a reference host for strings: it lower-cases the letters of Latin-1
    and prints a number in decimal *)
Module RefString.
Definition lower (c : N) : N :=
  if (((65 <=? c) && (c <=? 90))
      || ((192 <=? c) && (c <=? 222) && negb (c =? 215)))%N
  then (c + 32)%N else c.

Definition toLowerCase (s : jsstring) : jsstring := map lower s.

Definition Number_toString (n : nat) : jsstring :=
  str (NilEmpty.string_of_uint (Nat.to_uint n)).
End RefString.

Definition ref_strings : StringHost :=
  {| toLowerCase := RefString.toLowerCase; Number_toString := RefString.Number_toString |}.

(** *** Case analysis on the comparisons of an order proof *)

Ltac order_cases :=
  repeat match goal with
         | H : context [(?a ?= ?b)%Z] |- _ => destruct (Z.compare_spec a b); cbn in H
         | |- context [(?a ?= ?b)%Z] => destruct (Z.compare_spec a b); cbn
         | H : context [(?a ?= ?b)%positive] |- _ => destruct (Pos.compare_spec a b); cbn in H
         | |- context [(?a ?= ?b)%positive] => destruct (Pos.compare_spec a b); cbn
         end.

(** ** Part II: properties *)

Lemma js_bind_Return {A B} (m : js A) (k : A -> js B) (b : B) :
  (m ≫= k) = Return b -> exists a, m = Return a /\ k a = Return b.
Proof. destruct m as [a|]; simpl; [eauto | discriminate]. Qed.

Lemma js_mapM_defined {A} (l : list A) (idx : list nat) :
  Forall (fun t => t < length l) idx ->
  exists rows, js_mapM (fun t => defined (l !! t)) idx = Return rows
               /\ length rows = length idx
               /\ forall i t, idx !! i = Some t -> rows !! i = l !! t.
Proof.
  induction 1 as [|t idx Ht _ IH]; simpl.
  - exists []. repeat split; auto. intros i t Hi. rewrite lookup_nil in Hi. discriminate.
  - destruct IH as (rows & -> & Hlen & Hrows).
    destruct (lookup_lt_is_Some_2 l t Ht) as [r Hr]. rewrite Hr. simpl.
    exists (r :: rows). repeat split; simpl; auto.
    intros [|i] t' Hi; simpl in *; [congruence | eauto].
Qed.

Section ZeroLayers.
Context `{Host}.

Lemma forward_no_layers toks w tgt r :
  layers w = [] -> forward toks w tgt = Return r -> layerOutputs r = [].
Proof.
  intros Hl Hf. unfold forward in Hf. rewrite Hl in Hf.
  destruct (js_mapM _ toks) as [c0|]; simpl in Hf; [|discriminate].
  destruct (project _ _) as [p|]; simpl in Hf; [|discriminate].
  injection Hf as <-. reflexivity.
Qed.

(** C10: on weights without layers [trainStep] throws a TypeError and
    returns nothing, for [result.layerOutputs] is empty and its element at
    index length - 1 is [undefined]; [forward] itself returns on such
    weights for a non-empty sequence of tokens of the vocabulary, with no
    layer record, projecting the embedding of the last token. *)
Theorem trainStep_without_layers toks tgt w lr k :
  layers w = [] ->
  trainStep toks tgt w lr k = TypeError /\
  (toks <> [] -> Forall (fun t => t < length (embeddings w)) toks ->
   exists r, forward toks w (Some tgt) = Return r /\
     layerOutputs r = [] /\
     logits r = vecAdd (matVecMul (output_W (output w))
                          (row (embeddings w) (List.last toks 0)))
                       (output_b (output w))).
Proof.
  intros Hl. split.
  - unfold trainStep. destruct (forward toks w (Some tgt)) as [r|] eqn:Hf; simpl; [|reflexivity].
    rewrite (forward_no_layers _ _ _ _ Hl Hf). reflexivity.
  - intros Hne Hin. unfold forward. rewrite Hl.
    destruct (js_mapM_defined (embeddings w) toks Hin) as (rows & -> & Hlen & Hrows).
    simpl.
    destruct (exists_last Hne) as (pre & t & ->).
    assert (Hlast : at_pred rows (length (pre ++ [t])) = Some (row (embeddings w) t)).
    { rewrite length_app. simpl. replace (length pre + 1) with (S (length pre)) by lia.
      simpl. rewrite (Hrows (length pre) t).
      - unfold row. apply Forall_app in Hin as [_ Ht]. inversion Ht; subst.
        destruct (lookup_lt_is_Some_2 (embeddings w) t H2) as [r ->]. reflexivity.
      - rewrite lookup_app_r by lia. replace (length pre - length pre) with 0 by lia. reflexivity. }
    rewrite Hlast. simpl. eexists. split; [reflexivity|]. simpl. split; [reflexivity|].
    rewrite last_last. reflexivity.
Qed.
End ZeroLayers.

Lemma trainStep_without_layers_witness :
  trainStep (H := ref_host) [0; 1] 0 no_layer_weights 0.1%float 0 = TypeError.
Proof.
  exact (proj1 (trainStep_without_layers (H := ref_host) [0; 1] 0 no_layer_weights 0.1%float 0 eq_refl)).
Defined.

(** *** Determinism of the forward pass *)

(** C9: the forward pass reads [Math.exp] and [Math.log] only. Two hosts
    with the same two functions, whatever their random sequences, compute
    the same completion for the same tokens, weights and target: the same
    logits, probabilities, predicted token and loss, or the same error. *)
Theorem forward_deterministic :
  forall (exp log : float -> float) (random1 random2 : nat -> float)
         (toks : list nat) (w : Weights) (tgt : option nat),
    forward (H := {| Math_exp := exp; Math_log := log; Math_random := random1 |}) toks w tgt
    = forward (H := {| Math_exp := exp; Math_log := log; Math_random := random2 |}) toks w tgt.
Proof.
  intros exp log random1 random2 toks w tgt.
  unfold forward.
  destruct (js_mapM _ toks) as [c0|]; [|reflexivity].
  reflexivity.
Qed.

(** *** The kernels in exact arithmetic *)

Section ExactKernels.
Local Open Scope R_scope.

























End ExactKernels.

(** *** Loops and array updates *)

Lemma for_loop_S {St} (n : nat) (body : nat -> St -> St) (init : St) :
  for_loop (S n) body init = body n (for_loop n body init).
Proof. unfold for_loop. rewrite seq_S, fold_left_app. reflexivity. Qed.

Lemma get_lookup (x : list float) (i : nat) (v : float) :
  x !! i = Some v -> get x i = v.
Proof. unfold get. intros ->. reflexivity. Qed.

Lemma get_beyond (x : list float) (i : nat) : length x <= i -> get x i = nan.
Proof. unfold get. intros Hi. rewrite lookup_ge_None_2 by lia. reflexivity. Qed.

Lemma add_at_in_range (x : list float) (i : nat) (v : float) :
  i < length x -> add_at x i v = <[i := (get x i + v)%float]> x.
Proof.
  intros Hi. unfold add_at, assign.
  destruct (Nat.ltb_spec i (length x)); [reflexivity | lia].
Qed.

Lemma add_at_append (x : list float) (v : float) :
  add_at x (length x) v = x ++ [(nan + v)%float].
Proof.
  unfold add_at, assign. rewrite Nat.ltb_irrefl, Nat.sub_diag.
  rewrite get_beyond by lia. reflexivity.
Qed.

Lemma length_add_at_in_range (x : list float) (i : nat) (v : float) :
  i < length x -> length (add_at x i v) = length x.
Proof. intros Hi. rewrite add_at_in_range by assumption. apply length_insert. Qed.

(** a loop that adds [f d] to element [d], for d below [n], of an array
    with at least [n] elements *)
Lemma for_loop_add_at (f : nat -> float) (n : nat) (x : list float) :
  n <= length x ->
  for_loop n (fun d x => add_at x d (f d)) x
  = imap (fun d v => if d <? n then (v + f d)%float else v) x.
Proof.
  induction n as [|n IH]; intros Hn.
  - unfold for_loop. simpl. apply list_eq. intros i.
    rewrite list_lookup_imap. destruct (x !! i); reflexivity.
  - rewrite for_loop_S, IH by lia.
    rewrite add_at_in_range by (rewrite length_imap; lia).
    apply list_eq. intros i.
    destruct (decide (i = n)) as [->|Hne].
    + rewrite list_lookup_insert_eq by (rewrite length_imap; lia).
      rewrite list_lookup_imap.
      destruct (lookup_lt_is_Some_2 x n ltac:(lia)) as [v Hv]. rewrite Hv. simpl.
      destruct (Nat.ltb_spec n (S n)); [|lia].
      f_equal. f_equal. apply get_lookup. rewrite list_lookup_imap, Hv. simpl.
      rewrite Nat.ltb_irrefl. reflexivity.
    + rewrite list_lookup_insert_ne by congruence.
      rewrite !list_lookup_imap. destruct (x !! i) as [v|]; [simpl|reflexivity].
      destruct (Nat.ltb_spec i n), (Nat.ltb_spec i (S n)); try lia; reflexivity.
Qed.

Lemma for_loop_add_at_all (f : nat -> float) (x : list float) :
  for_loop (length x) (fun d x => add_at x d (f d)) x
  = imap (fun d v => (v + f d)%float) x.
Proof.
  rewrite for_loop_add_at by lia. apply imap_ext. intros i v Hi.
  apply lookup_lt_Some in Hi. destruct (Nat.ltb_spec i (length x)); [reflexivity | lia].
Qed.

(** *** Shapes of the vector primitives *)

Section Shapes.
Context `{Host}.

Lemma length_matVecMul (m : mat) (v : vec) : length (matVecMul m v) = length m.
Proof. apply length_map. Qed.

Lemma length_vecAdd (a b : vec) : length (vecAdd a b) = length a.
Proof. apply length_imap. Qed.

Lemma length_softmax {num} {arith : Arith num} (x : list num) :
  length (softmax x) = length x.
Proof. unfold softmax. rewrite !length_map. reflexivity. Qed.

Lemma length_layerNorm {num} {arith : Arith num} (x : list num) :
  length (layerNorm x) = length x.
Proof. unfold layerNorm. apply length_map. Qed.

Lemma length_feedForward (x : vec) (f : FFN) :
  length (feedForward x f) = length (W2 f).
Proof. unfold feedForward. rewrite length_vecAdd, length_matVecMul. reflexivity. Qed.

Lemma length_rowScores (Q K : mat) (scale : float) (n i : nat) :
  length (rowScores Q K scale n i) = n.
Proof. unfold rowScores. rewrite length_map, length_seq. reflexivity. Qed.

Lemma length_weightedSum (s : vec) (V : mat) (width n : nat) :
  length (weightedSum s V width n) = width.
Proof.
  unfold weightedSum. induction n as [|n IH].
  - unfold for_loop. simpl. apply length_replicate.
  - rewrite for_loop_S.
    rewrite <- IH at 1. rewrite for_loop_add_at_all, length_imap. exact IH.
Qed.
End Shapes.

(** *** attentionHead *)

Section Attention.
Context `{Host}.
Local Open Scope float_scope.

Lemma length_projectAll (M input : mat) : length (projectAll M input) = length input.
Proof. apply length_map. Qed.

Lemma projectAll_rows (M input : mat) :
  Forall (fun r => length r = length M) (projectAll M input).
Proof.
  apply Forall_forall. intros r Hr. apply list_elem_of_In, in_map_iff in Hr as (x & <- & _).
  apply length_matVecMul.
Qed.

(** on a non-empty input the head returns; [dk] is the number of rows of
    [Wq], and every output row is as wide as [Wv] has rows *)
Lemma attentionHead_returns (input : mat) (head : AttentionHead) :
  input <> [] ->
  attentionHead input head =
    Return
      (map (fun i =>
              softmax (rowScores (projectAll (Wq head) input) (projectAll (Wk head) input)
                         (PrimFloat.sqrt (float_of_nat (length (Wq head))))
                         (length input) i))
           (seq 0 (length input)),
       map (fun i =>
              weightedSum
                (row (map (fun i =>
                             softmax (rowScores (projectAll (Wq head) input)
                                        (projectAll (Wk head) input)
                                        (PrimFloat.sqrt (float_of_nat (length (Wq head))))
                                        (length input) i))
                          (seq 0 (length input))) i)
                (projectAll (Wv head) input) (length (Wv head)) (length input))
           (seq 0 (length input))).
Proof.
  destruct input as [|x0 rest]; [congruence|]. intros _.
  unfold attentionHead. cbn [projectAll map lookup list_lookup defined mbind js_bind].
  rewrite !length_matVecMul. reflexivity.
Qed.

Lemma attentionHead_empty (head : AttentionHead) : attentionHead [] head = TypeError.
Proof. reflexivity. Qed.

Lemma attentionHead_output_shape (input : mat) (head : AttentionHead) (scores output : mat) :
  attentionHead input head = Return (scores, output) ->
  length scores = length input /\
  Forall (fun s => length s = length input) scores /\
  length output = length input /\
  Forall (fun r => length r = length (Wv head)) output.
Proof.
  destruct (decide (input = [])) as [->|Hne]; [rewrite attentionHead_empty; discriminate|].
  rewrite attentionHead_returns by assumption. intros Heq. injection Heq as <- <-.
  rewrite !length_map, !length_seq. repeat split.
  - apply Forall_forall. intros s Hs. apply list_elem_of_In, in_map_iff in Hs as (i & <- & _).
    rewrite length_softmax, length_rowScores. reflexivity.
  - apply Forall_forall. intros r Hr. apply list_elem_of_In, in_map_iff in Hr as (i & <- & _).
    apply length_weightedSum.
Qed.

(** the entry of the row handed to [softmax]: the mask past the diagonal,
    the scaled dot product on and below it *)
Lemma rowScores_entry (Q K : mat) (scale : float) (n i j : nat) :
  j < n ->
  get (rowScores Q K scale n i) j
  = if (i <? j)%nat then mask else dotProduct (row Q i) (row K j) / scale.
Proof.
  intros Hj. unfold rowScores. apply get_lookup.
  rewrite list_lookup_fmap, lookup_seq_lt by assumption. reflexivity.
Qed.
End Attention.

(** *** Shapes of initialized weights *)

Section Initialization.
Context `{Host}.

Lemma Array_from_length {A} (n : nat) (f : Rand A) (k : nat) :
  length (fst (Array_from n f k)) = n.
Proof.
  revert k. induction n as [|n IH]; intros k; simpl; [reflexivity|].
  destruct (f k) as [a k1]. specialize (IH k1).
  destruct (Array_from n f k1) as [l k2]. simpl in *. congruence.
Qed.

Lemma Array_from_Forall {A} (P : A -> Prop) (n : nat) (f : Rand A) (k : nat) :
  (forall k', P (fst (f k'))) -> Forall P (fst (Array_from n f k)).
Proof.
  intros Hf. revert k. induction n as [|n IH]; intros k; simpl; [constructor|].
  specialize (Hf k). destruct (f k) as [a k1]. specialize (IH k1).
  destruct (Array_from n f k1) as [l k2]. simpl in *. constructor; assumption.
Qed.

Lemma randomVector_length (size : nat) (scale : float) (k : nat) :
  length (fst (randomVector size scale k)) = size.
Proof. apply Array_from_length. Qed.

Lemma randomMatrix_rows (rows cols : nat) (scale : float) (k : nat) :
  length (fst (randomMatrix rows cols scale k)) = rows.
Proof. apply Array_from_length. Qed.

Lemma randomMatrix_cols (rows cols : nat) (scale : float) (k : nat) :
  Forall (fun r => length r = cols) (fst (randomMatrix rows cols scale k)).
Proof. apply Array_from_Forall. intros k'. apply Array_from_length. Qed.

Lemma initHead_shape (E Hd k : nat) : head_shape E Hd (fst (initHead E Hd k)).
Proof.
  unfold initHead.
  pose proof (randomMatrix_rows E Hd 0.1 k) as R1.
  pose proof (randomMatrix_cols E Hd 0.1 k) as C1.
  destruct (randomMatrix E Hd 0.1 k) as [wq k1].
  pose proof (randomMatrix_rows E Hd 0.1 k1) as R2.
  pose proof (randomMatrix_cols E Hd 0.1 k1) as C2.
  destruct (randomMatrix E Hd 0.1 k1) as [wk k2].
  pose proof (randomMatrix_rows E Hd 0.1 k2) as R3.
  pose proof (randomMatrix_cols E Hd 0.1 k2) as C3.
  destruct (randomMatrix E Hd 0.1 k2) as [wv k3].
  simpl in *. unfold head_shape. simpl. auto.
Qed.

Lemma initLayer_shape (E Hd N k : nat) : layer_shape E Hd N (fst (initLayer E Hd N k)).
Proof.
  unfold initLayer.
  pose proof (Array_from_length N (initHead E Hd) k) as L0.
  pose proof (Array_from_Forall (head_shape E Hd) N (initHead E Hd) k (initHead_shape E Hd)) as F0.
  destruct (Array_from N (initHead E Hd) k) as [hs k1].
  pose proof (randomMatrix_rows E (E * 2) 0.1 k1) as R1.
  pose proof (randomMatrix_cols E (E * 2) 0.1 k1) as C1.
  destruct (randomMatrix E (E * 2) 0.1 k1) as [w1 k2].
  pose proof (randomVector_length (E * 2) 0.1 k2) as V1.
  destruct (randomVector (E * 2) 0.1 k2) as [v1 k3].
  pose proof (randomMatrix_rows (E * 2) E 0.1 k3) as R2.
  pose proof (randomMatrix_cols (E * 2) E 0.1 k3) as C2.
  destruct (randomMatrix (E * 2) E 0.1 k3) as [w2 k4].
  pose proof (randomVector_length E 0.1 k4) as V2.
  destruct (randomVector E 0.1 k4) as [v2 k5].
  simpl in *. unfold layer_shape. simpl. auto 10.
Qed.

Lemma initialized_shape (vocabSize : nat) (config : ModelConfig) (w : Weights) :
  initialized vocabSize config w ->
  length (embeddings w) = vocabSize /\
  Forall (fun r => length r = embedDim config) (embeddings w) /\
  length (layers w) = numLayers config /\
  Forall (layer_shape (embedDim config) (embedDim config / numHeads config) (numHeads config))
         (layers w) /\
  length (output_W (output w)) = embedDim config /\
  Forall (fun r => length r = vocabSize) (output_W (output w)) /\
  length (output_b (output w)) = vocabSize.
Proof.
  intros [k ->]. unfold initializeWeights.
  set (E := embedDim config). set (N := numHeads config).
  pose proof (randomMatrix_rows vocabSize E 0.5 k) as R1.
  pose proof (randomMatrix_cols vocabSize E 0.5 k) as C1.
  destruct (randomMatrix vocabSize E 0.5 k) as [emb k1].
  pose proof (Array_from_length (numLayers config) (initLayer E (E / N) N) k1) as L0.
  pose proof (Array_from_Forall (layer_shape E (E / N) N) (numLayers config)
                (initLayer E (E / N) N) k1 (initLayer_shape E (E / N) N)) as F0.
  destruct (Array_from (numLayers config) (initLayer E (E / N) N) k1) as [ls k2].
  pose proof (randomMatrix_rows E vocabSize 0.1 k2) as R2.
  pose proof (randomMatrix_cols E vocabSize 0.1 k2) as C2.
  destruct (randomMatrix E vocabSize 0.1 k2) as [wo k3].
  pose proof (randomVector_length vocabSize 0.1 k3) as V2.
  destruct (randomVector vocabSize 0.1 k3) as [bo k4].
  simpl in *. auto 10.
Qed.
End Initialization.

(** *** The scale of the attention scores *)

Section AttentionScale.
Context `{Host}.
Local Open Scope float_scope.

Lemma initialized_head_shape (vocabSize : nat) (config : ModelConfig) (w : Weights)
    (l h : nat) (layer : TransformerLayer) (head : AttentionHead) :
  initialized vocabSize config w ->
  layers w !! l = Some layer -> heads layer !! h = Some head ->
  head_shape (embedDim config) (embedDim config / numHeads config) head.
Proof.
  intros Hinit Hl Hh.
  destruct (initialized_shape _ _ _ Hinit) as (_ & _ & _ & Hls & _).
  rewrite Forall_lookup in Hls. specialize (Hls l layer Hl).
  destruct Hls as (_ & Hhs & _).
  rewrite Forall_lookup in Hhs. exact (Hhs h head Hh).
Qed.

(** C3, on the code: in a head built by [initializeWeights], [Q_i] has
    [embedDim] entries, one per row of [Wq], so the raw score of every pair
    j <= i is the dot product of [Q_i] and [K_j] divided by sqrt(embedDim),
    whatever the number of heads. *)
Theorem attention_scale_on_initialized_weights
    (vocabSize : nat) (config : ModelConfig) (w : Weights)
    (l h : nat) (layer : TransformerLayer) (head : AttentionHead) (input : mat) :
  initialized vocabSize config w ->
  layers w !! l = Some layer -> heads layer !! h = Some head ->
  input <> [] ->
  Forall (fun q => length q = embedDim config) (projectAll (Wq head) input) /\
  exists scores output,
    attentionHead input head = Return (scores, output) /\
    forall i j, (j <= i < length input)%nat ->
      scores !! i =
        Some (softmax (rowScores (projectAll (Wq head) input) (projectAll (Wk head) input)
                         (PrimFloat.sqrt (float_of_nat (embedDim config)))
                         (length input) i)) /\
      get (rowScores (projectAll (Wq head) input) (projectAll (Wk head) input)
             (PrimFloat.sqrt (float_of_nat (embedDim config))) (length input) i) j
      = dotProduct (row (projectAll (Wq head) input) i) (row (projectAll (Wk head) input) j)
        / PrimFloat.sqrt (float_of_nat (embedDim config)).
Proof.
  intros Hinit Hl Hh Hne.
  destruct (initialized_head_shape _ _ _ _ _ _ _ Hinit Hl Hh) as ((HQ & _) & _).
  split.
  - rewrite <- HQ. apply projectAll_rows.
  - rewrite (attentionHead_returns input head Hne), HQ.
    eexists _, _. split; [reflexivity|].
    intros i j [Hji Hi]. split.
    + rewrite list_lookup_fmap, lookup_seq_lt by assumption. reflexivity.
    + rewrite rowScores_entry by lia.
      destruct (Nat.ltb_spec i j); [lia | reflexivity].
Qed.
End AttentionScale.

Lemma attention_scale_on_initialized_weights_witness :
  Forall (fun q => length q = 4)
         (projectAll
            (Wq (default (Build_AttentionHead [] [] [])
                   (heads (default (Build_TransformerLayer [] (Build_FFN [] [] [] []))
                             (layers two_head_weights !! 0)) !! 1)))
            (embeddings two_head_weights)) /\
  (PrimFloat.sqrt (float_of_nat (embedDim two_head_config)) = 2)%float /\
  (PrimFloat.sqrt (float_of_nat (embedDim two_head_config / numHeads two_head_config))
   = 1.4142135623730951)%float.
Proof.
  split; [|split; reflexivity].
  refine (proj1 (attention_scale_on_initialized_weights (H := ref_host)
                   3 two_head_config two_head_weights 0 1 _ _ (embeddings two_head_weights)
                   _ _ _ _)).
  - exists 0. reflexivity.
  - reflexivity.
  - reflexivity.
  - discriminate.
Defined.

(** *** Combining the heads *)

Lemma fold_left_ext {A B} (f g : A -> B -> A) (l : list B) (a : A) :
  (forall a b, f a b = g a b) -> fold_left f l a = fold_left g l a.
Proof.
  intros Hfg. revert a. induction l as [|b l IH]; intros a; simpl; [reflexivity|].
  rewrite Hfg. apply IH.
Qed.

Lemma js_mapM_Forall2 {A B} (f : A -> js B) (l : list A) (bs : list B) :
  js_mapM f l = Return bs -> Forall2 (fun a b => f a = Return b) l bs.
Proof.
  revert bs. induction l as [|a l IH]; intros bs; simpl.
  - intros [= <-]. constructor.
  - destruct (f a) as [b|] eqn:Hb; simpl; [|discriminate].
    destruct (js_mapM f l) as [bs'|]; simpl; [|discriminate].
    intros [= <-]. constructor; auto.
Qed.

Section Combination.
Context `{Host}.
Local Open Scope float_scope.

Lemma fold_imap_lookup (g : mat -> nat -> float) (outs : list mat) (c : vec) (d : nat) (v : float) :
  c !! d = Some v ->
  fold_left (fun c ho => imap (fun d v => v + g ho d) c) outs c !! d
  = Some (fold_left (fun acc ho => acc + g ho d) outs v).
Proof.
  revert c v. induction outs as [|ho outs IH]; intros c v Hc; simpl; [exact Hc|].
  apply IH. rewrite list_lookup_imap, Hc. reflexivity.
Qed.

(** [combined[d]] after the loop over the heads *)
Lemma combineHeads_entry (current : mat) (headOutputs : list mat) (i d : nat) :
  (d < length (row current 0))%nat ->
  get (combineHeads current headOutputs i) d
  = fold_left
      (fun acc headOut =>
         acc + get_mod (row headOut i) d / float_of_nat (length headOutputs))
      headOutputs 0.
Proof.
  intros Hd. unfold combineHeads. apply get_lookup.
  rewrite (fold_left_ext _
             (fun c ho => imap (fun d v => v + get_mod (row ho i) d
                                              / float_of_nat (length headOutputs)) c))
    by (intros c ho; apply for_loop_add_at_all).
  apply (fold_imap_lookup
           (fun ho d => get_mod (row ho i) d / float_of_nat (length headOutputs))).
  rewrite list_lookup_fmap.
  destruct (lookup_lt_is_Some_2 (row current 0) d Hd) as [x ->]. reflexivity.
Qed.

Lemma get_mod_in_range (x : vec) (d : nat) : (d < length x)%nat -> get_mod x d = get x d.
Proof.
  intros Hd. unfold get_mod.
  destruct (Nat.eqb_spec (length x) 0); [lia|].
  rewrite Nat.mod_small by assumption. reflexivity.
Qed.
End Combination.

Section CombinationInitialized.
Context `{Host}.
Local Open Scope float_scope.

(** C4, on the code: in a layer built by [initializeWeights] every head
    returns, per position, a vector with one entry per row of [Wv], that is
    [embedDim] entries; the index [d mod length] is then [d] itself, and
    [combined[d]] sums, over the heads, the head's value at dimension [d]
    divided by the number of heads. *)
Theorem head_combination_on_initialized_weights
    (vocabSize : nat) (config : ModelConfig) (w : Weights) (l : nat)
    (layer : TransformerLayer) (current current' : mat) (out : LayerOutput) :
  initialized vocabSize config w ->
  layers w !! l = Some layer ->
  layerForward current layer = Return (current', out) ->
  exists hs : list (mat * mat),
    js_mapM (fun head => attentionHead current head) (heads layer) = Return hs /\
    length hs = numHeads config /\
    Forall (fun ho => length ho = length current /\
                      Forall (fun r => length r = embedDim config) ho) (map snd hs) /\
    attentionOutput out = imap (fun i _ => combineHeads current (map snd hs) i) current /\
    forall i d, (i < length current)%nat -> (d < length (row current 0))%nat ->
      (d < embedDim config)%nat ->
      get (row (attentionOutput out) i) d
      = fold_left
          (fun acc headOut => acc + get (row headOut i) d / float_of_nat (numHeads config))
          (map snd hs) 0.
Proof.
  intros Hinit Hl Hrun.
  destruct (initialized_shape _ _ _ Hinit) as (_ & _ & _ & Hls & _).
  rewrite Forall_lookup in Hls. specialize (Hls l layer Hl).
  destruct Hls as (HN & Hhs & _).
  unfold layerForward in Hrun.
  destruct (js_mapM _ (heads layer)) as [hs|] eqn:Hmap; simpl in Hrun; [|discriminate].
  injection Hrun as _ <-. cbn [attentionOutput].
  exists hs. split; [reflexivity|].
  pose proof (js_mapM_Forall2 _ _ _ Hmap) as H2.
  assert (Hlen : length hs = numHeads config).
  { rewrite <- HN. symmetry. exact (Forall2_length _ _ _ H2). }
  assert (Hshape : Forall (fun ho => length ho = length current /\
                                     Forall (fun r => length r = embedDim config) ho)
                          (map snd hs)).
  { clear -H2 Hhs. induction H2 as [|head [s o] heads' hs' Hhead _ IH]; [constructor|].
    inversion Hhs as [|? ? Hsh Hrest]; subst. simpl. constructor; [|auto].
    destruct (attentionHead_output_shape _ _ _ _ Hhead) as (_ & _ & Ho & Hw).
    destruct Hsh as (_ & _ & (HV & _)). rewrite HV in Hw. auto. }
  repeat split; try assumption.
  intros i d Hi Hd HdE.
  assert (Hrow : row (imap (fun i _ => combineHeads current (map snd hs) i) current) i
                 = combineHeads current (map snd hs) i).
  { unfold row. rewrite list_lookup_imap.
    destruct (lookup_lt_is_Some_2 current i Hi) as [x ->]. reflexivity. }
  rewrite Hrow, combineHeads_entry by assumption.
  rewrite length_map, Hlen. clear Hrow.
  generalize 0. induction Hshape as [|ho hos [Hho Hw] _ IH]; intros acc; simpl; [reflexivity|].
  rewrite get_mod_in_range.
  - apply IH.
  - unfold row. destruct (lookup_lt_is_Some_2 ho i ltac:(lia)) as [r Hr]. rewrite Hr. simpl.
    rewrite Forall_lookup in Hw. rewrite (Hw i r Hr). assumption.
Qed.
End CombinationInitialized.

Lemma head_combination_on_initialized_weights_witness :
  (exists hs : list (mat * mat),
     js_mapM (fun head => attentionHead (H := ref_host) two_head_input head)
             (heads two_head_layer) = Return hs /\
     length hs = 2 /\
     Forall (fun ho => length ho = 2 /\ Forall (fun r => length r = 4) ho) (map snd hs) /\
     get (row (attentionOutput (snd two_head_run)) 0) 2
     = fold_left (fun acc headOut => (acc + get (row headOut 0) 2 / 2)%float)
         (map snd hs) 0%float) /\
  (get (row (attentionOutput (snd two_head_run)) 0) 2
   =? get (row (attentionOutput (snd two_head_run)) 0) 0)%float = false.
Proof.
  split; [|vm_compute; reflexivity].
  destruct (head_combination_on_initialized_weights (H := ref_host)
              3 two_head_config two_head_weights 0 two_head_layer two_head_input
              (fst two_head_run) (snd two_head_run))
    as (hs & Hmap & Hlen & Hshape & _ & Hentry).
  - exists 0. reflexivity.
  - reflexivity.
  - vm_compute. reflexivity.
  - exists hs. split; [exact Hmap|]. split; [exact Hlen|]. split; [exact Hshape|].
    apply (Hentry 0 2); vm_compute; lia.
Defined.

(** *** The shape of a forward pass *)

Lemma js_fold_throws_first {A St} (body : A -> St -> js St) (a : A) (l : list A) (s : St) :
  body a s = TypeError -> js_fold body (a :: l) s = TypeError.
Proof. intros Hb. simpl. rewrite Hb. reflexivity. Qed.

Lemma at_pred_length {A} (l : list A) :
  at_pred l (length l) = match length l with O => None | S m => l !! m end.
Proof. reflexivity. Qed.

Section ForwardShape.
Context `{Host}.

Lemma layerForward_shape (current current' : mat) (layer : TransformerLayer) (out : LayerOutput) :
  layerForward current layer = Return (current', out) ->
  length current' = length current /\ ffn_rows (length current) layer out.
Proof.
  unfold layerForward.
  destruct (js_mapM _ (heads layer)) as [hs|]; simpl; [|discriminate].
  intros [= <- <-]. unfold ffn_rows. cbn [ffnOutput].
  rewrite !length_imap, length_map, length_imap. repeat split.
  apply Forall_forall. intros r Hr. apply list_elem_of_In, in_map_iff in Hr as (x & <- & _).
  apply length_feedForward.
Qed.

Lemma layers_fold_records (ls : list TransformerLayer) (current current' : mat)
    (outs outs' : list LayerOutput) :
  js_fold
    (fun layer '(current, outs) =>
       '(current', out) ← layerForward current layer;
       Return (current', outs ++ [out]))
    ls (current, outs) = Return (current', outs') ->
  length current' = length current /\
  exists new, outs' = outs ++ new /\ Forall2 (layer_record (length current)) ls new.
Proof.
  revert current outs. induction ls as [|layer ls IH]; intros current outs; simpl.
  - intros [= <- <-]. split; [reflexivity|]. exists []. rewrite app_nil_r. split; [reflexivity|constructor].
  - destruct (layerForward current layer) as [[c1 o1]|] eqn:Hl; simpl; [|discriminate].
    intros Hrest. destruct (layerForward_shape _ _ _ _ Hl) as [Hlen Hrows].
    destruct (IH _ _ Hrest) as (Hlen' & new & -> & Hnew).
    split; [congruence|]. exists (o1 :: new). rewrite <- app_assoc. split; [reflexivity|].
    constructor.
    + exists current, c1. auto.
    + rewrite <- Hlen. assumption.
Qed.

Lemma layer_record_ffn_rows (n : nat) (layer : TransformerLayer) (out : LayerOutput) :
  layer_record n layer out -> ffn_rows n layer out.
Proof.
  intros (current & c' & <- & Hrun). exact (proj2 (layerForward_shape _ _ _ _ Hrun)).
Qed.

Lemma js_mapM_length {A B} (f : A -> js B) (l : list A) (bs : list B) :
  js_mapM f l = Return bs -> length bs = length l.
Proof. intros Hm. symmetry. exact (Forall2_length _ _ _ (js_mapM_Forall2 _ _ _ Hm)). Qed.

Lemma project_length (m : mat) (v : option vec) (p : vec) :
  project m v = Return p -> length p = length m.
Proof.
  destruct v as [v|]; simpl.
  - intros [= <-]. apply length_matVecMul.
  - apply js_mapM_length.
Qed.

(** a forward pass that returns: one record per layer, each with one
    feed-forward row per token, as long as [W2] has rows; as many
    probabilities as [output.W] has rows *)
Lemma forward_shape (toks : list nat) (w : Weights) (tgt : option nat) (r : ForwardResult) :
  forward toks w tgt = Return r ->
  Forall2 (layer_record (length toks)) (layers w) (layerOutputs r) /\
  Forall2 (ffn_rows (length toks)) (layers w) (layerOutputs r) /\
  length (probabilities r) = length (output_W (output w)) /\
  Forall (fun t => t < length (embeddings w)) toks.
Proof.
  unfold forward.
  destruct (js_mapM _ toks) as [c0|] eqn:Hc0; simpl; [|discriminate].
  unfold layersForward.
  destruct (js_fold _ (layers w) (c0, [])) as [[c outs]|] eqn:Hfold; simpl; [|discriminate].
  destruct (project _ _) as [p|] eqn:Hp; simpl; [|discriminate].
  intros [= <-]. cbn [layerOutputs probabilities].
  destruct (layers_fold_records _ _ _ _ _ Hfold) as (_ & new & Hnew & Hrows).
  simpl in Hnew. subst outs. rewrite (js_mapM_length _ _ _ Hc0) in Hrows.
  split; [assumption|].
  split; [exact (Forall2_impl _ _ _ _ Hrows (layer_record_ffn_rows _))|]. split.
  - rewrite length_softmax, length_vecAdd. exact (project_length _ _ _ Hp).
  - pose proof (js_mapM_Forall2 _ _ _ Hc0) as H2. clear -H2.
    induction H2 as [|t x ts xs Ht _ IH]; constructor; [|assumption].
    apply lookup_lt_is_Some. destruct (embeddings w !! t); [eauto | discriminate].
Qed.
End ForwardShape.

(** *** trainStep on initialized weights *)

Section TrainInitialized.
Context `{Host}.
Local Open Scope float_scope.

(** the loop over [d] throws as soon as [d] reaches the number of rows of
    [newWeights.output.W] *)
Lemma output_rows_loop_throws (f : nat -> vec -> vec) (m a : nat) (W : mat) :
  (a <= length W < a + m)%nat ->
  js_fold (fun d W => r ← defined (W !! d); Return (<[d := f d r]> W)) (seq a m) W
  = TypeError.
Proof.
  revert a W. induction m as [|m IH]; intros a W Hlen; [lia|]. simpl.
  destruct (decide (a = length W)) as [->|Hne].
  - rewrite lookup_ge_None_2 by lia. reflexivity.
  - destruct (lookup_lt_is_Some_2 W a ltac:(lia)) as [r ->]. simpl.
    apply IH. rewrite length_insert. lia.
Qed.

Lemma updateOutput_throws (probs : vec) (lastHidden : option vec) (tgt : nat) (lr : float)
    (o : OutputLayer) :
  (0 < length probs)%nat ->
  match lastHidden with
  | Some h => (length (output_W o) < length h)%nat
  | None => True
  end ->
  updateOutput probs lastHidden tgt lr o = TypeError.
Proof.
  intros Hp Hh. unfold updateOutput, js_for.
  destruct (length probs) as [|n]; [lia|]. simpl.
  destruct lastHidden as [h|]; simpl; [|reflexivity].
  unfold js_for. rewrite output_rows_loop_throws with (a := 0%nat) by lia. reflexivity.
Qed.

(** C1, on the code: on weights built by [initializeWeights] for a positive
    embedDim, [trainStep] throws a TypeError and returns no [newWeights].
    With layers, the vector read as [lastHidden] is a row of the last
    layer's feed-forward output, which has 2 * embedDim entries, and the
    loop over [d] runs past the embedDim rows of [output.W]. *)
Theorem trainStep_on_initialized_weights_throws
    (vocabSize : nat) (config : ModelConfig) (w : Weights)
    (toks : list nat) (tgt : nat) (lr : float) (k : nat) :
  initialized vocabSize config w ->
  (1 <= embedDim config)%nat ->
  trainStep toks tgt w lr k = TypeError.
Proof.
  intros Hinit HE.
  destruct (initialized_shape _ _ _ Hinit) as (_ & _ & _ & Hls & HW & _).
  unfold trainStep.
  destruct (forward toks w (Some tgt)) as [r|] eqn:Hf; simpl; [|reflexivity].
  destruct (forward_shape _ _ _ _ Hf) as (_ & Hrows & Hprobs & _).
  rewrite at_pred_length.
  destruct (length (layerOutputs r)) as [|n] eqn:Hn; simpl; [reflexivity|].
  destruct (lookup_lt_is_Some_2 (layerOutputs r) n ltac:(lia)) as [lo Hlo].
  rewrite Hlo. simpl.
  destruct (Forall2_lookup_r _ _ _ _ _ Hrows Hlo) as (layer & Hlayer & Hlen & Hwidth).
  rewrite Forall_lookup in Hls. destruct (Hls n layer Hlayer) as (_ & _ & _ & _ & _ & HW2 & _).
  rewrite updateOutput_throws; [reflexivity | lia |].
  destruct toks as [|t toks]; simpl; [exact I|].
  destruct (lookup_lt_is_Some_2 (ffnOutput lo) (length toks) ltac:(simpl in Hlen; lia)) as [h Hh].
  rewrite Hh. rewrite Forall_lookup in Hwidth. rewrite (Hwidth _ _ Hh). lia.
Qed.
End TrainInitialized.

Lemma trainStep_on_initialized_weights_throws_witness :
  trainStep (H := ref_host) [0; 1] 0 small_weights 0.1%float 0 = TypeError.
Proof.
  apply (trainStep_on_initialized_weights_throws (H := ref_host) 3 small_config).
  - exists 0. reflexivity.
  - simpl. lia.
Defined.

(** *** The causal mask *)


Section CausalMask.
Context `{Host}.
Local Open Scope float_scope.



Lemma js_fold_app {A St} (body : A -> St -> js St) (l1 l2 : list A) (s : St) :
  js_fold body (l1 ++ l2) s = (s' ← js_fold body l1 s; js_fold body l2 s').
Proof.
  revert s. induction l1 as [|a l1 IH]; intros s; simpl; [reflexivity|].
  destruct (body a s) as [s1|]; simpl; [apply IH | reflexivity].
Qed.


End CausalMask.



(** *** The embedding update *)

Section EmbeddingUpdate.
Context `{Host}.
Local Open Scope float_scope.



Lemma length_perturb (lr : float) (k : nat) (r : vec) : length (perturb lr k r) = length r.
Proof. apply length_imap. Qed.

Lemma length_perturbations (lr : float) (width : nat -> nat) (toks : list nat)
    (k t : nat) (r : vec) :
  length (perturbations lr width toks k t r) = length r.
Proof.
  revert k r. induction toks as [|t' toks IH]; intros k r; simpl; [reflexivity|].
  rewrite IH. destruct (t' =? t)%nat; [apply length_perturb | reflexivity].
Qed.








End EmbeddingUpdate.



(** *** The heap: reading *)

Lemma difference_mono_l (h h1 h2 : heap) : h1 ⊆ h2 -> h1 ∖ h ⊆ h2 ∖ h.
Proof.
  intros Hsub. apply map_subseteq_spec. intros l c Hl.
  apply lookup_difference_Some in Hl as [Hl Hn].
  apply lookup_difference_Some. split; [|assumption].
  eapply lookup_weaken; eassumption.
Qed.

Lemma difference_mono_r (h h1 h2 : heap) : h ⊆ h1 -> h2 ∖ h1 ⊆ h2 ∖ h.
Proof.
  intros Hsub. apply map_subseteq_spec. intros l c Hl.
  apply lookup_difference_Some in Hl as [Hl Hn].
  apply lookup_difference_Some. split; [assumption|].
  destruct (h !! l) as [c'|] eqn:Hc; [|reflexivity].
  rewrite (lookup_weaken _ _ _ _ Hc Hsub) in Hn. discriminate.
Qed.

Lemma mapM_mono {A B} (f g : A -> option B) (l : list A) (k : list B) :
  (forall x y, f x = Some y -> g x = Some y) ->
  mapM f l = Some k -> mapM g l = Some k.
Proof.
  intros Hfg Hf. apply mapM_Some. apply mapM_Some in Hf.
  eapply Forall2_impl; [exact Hf|]. exact Hfg.
Qed.

Section ReadMonotone.
Variables h h' : heap.
Hypothesis Hsub : h ⊆ h'.

Lemma read_vec_mono (l : loc) (xs : vec) :
  read_vec h l = Some xs -> read_vec h' l = Some xs.
Proof.
  unfold read_vec. destruct (h !! l) as [c|] eqn:Hl; [|discriminate].
  rewrite (lookup_weaken _ _ _ _ Hl Hsub). auto.
Qed.

Lemma read_mat_mono (l : loc) (m : mat) :
  read_mat h l = Some m -> read_mat h' l = Some m.
Proof.
  unfold read_mat. destruct (h !! l) as [c|] eqn:Hl; [|discriminate].
  rewrite (lookup_weaken _ _ _ _ Hl Hsub). destruct c; try discriminate.
  apply mapM_mono. exact read_vec_mono.
Qed.

Lemma read_head_mono (r : HeadRef) (a : AttentionHead) :
  read_head h r = Some a -> read_head h' r = Some a.
Proof.
  unfold read_head.
  destruct (read_mat h (ref_Wq r)) as [q|] eqn:Hq; [|discriminate].
  destruct (read_mat h (ref_Wk r)) as [k|] eqn:Hk; [|discriminate].
  destruct (read_mat h (ref_Wv r)) as [v|] eqn:Hv; [|discriminate].
  rewrite (read_mat_mono _ _ Hq), (read_mat_mono _ _ Hk), (read_mat_mono _ _ Hv). auto.
Qed.

Lemma read_heads_mono (l : loc) (hs : list AttentionHead) :
  read_heads h l = Some hs -> read_heads h' l = Some hs.
Proof.
  unfold read_heads. destruct (h !! l) as [c|] eqn:Hl; [|discriminate].
  rewrite (lookup_weaken _ _ _ _ Hl Hsub). destruct c; try discriminate.
  apply mapM_mono. exact read_head_mono.
Qed.

Lemma read_layer_mono (r : LayerRef) (a : TransformerLayer) :
  read_layer h r = Some a -> read_layer h' r = Some a.
Proof.
  unfold read_layer.
  destruct (read_heads h (ref_heads r)) as [hs|] eqn:Hh; [|discriminate].
  destruct (read_mat h (ref_W1 r)) as [w1|] eqn:H1; [|discriminate].
  destruct (read_vec h (ref_b1 r)) as [v1|] eqn:H2; [|discriminate].
  destruct (read_mat h (ref_W2 r)) as [w2|] eqn:H3; [|discriminate].
  destruct (read_vec h (ref_b2 r)) as [v2|] eqn:H4; [|discriminate].
  rewrite (read_heads_mono _ _ Hh), (read_mat_mono _ _ H1), (read_vec_mono _ _ H2),
    (read_mat_mono _ _ H3), (read_vec_mono _ _ H4). auto.
Qed.

Lemma read_layers_mono (l : loc) (ls : list TransformerLayer) :
  read_layers h l = Some ls -> read_layers h' l = Some ls.
Proof.
  unfold read_layers. destruct (h !! l) as [c|] eqn:Hl; [|discriminate].
  rewrite (lookup_weaken _ _ _ _ Hl Hsub). destruct c; try discriminate.
  apply mapM_mono. exact read_layer_mono.
Qed.

Lemma read_weights_mono (r : WeightsRef) (w : Weights) :
  read_weights h r = Some w -> read_weights h' r = Some w.
Proof.
  unfold read_weights.
  destruct (read_mat h (ref_embeddings r)) as [e|] eqn:H1; [|discriminate].
  destruct (read_layers h (ref_layers r)) as [ls|] eqn:H2; [|discriminate].
  destruct (read_mat h (ref_output_W r)) as [ow|] eqn:H3; [|discriminate].
  destruct (read_vec h (ref_output_b r)) as [ob|] eqn:H4; [|discriminate].
  rewrite (read_mat_mono _ _ H1), (read_layers_mono _ _ H2), (read_mat_mono _ _ H3),
    (read_vec_mono _ _ H4). auto.
Qed.
End ReadMonotone.

(** *** The heap: copying *)

Lemma fresh_not_in (h : heap) : h !! fresh (dom h) = None.
Proof. apply not_elem_of_dom, is_fresh. Qed.

Lemma alloc_spec (c : cell) (h : heap) :
  exists l, alloc c h = (Return l, <[l := c]> h) /\ h !! l = None /\
            h ⊆ <[l := c]> h /\ (<[l := c]> h ∖ h) !! l = Some c.
Proof.
  exists (fresh (dom h)). pose proof (fresh_not_in h) as Hf.
  split; [reflexivity|]. split; [exact Hf|]. split.
  - apply insert_subseteq. exact Hf.
  - apply lookup_difference_Some. split; [apply lookup_insert_eq | exact Hf].
Qed.

Lemma heap_bind_run {A B} (m : Heap A) (k : A -> Heap B) (h : heap) :
  (m ≫= k) h
  = match m h with
    | (Return a, h1) => k a h1
    | (TypeError, h1) => (TypeError, h1)
    end.
Proof. reflexivity. Qed.

Lemma heap_bind_returns {A B} (m : Heap A) (k : A -> Heap B) (h h1 : heap) (a : A) :
  m h = (Return a, h1) -> (m ≫= k) h = k a h1.
Proof. intros Hm. rewrite heap_bind_run, Hm. reflexivity. Qed.

Lemma spread_copies : fresh_copy read_vec spread.
Proof.
  intros h e xs He. unfold spread.
  rewrite (heap_bind_returns _ _ h h xs) by (unfold numbers; rewrite He; reflexivity).
  destruct (alloc_spec (Numbers xs) h) as (l & -> & Hnew & Hsub & Hl).
  exists l, (<[l := Numbers xs]> h). split; [reflexivity|]. split; [exact Hsub|].
  unfold read_vec. rewrite Hl. reflexivity.
Qed.

(** copying the elements of an array one after the other *)
Lemma heap_mapM_copies {A V} (read : heap -> A -> option V) (op : A -> Heap A) :
  (forall h h' x v, h ⊆ h' -> read h x = Some v -> read h' x = Some v) ->
  fresh_copy read op ->
  fresh_copy (fun h l => mapM (read h) l) (heap_mapM op).
Proof.
  intros Hmono Hop h l. revert h. induction l as [|x l IH]; intros h vs Hread.
  - apply mapM_Some in Hread. inversion Hread; subst.
    exists [], h. split; [reflexivity|]. split; [reflexivity|]. reflexivity.
  - apply mapM_Some in Hread. inversion Hread as [|? v ? vs' Hx Hl]; subst.
    destruct (Hop h x v Hx) as (x' & h1 & Hrun1 & Hsub1 & Hread1).
    assert (Hl1 : mapM (read h1) l = Some vs').
    { apply mapM_Some. eapply Forall2_impl; [exact Hl|]. intros a b. apply Hmono, Hsub1. }
    destruct (IH h1 vs' Hl1) as (l' & h2 & Hrun2 & Hsub2 & Hread2).
    exists (x' :: l'), h2. split; [|split].
    + cbn [heap_mapM]. rewrite (heap_bind_returns _ _ _ _ _ Hrun1).
      rewrite (heap_bind_returns _ _ _ _ _ Hrun2). reflexivity.
    + etransitivity; eassumption.
    + apply mapM_Some. constructor.
      * eapply Hmono; [|exact Hread1]. apply difference_mono_l. exact Hsub2.
      * apply mapM_Some in Hread2. eapply Forall2_impl; [exact Hread2|].
        intros a b. apply Hmono, difference_mono_r. exact Hsub1.
Qed.

Lemma difference_mono (h ha hb hc : heap) : h ⊆ ha -> hb ⊆ hc -> hb ∖ ha ⊆ hc ∖ h.
Proof.
  intros H1 H2. etransitivity; [apply difference_mono_l; exact H2|].
  apply difference_mono_r. exact H1.
Qed.

Lemma copyRows_copies : fresh_copy read_mat copyRows.
Proof.
  intros h m M Hm. unfold read_mat in Hm.
  destruct (h !! m) as [[|rs| |]|] eqn:Hcell; try discriminate.
  unfold copyRows.
  rewrite (heap_bind_returns _ _ h h rs) by (unfold rows_of; rewrite Hcell; reflexivity).
  destruct (heap_mapM_copies read_vec spread
              (fun h h' x v Hs => read_vec_mono h h' Hs x v) spread_copies h rs M Hm)
    as (rs' & h1 & Hrun1 & Hsub1 & Hread1).
  rewrite (heap_bind_returns _ _ _ _ _ Hrun1).
  destruct (alloc_spec (Rows rs') h1) as (l & -> & Hnew & Hsub2 & Hl).
  exists l, (<[l := Rows rs']> h1). split; [reflexivity|].
  split; [etransitivity; eassumption|].
  unfold read_mat.
  assert (Hcell' : (<[l := Rows rs']> h1 ∖ h) !! l = Some (Rows rs')).
  { apply (lookup_weaken _ _ _ _ Hl). apply difference_mono_r. exact Hsub1. }
  rewrite Hcell'. eapply mapM_mono; [|exact Hread1].
  intros x y. apply read_vec_mono, difference_mono_l. exact Hsub2.
Qed.

Lemma copyHead_copies : fresh_copy read_head copyHead.
Proof.
  intros h r a Ha. unfold read_head in Ha.
  destruct (read_mat h (ref_Wq r)) as [q|] eqn:Hq; [|discriminate].
  destruct (read_mat h (ref_Wk r)) as [k|] eqn:Hk; [|discriminate].
  destruct (read_mat h (ref_Wv r)) as [v|] eqn:Hv; [|discriminate].
  cbn in Ha. injection Ha as <-.
  destruct (copyRows_copies h _ q Hq) as (q' & h1 & Hrun1 & Hsub1 & Hread1).
  destruct (copyRows_copies h1 _ k (read_mat_mono _ _ Hsub1 _ _ Hk))
    as (k' & h2 & Hrun2 & Hsub2 & Hread2).
  assert (Hsub02 : h ⊆ h2) by (etransitivity; eassumption).
  destruct (copyRows_copies h2 _ v (read_mat_mono _ _ Hsub02 _ _ Hv))
    as (v' & h3 & Hrun3 & Hsub3 & Hread3).
  exists {| ref_Wq := q'; ref_Wk := k'; ref_Wv := v' |}, h3.
  split; [|split].
  - unfold copyHead.
    rewrite (heap_bind_returns _ _ _ _ _ Hrun1), (heap_bind_returns _ _ _ _ _ Hrun2),
      (heap_bind_returns _ _ _ _ _ Hrun3). reflexivity.
  - etransitivity; eassumption.
  - unfold read_head. cbn [ref_Wq ref_Wk ref_Wv].
    rewrite (read_mat_mono _ _ (difference_mono h h h1 h3 ltac:(reflexivity)
                                  ltac:(etransitivity; eassumption)) _ _ Hread1).
    rewrite (read_mat_mono _ _ (difference_mono h h1 h2 h3 Hsub1 Hsub3) _ _ Hread2).
    rewrite (read_mat_mono _ _ (difference_mono h h2 h3 h3 Hsub02 ltac:(reflexivity)) _ _ Hread3).
    reflexivity.
Qed.

Lemma copyLayer_copies : fresh_copy read_layer copyLayer.
Proof.
  intros h r a Ha. unfold read_layer in Ha.
  destruct (read_heads h (ref_heads r)) as [hs|] eqn:Hh; [|discriminate].
  destruct (read_mat h (ref_W1 r)) as [w1|] eqn:H1; [|discriminate].
  destruct (read_vec h (ref_b1 r)) as [v1|] eqn:H2; [|discriminate].
  destruct (read_mat h (ref_W2 r)) as [w2|] eqn:H3; [|discriminate].
  destruct (read_vec h (ref_b2 r)) as [v2|] eqn:H4; [|discriminate].
  cbn in Ha. injection Ha as <-.
  unfold read_heads in Hh.
  destruct (h !! ref_heads r) as [[| |hrs|]|] eqn:Hcell; try discriminate.
  destruct (heap_mapM_copies read_head copyHead
              (fun h h' x v Hs => read_head_mono h h' Hs x v) copyHead_copies h hrs hs Hh)
    as (hrs' & ha & Hruna & Hsuba & Hreada).
  destruct (alloc_spec (HeadArray hrs') ha) as (hl & Hrunb & Hnewb & Hsubb & Hlb).
  set (hb := <[hl := HeadArray hrs']> ha) in *.
  assert (S0b : h ⊆ hb) by (etransitivity; eassumption).
  destruct (copyRows_copies hb _ w1 (read_mat_mono _ _ S0b _ _ H1))
    as (w1' & hc & Hrunc & Hsubc & Hreadc).
  assert (S0c : h ⊆ hc) by (etransitivity; eassumption).
  destruct (spread_copies hc _ v1 (read_vec_mono _ _ S0c _ _ H2))
    as (v1' & hd & Hrund & Hsubd & Hreadd).
  assert (S0d : h ⊆ hd) by (etransitivity; eassumption).
  destruct (copyRows_copies hd _ w2 (read_mat_mono _ _ S0d _ _ H3))
    as (w2' & he & Hrune & Hsube & Hreade).
  assert (S0e : h ⊆ he) by (etransitivity; eassumption).
  destruct (spread_copies he _ v2 (read_vec_mono _ _ S0e _ _ H4))
    as (v2' & hf & Hrunf & Hsubf & Hreadf).
  assert (Sef : he ⊆ hf) by assumption.
  assert (Sdf : hd ⊆ hf) by (etransitivity; eassumption).
  assert (Scf : hc ⊆ hf) by (etransitivity; eassumption).
  assert (Sbf : hb ⊆ hf) by (etransitivity; eassumption).
  assert (Saf : ha ⊆ hf) by (etransitivity; eassumption).
  exists {| ref_heads := hl; ref_W1 := w1'; ref_b1 := v1'; ref_W2 := w2'; ref_b2 := v2' |}, hf.
  split; [|split].
  - unfold copyLayer.
    rewrite (heap_bind_returns _ _ h h hrs) by (unfold heads_of; rewrite Hcell; reflexivity).
    rewrite (heap_bind_returns _ _ _ _ _ Hruna), (heap_bind_returns _ _ _ _ _ Hrunb),
      (heap_bind_returns _ _ _ _ _ Hrunc), (heap_bind_returns _ _ _ _ _ Hrund),
      (heap_bind_returns _ _ _ _ _ Hrune), (heap_bind_returns _ _ _ _ _ Hrunf).
    reflexivity.
  - etransitivity; eassumption.
  - unfold read_layer, read_heads. cbn [ref_heads ref_W1 ref_b1 ref_W2 ref_b2].
    assert (Hcell' : (hf ∖ h) !! hl = Some (HeadArray hrs')).
    { apply (lookup_weaken _ _ _ _ Hlb). apply difference_mono; assumption. }
    rewrite Hcell'.
    rewrite (mapM_mono (read_head (ha ∖ h)) (read_head (hf ∖ h)) hrs' hs
               (fun x y => read_head_mono _ _ (difference_mono_l h ha hf Saf) x y) Hreada).
    cbn.
    rewrite (read_mat_mono _ _ (difference_mono h hb hc hf S0b Scf) _ _ Hreadc).
    rewrite (read_vec_mono _ _ (difference_mono h hc hd hf S0c Sdf) _ _ Hreadd).
    rewrite (read_mat_mono _ _ (difference_mono h hd he hf S0d Sef) _ _ Hreade).
    rewrite (read_vec_mono _ _ (difference_mono h he hf hf S0e ltac:(reflexivity)) _ _ Hreadf).
    reflexivity.
Qed.

Lemma copyWeights_spec (h : heap) (r : WeightsRef) (W : Weights) :
  read_weights h r = Some W ->
  exists r' h1 h2 h3, copyWeights r h = (Return r', h3) /\ copied h r' W h1 h2 h3.
Proof.
  intros HW. unfold read_weights in HW.
  destruct (read_mat h (ref_embeddings r)) as [e|] eqn:He; [|discriminate].
  destruct (read_layers h (ref_layers r)) as [ls|] eqn:Hls; [|discriminate].
  destruct (read_mat h (ref_output_W r)) as [ow|] eqn:How; [|discriminate].
  destruct (read_vec h (ref_output_b r)) as [ob|] eqn:Hob; [|discriminate].
  cbn in HW. injection HW as <-.
  unfold read_layers in Hls.
  destruct (h !! ref_layers r) as [[| | |lrs]|] eqn:Hcell; try discriminate.
  destruct (copyRows_copies h _ e He) as (e' & h1 & Hrun1 & Hsub1 & Hread1).
  assert (Hcell1 : h1 !! ref_layers r = Some (LayerArray lrs))
    by (eapply lookup_weaken; eassumption).
  assert (Hls1 : mapM (read_layer h1) lrs = Some ls).
  { eapply mapM_mono; [|exact Hls]. intros x y. apply read_layer_mono. exact Hsub1. }
  destruct (heap_mapM_copies read_layer copyLayer
              (fun h h' x v Hs => read_layer_mono h h' Hs x v) copyLayer_copies h1 lrs ls Hls1)
    as (lrs' & ha & Hruna & Hsuba & Hreada).
  destruct (alloc_spec (LayerArray lrs') ha) as (ll & Hrunb & Hnewb & Hsubb & Hlb).
  set (h2 := <[ll := LayerArray lrs']> ha) in *.
  assert (S12 : h1 ⊆ h2) by (etransitivity; eassumption).
  assert (S02 : h ⊆ h2) by (etransitivity; eassumption).
  destruct (copyRows_copies h2 _ ow (read_mat_mono _ _ S02 _ _ How))
    as (ow' & hc & Hrunc & Hsubc & Hreadc).
  assert (S0c : h ⊆ hc) by (etransitivity; eassumption).
  destruct (spread_copies hc _ ob (read_vec_mono _ _ S0c _ _ Hob))
    as (ob' & h3 & Hrund & Hsubd & Hreadd).
  exists {| ref_embeddings := e'; ref_layers := ll; ref_output_W := ow'; ref_output_b := ob' |},
         h1, h2, h3.
  split.
  - unfold copyWeights.
    rewrite (heap_bind_returns _ _ _ _ _ Hrun1).
    rewrite (heap_bind_returns _ _ h1 h1 lrs) by (unfold layers_of; rewrite Hcell1; reflexivity).
    rewrite (heap_bind_returns _ _ _ _ _ Hruna), (heap_bind_returns _ _ _ _ _ Hrunb),
      (heap_bind_returns _ _ _ _ _ Hrunc), (heap_bind_returns _ _ _ _ _ Hrund).
    reflexivity.
  - unfold copied. cbn [ref_embeddings ref_layers ref_output_W ref_output_b embeddings layers
                          output output_W output_b].
    split; [assumption|]. split; [assumption|].
    split; [etransitivity; eassumption|].
    split; [assumption|]. split; [|split].
    + unfold read_layers.
      assert (Hcell' : (h2 ∖ h1) !! ll = Some (LayerArray lrs')).
      { apply (lookup_weaken _ _ _ _ Hlb). apply difference_mono_r. exact Hsuba. }
      rewrite Hcell'. eapply mapM_mono; [|exact Hreada].
      intros x y. apply read_layer_mono, difference_mono_l. exact Hsubb.
    + eapply read_mat_mono; [|exact Hreadc]. apply difference_mono_l. exact Hsubd.
    + eapply read_vec_mono; [|exact Hreadd]. apply difference_mono_r. exact Hsubc.
Qed.

(** *** The heap: updating in place *)

Lemma heap_fold_preserves {A St} (P : heap -> Prop) (body : A -> St -> Heap St) :
  (forall a s H res H', P H -> body a s H = (res, H') -> P H') ->
  forall l s H res H', P H -> heap_fold body l s H = (res, H') -> P H'.
Proof.
  intros Hbody l. induction l as [|a l IH]; intros s H res H' HP Hrun.
  - cbn in Hrun. injection Hrun as _ <-. exact HP.
  - cbn [heap_fold] in Hrun. rewrite heap_bind_run in Hrun.
    destruct (body a s H) as [[s1|] H1] eqn:Hb.
    + eapply IH; [|exact Hrun]. eapply Hbody; eassumption.
    + injection Hrun as _ <-. eapply Hbody; eassumption.
Qed.

Lemma heap_bind_preserves {A B} (P : heap -> Prop) (m : Heap A) (k : A -> Heap B)
    (H : heap) (res : js B) (H' : heap) :
  (forall r1 H1, m H = (r1, H1) -> P H1) ->
  (forall a H1 r2 H2, m H = (Return a, H1) -> k a H1 = (r2, H2) -> P H2) ->
  (m ≫= k) H = (res, H') -> P H'.
Proof.
  intros Hm Hk Hrun. rewrite heap_bind_run in Hrun.
  destruct (m H) as [[a|] H1] eqn:Hmh.
  - eapply Hk; [reflexivity | exact Hrun].
  - injection Hrun as _ <-. eapply Hm. reflexivity.
Qed.

Section InPlace.
Context {host : Host}.
Variables (h h1 h2 h3 : heap) (nw : WeightsRef) (W : Weights).
Hypothesis Hcopied : copied h nw W h1 h2 h3.

Lemma updated_start : updated h h1 h2 h3 h3.
Proof. intros l. left. reflexivity. Qed.

Lemma updated_rows (H : heap) (m : loc) (rs : list loc) :
  updated h h1 h2 h3 H -> H !! m = Some (Rows rs) -> h3 !! m = Some (Rows rs).
Proof.
  intros HJ Hm. destruct (HJ m) as [Heq | (_ & ys & Hys)]; [congruence|].
  rewrite Hys in Hm. discriminate.
Qed.

Lemma add_at_ref_updated (H H' : heap) (l : loc) (i : nat) (x : float) (res : js unit) :
  updated h h1 h2 h3 H -> writable h h1 h2 h3 l ->
  add_at_ref l i x H = (res, H') -> updated h h1 h2 h3 H'.
Proof.
  intros HJ Hw Hrun. unfold add_at_ref in Hrun.
  destruct (read_vec H l) as [xs|]; injection Hrun as _ <-; [|exact HJ].
  intros l'. destruct (decide (l' = l)) as [->|Hne].
  - right. split; [exact Hw|]. rewrite lookup_insert_eq. eauto.
  - rewrite lookup_insert_ne by congruence. apply HJ.
Qed.

Lemma mapM_read_vec_lookup (G : heap) (rs : list loc) (M : mat) (d : nat) (r : loc) :
  mapM (read_vec G) rs = Some M -> rs !! d = Some r ->
  exists xs, G !! r = Some (Numbers xs).
Proof.
  intros HM Hd. apply mapM_Some in HM.
  destruct (Forall2_lookup_l _ _ _ _ _ HM Hd) as (xs & _ & Hxs).
  unfold read_vec in Hxs. destruct (G !! r) as [[xs'| | |]|]; try discriminate. eauto.
Qed.

(** the rows of the copied embeddings and of the copied output matrix, and
    the copied bias, are writable *)
Lemma embedding_row_writable (H : heap) (rs : list loc) (t : nat) (r : loc) :
  updated h h1 h2 h3 H ->
  H !! ref_embeddings nw = Some (Rows rs) -> rs !! t = Some r ->
  writable h h1 h2 h3 r.
Proof.
  intros HJ Hrs Ht. apply (updated_rows _ _ _ HJ) in Hrs.
  destruct Hcopied as (S01 & S12 & S23 & He & _).
  unfold read_mat in He.
  destruct ((h1 ∖ h) !! ref_embeddings nw) as [[|rs'| |]|] eqn:Hcell; try discriminate.
  assert (Hcell3 : h3 !! ref_embeddings nw = Some (Rows rs')).
  { apply lookup_difference_Some in Hcell as [Hcell _].
    eapply lookup_weaken; [exact Hcell|]. etransitivity; eassumption. }
  rewrite Hrs in Hcell3. injection Hcell3 as <-.
  destruct (mapM_read_vec_lookup _ _ _ _ _ He Ht) as (xs & Hxs).
  apply lookup_difference_Some in Hxs as [Hxs Hnone].
  split.
  - exists xs. eapply lookup_weaken; [exact Hxs|]. etransitivity; eassumption.
  - left. split; [exact Hnone | eauto].
Qed.

Lemma output_row_writable (H : heap) (rs : list loc) (d : nat) (r : loc) :
  updated h h1 h2 h3 H ->
  H !! ref_output_W nw = Some (Rows rs) -> rs !! d = Some r ->
  writable h h1 h2 h3 r.
Proof.
  intros HJ Hrs Hd. apply (updated_rows _ _ _ HJ) in Hrs.
  destruct Hcopied as (S01 & S12 & S23 & _ & _ & How & _).
  unfold read_mat in How.
  destruct ((h3 ∖ h2) !! ref_output_W nw) as [[|rs'| |]|] eqn:Hcell; try discriminate.
  assert (Hcell3 : h3 !! ref_output_W nw = Some (Rows rs')).
  { apply lookup_difference_Some in Hcell as [Hcell _]. exact Hcell. }
  rewrite Hrs in Hcell3. injection Hcell3 as <-.
  destruct (mapM_read_vec_lookup _ _ _ _ _ How Hd) as (xs & Hxs).
  apply lookup_difference_Some in Hxs as [Hxs Hnone].
  split; [eauto | right; exact Hnone].
Qed.

Lemma output_bias_writable : writable h h1 h2 h3 (ref_output_b nw).
Proof.
  destruct Hcopied as (_ & _ & _ & _ & _ & _ & Hob).
  unfold read_vec in Hob.
  destruct ((h3 ∖ h2) !! ref_output_b nw) as [[xs| | |]|] eqn:Hcell; try discriminate.
  apply lookup_difference_Some in Hcell as [Hcell Hnone].
  split; [eauto | right; exact Hnone].
Qed.

Lemma rows_of_run (m : loc) (H : heap) (res : js (list loc)) (H1 : heap) :
  rows_of m H = (res, H1) ->
  H1 = H /\ forall rs, res = Return rs -> H !! m = Some (Rows rs).
Proof.
  unfold rows_of. destruct (H !! m) as [[|rs'| |]|]; intros [= <- <-];
    (split; [reflexivity|]); intros rs; try discriminate.
  intros [= ->]. reflexivity.
Qed.

Lemma lift_run {A} (m : js A) (H : heap) (res : js A) (H1 : heap) :
  lift m H = (res, H1) -> H1 = H /\ res = m.
Proof. unfold lift. intros [= <- <-]. auto. Qed.

Lemma output_rows_loop_updated (n v : nat) (f : nat -> float) (G G' : heap) (res : js unit) :
  updated h h1 h2 h3 G ->
  heap_for n
    (fun d _ =>
       rs ← rows_of (ref_output_W nw);
       r ← lift (defined (rs !! d));
       add_at_ref r v (f d))
    tt G = (res, G') ->
  updated h h1 h2 h3 G'.
Proof.
  intros HG. unfold heap_for.
  apply (heap_fold_preserves (updated h h1 h2 h3)); [|exact HG].
  intros d [] G0 res0 G0' HG0 Hrun.
  eapply heap_bind_preserves; [| |exact Hrun].
  - intros r1 G1 Hr. apply rows_of_run in Hr as [-> _]. exact HG0.
  - intros rs G1 r2 G2 Hr Hrest. apply rows_of_run in Hr as [-> Hrs].
    specialize (Hrs rs eq_refl).
    eapply heap_bind_preserves; [| |exact Hrest].
    + intros r1 G3 Hl. apply lift_run in Hl as [-> _]. exact HG0.
    + intros r G3 r3 G4 Hl Hw. apply lift_run in Hl as [-> Hdef].
      destruct (rs !! d) as [r'|] eqn:Hd; [|discriminate]. injection Hdef as ->.
      eapply add_at_ref_updated; [exact HG0| |exact Hw].
      eapply output_row_writable; eassumption.
Qed.

Lemma updateOutputRef_updated (probs : vec) (lastHidden : option vec) (tgt : nat)
    (lr : float) (G G' : heap) (res : js unit) :
  updated h h1 h2 h3 G ->
  updateOutputRef probs lastHidden tgt lr nw G = (res, G') ->
  updated h h1 h2 h3 G'.
Proof.
  intros HG. unfold updateOutputRef, heap_for.
  apply (heap_fold_preserves (updated h h1 h2 h3)); [|exact HG].
  intros v [] G0 res0 G0' HG0 Hrun.
  eapply heap_bind_preserves; [| |exact Hrun].
  - intros r1 G1 Hl. apply lift_run in Hl as [-> _]. exact HG0.
  - intros hd G1 r2 G2 Hl Hrest. apply lift_run in Hl as [-> _].
    eapply heap_bind_preserves; [| |exact Hrest].
    + intros r1 G3 Hloop.
      exact (output_rows_loop_updated (length hd) v
               (fun d => lr * ((if (v =? tgt)%nat then 1 else 0) - get probs v) * get hd d)%float
               G0 G3 r1 HG0 Hloop).
    + intros [] G3 r3 G4 Hloop Hw.
      refine (add_at_ref_updated G3 G4 (ref_output_b nw) _ _ r3 _ output_bias_writable Hw).
      exact (output_rows_loop_updated (length hd) v
               (fun d => lr * ((if (v =? tgt)%nat then 1 else 0) - get probs v) * get hd d)%float
               G0 G3 (Return tt) HG0 Hloop).
Qed.

Lemma numbers_run (l : loc) (G : heap) (res : js (list float)) (G1 : heap) :
  numbers l G = (res, G1) -> G1 = G.
Proof. unfold numbers. intros [= _ <-]. reflexivity. Qed.

Lemma updateEmbeddingsRef_updated (toks : list nat) (lr : float) (k : nat)
    (G G' : heap) (res : js nat) :
  updated h h1 h2 h3 G ->
  updateEmbeddingsRef toks lr nw k G = (res, G') ->
  updated h h1 h2 h3 G'.
Proof.
  intros HG. unfold updateEmbeddingsRef.
  apply (heap_fold_preserves (updated h h1 h2 h3)); [|exact HG].
  intros t k0 G0 res0 G0' HG0 Hrun.
  eapply heap_bind_preserves; [| |exact Hrun].
  - intros r1 G1 Hr. apply rows_of_run in Hr as [-> _]. exact HG0.
  - intros rs G1 r2 G2 Hr Hrest. apply rows_of_run in Hr as [-> Hrs].
    specialize (Hrs rs eq_refl).
    eapply heap_bind_preserves; [| |exact Hrest].
    + intros r1 G3 Hl. apply lift_run in Hl as [-> _]. exact HG0.
    + intros r G3 r3 G4 Hl Hrest2. apply lift_run in Hl as [-> Hdef].
      destruct (rs !! t) as [r'|] eqn:Ht; [|discriminate]. injection Hdef as ->.
      assert (Hw : writable h h1 h2 h3 r') by (eapply embedding_row_writable; eassumption).
      eapply heap_bind_preserves; [| |exact Hrest2].
      * intros r1 G5 Hn. apply numbers_run in Hn as ->. exact HG0.
      * intros xs G5 r4 G6 Hn. apply numbers_run in Hn as ->.
        unfold heap_for. apply (heap_fold_preserves (updated h h1 h2 h3)); [|exact HG0].
        intros d k1 G7 res7 G8 HG7 Hrun7.
        eapply heap_bind_preserves; [| |exact Hrun7].
        -- intros r1 G9 Ha. eapply add_at_ref_updated; eassumption.
        -- intros [] G9 r5 G10 Ha Hret. injection Hret as _ <-.
           eapply add_at_ref_updated; eassumption.
Qed.
End InPlace.

(** *** The heap: trainStep *)

Lemma read_vec_same_shape (G G' : heap) (l : loc) (xs : vec) :
  (forall l, G' !! l = G !! l \/
             exists xs ys, G !! l = Some (Numbers xs) /\ G' !! l = Some (Numbers ys)) ->
  read_vec G l = Some xs -> is_Some (read_vec G' l).
Proof.
  intros HR. unfold read_vec. destruct (HR l) as [-> | (xs' & ys & _ & ->)]; eauto.
Qed.

Lemma read_mat_same_shape (G G' : heap) (m : loc) (M : mat) :
  (forall l, G' !! l = G !! l \/
             exists xs ys, G !! l = Some (Numbers xs) /\ G' !! l = Some (Numbers ys)) ->
  read_mat G m = Some M -> is_Some (read_mat G' m).
Proof.
  intros HR. unfold read_mat.
  destruct (G !! m) as [[|rs| |]|] eqn:Hm; try discriminate. intros HM.
  destruct (HR m) as [-> | (xs' & ys & Hx & _)]; [|congruence].
  rewrite Hm. apply mapM_is_Some. apply mapM_Some in HM.
  apply Forall_forall. intros r Hr.
  apply list_elem_of_lookup in Hr as [i Hi].
  destruct (Forall2_lookup_l _ _ _ _ _ HM Hi) as (xs & _ & Hxs).
  exact (read_vec_same_shape G G' r xs HR Hxs).
Qed.

Section Frame.
Context {host : Host}.
Variables (h h1 h2 h3 : heap) (nw : WeightsRef) (W : Weights).
Hypothesis Hcopied : copied h nw W h1 h2 h3.

Lemma updated_keeps_old (G : heap) : updated h h1 h2 h3 G -> h ⊆ G.
Proof.
  intros HG. destruct Hcopied as (S01 & S12 & S23 & _).
  apply map_subseteq_spec. intros l c Hl.
  assert (H3l : h3 !! l = Some c).
  { eapply lookup_weaken; [exact Hl|]. etransitivity; [|exact S23]. etransitivity; eassumption. }
  destruct (HG l) as [-> | ((_ & [[Hnone _] | Hnone]) & _)]; [exact H3l | congruence |].
  assert (h2 !! l = Some c) by (eapply lookup_weaken; [exact Hl | etransitivity; eassumption]).
  congruence.
Qed.

Lemma updated_keeps_layers (G : heap) :
  updated h h1 h2 h3 G -> read_layers (G ∖ h) (ref_layers nw) = Some (layers W).
Proof.
  intros HG. destruct Hcopied as (S01 & S12 & S23 & _ & Hls & _).
  eapply read_layers_mono; [|exact Hls].
  apply map_subseteq_spec. intros l c Hl.
  apply lookup_difference_Some in Hl as [H2l H1l].
  apply lookup_difference_Some. split.
  - assert (H3l : h3 !! l = Some c) by (eapply lookup_weaken; eassumption).
    destruct (HG l) as [-> | ((_ & [[_ [c' Hsome]] | Hnone]) & _)]; [exact H3l | congruence | congruence].
  - destruct (h !! l) as [c'|] eqn:Hc; [|reflexivity].
    rewrite (lookup_weaken _ _ _ _ Hc S01) in H1l. discriminate.
Qed.

Lemma updated_same_shape (G : heap) :
  updated h h1 h2 h3 G ->
  forall l, (G ∖ h) !! l = (h3 ∖ h) !! l \/
            exists xs ys, (h3 ∖ h) !! l = Some (Numbers xs) /\ (G ∖ h) !! l = Some (Numbers ys).
Proof.
  intros HG l. destruct (h !! l) as [c|] eqn:Hc.
  - left. rewrite !(proj2 (lookup_difference_None _ _ _)); [reflexivity | right; eauto | right; eauto].
  - destruct (HG l) as [Heq | (((xs & Hxs) & _) & ys & Hys)].
    + left. destruct (h3 !! l) as [c3|] eqn:H3l.
      * rewrite (proj2 (lookup_difference_Some G h l c3)) by (split; congruence).
        symmetry. apply lookup_difference_Some. auto.
      * rewrite !(proj2 (lookup_difference_None _ _ _)); [reflexivity | left; assumption | left; congruence].
    + right. exists xs, ys. split; apply lookup_difference_Some; auto.
Qed.

(** after the updates [newWeights] reads, in the cells the call created
    alone, as a tree with the layers of the input *)
Lemma updated_reads (G : heap) :
  updated h h1 h2 h3 G ->
  exists W', read_weights (G ∖ h) nw = Some W' /\ layers W' = layers W.
Proof.
  intros HG. pose proof (updated_keeps_layers G HG) as Hls.
  pose proof (updated_same_shape G HG) as HR.
  destruct Hcopied as (S01 & S12 & S23 & He & _ & How & Hob).
  assert (S13 : h1 ⊆ h3) by (etransitivity; eassumption).
  assert (S02 : h ⊆ h2) by (etransitivity; eassumption).
  destruct (read_mat_same_shape (h3 ∖ h) (G ∖ h) _ _ HR
              (read_mat_mono _ _ (difference_mono_l h h1 h3 S13) _ _ He)) as [E' HE'].
  destruct (read_mat_same_shape (h3 ∖ h) (G ∖ h) _ _ HR
              (read_mat_mono _ _ (difference_mono_r h h2 h3 S02) _ _ How)) as [O' HO'].
  destruct (read_vec_same_shape (h3 ∖ h) (G ∖ h) _ _ HR
              (read_vec_mono _ _ (difference_mono_r h h2 h3 S02) _ _ Hob)) as [b' Hb'].
  exists {| embeddings := E'; layers := layers W;
            output := {| output_W := O'; output_b := b' |} |}.
  split; [|reflexivity].
  unfold read_weights. rewrite HE', Hls, HO', Hb'. reflexivity.
Qed.
End Frame.

Section TrainStepFrame.
Context {host : Host}.

(** C5: whatever [trainStep] does, returning or throwing, every array that
    existed before the call holds what it held, so the input reads as
    before; when it returns, [newWeights] can be read in full from the
    arrays created during the call alone, so it shares no array with the
    input at any depth, and its layers (every Wq, Wk, Wv, W1, b1, W2, b2)
    read as those of the input. *)
Theorem trainStep_frame (toks : list nat) (tgt : nat) (w : WeightsRef) (lr : float)
    (k : nat) (h h' : heap) (W : Weights)
    (res : js (WeightsRef * option float * ForwardResult * nat)) :
  read_weights h w = Some W ->
  trainStepRef toks tgt w lr k h = (res, h') ->
  h ⊆ h' /\
  read_weights h' w = Some W /\
  forall nw l r k', res = Return (nw, l, r, k') ->
    exists W', read_weights (h' ∖ h) nw = Some W' /\
               read_weights h' nw = Some W' /\
               layers W' = layers W.
Proof.
  intros HW Hrun.
  assert (Hgoal : h ⊆ h' /\
    forall nw l r k', res = Return (nw, l, r, k') ->
      exists W', read_weights (h' ∖ h) nw = Some W' /\ layers W' = layers W).
  { unfold trainStepRef in Hrun.
    rewrite (heap_bind_returns _ _ h h W) in Hrun by (rewrite HW; reflexivity).
    rewrite heap_bind_run in Hrun. unfold lift at 1 in Hrun.
    destruct (forward toks W (Some tgt)) as [r|];
      [|injection Hrun as <- <-; split; [reflexivity | discriminate]].
    destruct (copyWeights_spec h w W HW) as (nw & h1 & h2 & h3 & Hcopy & Hcopied).
    rewrite (heap_bind_returns _ _ _ _ _ Hcopy) in Hrun.
    pose proof (updated_start h h1 h2 h3) as H3.
    rewrite heap_bind_run in Hrun. unfold lift at 1 in Hrun.
    destruct (defined (at_pred (layerOutputs r) (length (layerOutputs r)))) as [lo|].
    2:{ injection Hrun as <- <-. split; [|discriminate].
        exact (updated_keeps_old h h1 h2 h3 nw W Hcopied h3 H3). }
    rewrite heap_bind_run in Hrun.
    destruct (updateOutputRef _ _ _ _ _ h3) as [[[]|] G1] eqn:Hout.
    2:{ injection Hrun as <- <-. split; [|discriminate].
        apply (updated_keeps_old h h1 h2 h3 nw W Hcopied).
        eapply updateOutputRef_updated; eassumption. }
    assert (HG1 : updated h h1 h2 h3 G1) by (eapply updateOutputRef_updated; eassumption).
    rewrite heap_bind_run in Hrun.
    destruct (updateEmbeddingsRef toks lr nw k G1) as [[k1|] G2] eqn:Hemb.
    2:{ injection Hrun as <- <-. split; [|discriminate].
        apply (updated_keeps_old h h1 h2 h3 nw W Hcopied).
        eapply updateEmbeddingsRef_updated; eassumption. }
    assert (HG2 : updated h h1 h2 h3 G2) by (eapply updateEmbeddingsRef_updated; eassumption).
    injection Hrun as <- <-.
    split; [exact (updated_keeps_old h h1 h2 h3 nw W Hcopied G2 HG2)|].
    intros nw' l' r' k' [= <- <- <- <-].
    exact (updated_reads h h1 h2 h3 nw W Hcopied G2 HG2). }
  destruct Hgoal as [Hsub Hnew].
  split; [exact Hsub|]. split; [exact (read_weights_mono h h' Hsub w W HW)|].
  intros nw l r k' Hres. destruct (Hnew nw l r k' Hres) as (W' & HW' & Hlayers).
  exists W'. split; [exact HW'|]. split; [|exact Hlayers].
  eapply read_weights_mono; [|exact HW']. apply map_subseteq_difference_l. reflexivity.
Qed.
End TrainStepFrame.

Lemma trainStep_frame_witness :
  steep_heap ⊆ snd (trainStepRef (H := ref_host) [0; 1] 1 steep_ref 0.1%float 0 steep_heap) /\
  exists nw l r k' W',
    fst (trainStepRef (H := ref_host) [0; 1] 1 steep_ref 0.1%float 0 steep_heap)
    = Return (nw, l, r, k') /\
    read_weights
      (snd (trainStepRef (H := ref_host) [0; 1] 1 steep_ref 0.1%float 0 steep_heap) ∖ steep_heap)
      nw = Some W' /\
    layers W' = layers steep_weights.
Proof.
  destruct (trainStep_frame (host := ref_host) [0; 1] 1 steep_ref 0.1%float 0 steep_heap
              (snd (trainStepRef (H := ref_host) [0; 1] 1 steep_ref 0.1%float 0 steep_heap))
              steep_weights
              (fst (trainStepRef (H := ref_host) [0; 1] 1 steep_ref 0.1%float 0 steep_heap)))
    as (Hsub & _ & Hnew).
  - vm_compute. reflexivity.
  - apply surjective_pairing.
  - split; [exact Hsub|].
    eexists _, _, _, _.
    edestruct Hnew as (W' & HW' & _ & Hlayers); [vm_compute; reflexivity|].
    exists W'. split; [vm_compute; reflexivity|]. split; assumption.
Defined.

(** *** The heap against the values *)

Lemma heap_bind_Return {A B} (m : Heap A) (k : A -> Heap B) (h h' : heap) (b : B) :
  (m ≫= k) h = (Return b, h') ->
  exists a h1, m h = (Return a, h1) /\ k a h1 = (Return b, h').
Proof.
  rewrite heap_bind_run. destruct (m h) as [[a|] h1]; [eauto | discriminate].
Qed.

Lemma extends_only_bind {A B} (m : Heap A) (k : A -> Heap B) :
  extends_only m -> (forall a, extends_only (k a)) -> extends_only (m ≫= k).
Proof.
  intros Hm Hk h res h' Hrun. rewrite heap_bind_run in Hrun.
  destruct (m h) as [[a|] h1] eqn:Hmh.
  - etransitivity; [eapply Hm; exact Hmh | eapply Hk; exact Hrun].
  - injection Hrun as _ <-. eapply Hm. exact Hmh.
Qed.

Lemma extends_only_ret {A} (a : A) : extends_only (mret a : Heap A).
Proof. intros h res h' [= _ <-]. reflexivity. Qed.

Lemma extends_only_alloc (c : cell) : extends_only (alloc c).
Proof.
  intros h res h' Hrun. destruct (alloc_spec c h) as (l & Hl & _ & Hsub & _).
  rewrite Hl in Hrun. injection Hrun as _ <-. exact Hsub.
Qed.

Lemma extends_only_numbers (l : loc) : extends_only (numbers l).
Proof. intros h res h' [= _ <-]. reflexivity. Qed.

Lemma extends_only_rows_of (l : loc) : extends_only (rows_of l).
Proof. intros h res h' Hrun. apply rows_of_run in Hrun as [-> _]. reflexivity. Qed.

Lemma extends_only_heads_of (l : loc) : extends_only (heads_of l).
Proof.
  intros h res h'. unfold heads_of.
  destruct (h !! l) as [[| | |]|]; intros [= _ <-]; reflexivity.
Qed.

Lemma extends_only_layers_of (l : loc) : extends_only (layers_of l).
Proof.
  intros h res h'. unfold layers_of.
  destruct (h !! l) as [[| | |]|]; intros [= _ <-]; reflexivity.
Qed.

Lemma extends_only_mapM {A B} (f : A -> Heap B) (l : list A) :
  (forall a, extends_only (f a)) -> extends_only (heap_mapM f l).
Proof.
  intros Hf. induction l as [|a l IH]; cbn [heap_mapM].
  - apply extends_only_ret.
  - apply extends_only_bind; [apply Hf|]. intros b.
    apply extends_only_bind; [exact IH|]. intros bs. apply extends_only_ret.
Qed.

Lemma extends_only_spread (e : loc) : extends_only (spread e).
Proof.
  apply extends_only_bind; [apply extends_only_numbers|]. intros xs. apply extends_only_alloc.
Qed.

Lemma extends_only_copyRows (m : loc) : extends_only (copyRows m).
Proof.
  apply extends_only_bind; [apply extends_only_rows_of|]. intros rs.
  apply extends_only_bind; [apply extends_only_mapM, extends_only_spread|]. intros rs'.
  apply extends_only_alloc.
Qed.

Lemma extends_only_copyHead (r : HeadRef) : extends_only (copyHead r).
Proof.
  repeat (apply extends_only_bind; [apply extends_only_copyRows|]; intros ?).
  apply extends_only_ret.
Qed.

Lemma extends_only_copyLayer (r : LayerRef) : extends_only (copyLayer r).
Proof.
  apply extends_only_bind; [apply extends_only_heads_of|]. intros hs.
  apply extends_only_bind; [apply extends_only_mapM, extends_only_copyHead|]. intros hs'.
  apply extends_only_bind; [apply extends_only_alloc|]. intros hl.
  apply extends_only_bind; [apply extends_only_copyRows|]. intros w1.
  apply extends_only_bind; [apply extends_only_spread|]. intros v1.
  apply extends_only_bind; [apply extends_only_copyRows|]. intros w2.
  apply extends_only_bind; [apply extends_only_spread|]. intros v2.
  apply extends_only_ret.
Qed.

(** the arrays [spread] creates one after the other are distinct and new *)
Lemma spread_run (e : loc) (h h' : heap) (l : loc) :
  spread e h = (Return l, h') ->
  h !! l = None /\ exists xs, read_vec h e = Some xs /\ h' = <[l := Numbers xs]> h.
Proof.
  unfold spread. intros Hrun. apply heap_bind_Return in Hrun as (xs & h1 & Hn & Ha).
  unfold numbers in Hn. injection Hn as Hdef <-.
  destruct (read_vec h e) as [xs'|]; [|discriminate]. injection Hdef as ->.
  destruct (alloc_spec (Numbers xs) h) as (l' & Hl' & Hnone & _).
  rewrite Hl' in Ha. injection Ha as <- <-. eauto.
Qed.

Lemma spread_all_rows (rs rs' : list loc) (h h' : heap) :
  heap_mapM spread rs h = (Return rs', h') ->
  NoDup rs' /\
  Forall (fun r' => h !! r' = None /\ exists xs, h' !! r' = Some (Numbers xs)) rs'.
Proof.
  revert rs' h. induction rs as [|r rs IH]; intros rs' h Hrun.
  - cbn in Hrun. injection Hrun as <- <-. split; constructor.
  - cbn [heap_mapM] in Hrun.
    apply heap_bind_Return in Hrun as (l & h1 & Hs & Hrest).
    apply heap_bind_Return in Hrest as (ls & h2 & Hm & Hret).
    injection Hret as <- <-.
    destruct (spread_run _ _ _ _ Hs) as (Hnone & xs & Hxs & ->).
    assert (Hsub1 : h ⊆ <[l := Numbers xs]> h) by (apply insert_subseteq; exact Hnone).
    assert (Hsub2 : <[l := Numbers xs]> h ⊆ h2)
      by (eapply (extends_only_mapM spread rs extends_only_spread); exact Hm).
    destruct (IH _ _ Hm) as (Hnd & Hall).
    rewrite Forall_forall in Hall.
    split.
    + constructor; [|exact Hnd]. intros Hin.
      destruct (Hall l Hin) as (Hn0 & _). rewrite lookup_insert_eq in Hn0. discriminate.
    + constructor.
      * split; [exact Hnone|]. exists xs.
        eapply lookup_weaken; [|exact Hsub2]. apply lookup_insert_eq.
      * apply Forall_forall. intros r0 Hin. destruct (Hall r0 Hin) as (Hn0 & xs0 & Hh2).
        split; [|eauto].
        destruct (h !! r0) as [c|] eqn:Hc; [|reflexivity].
        rewrite (lookup_weaken _ _ _ _ Hc Hsub1) in Hn0. discriminate.
Qed.

Lemma copyRows_rows (m m' : loc) (h h' : heap) :
  copyRows m h = (Return m', h') ->
  exists rs', h' !! m' = Some (Rows rs') /\ h !! m' = None /\ NoDup rs' /\
    Forall (fun r' => h !! r' = None /\ exists xs, h' !! r' = Some (Numbers xs)) rs'.
Proof.
  unfold copyRows. intros Hrun.
  apply heap_bind_Return in Hrun as (rs & h0 & Hr & Hrest).
  apply rows_of_run in Hr as [-> _].
  apply heap_bind_Return in Hrest as (rs' & h1 & Hm & Ha).
  destruct (alloc_spec (Rows rs') h1) as (l & Hl & Hnone & Hsub & _).
  rewrite Hl in Ha. injection Ha as <- <-.
  assert (Hsub01 : h ⊆ h1)
    by (eapply (extends_only_mapM spread rs extends_only_spread); exact Hm).
  destruct (spread_all_rows _ _ _ _ Hm) as (Hnd & Hall).
  exists rs'. split; [apply lookup_insert_eq|]. split.
  - destruct (h !! l) as [c|] eqn:Hc; [|reflexivity].
    rewrite (lookup_weaken _ _ _ _ Hc Hsub01) in Hnone. discriminate.
  - split; [exact Hnd|]. eapply Forall_impl; [exact Hall|].
    intros r' (Hn & xs & Hx). split; [exact Hn|]. exists xs.
    eapply lookup_weaken; eassumption.
Qed.

Lemma mapM_read_vec_rows (G H : heap) (rs : list loc) (M : mat) :
  G ⊆ H -> mapM (read_vec G) rs = Some M ->
  Forall2 (fun r x => H !! r = Some (Numbers x)) rs M.
Proof.
  intros Hsub HM. apply mapM_Some in HM. eapply Forall2_impl; [exact HM|].
  intros r x Hr. unfold read_vec in Hr.
  destruct (G !! r) as [[xs| | |]|] eqn:Hc; try discriminate. injection Hr as <-.
  eapply lookup_weaken; eassumption.
Qed.

Lemma copyRows_contents (m m' : loc) (M : mat) (h h' : heap) :
  read_mat h m = Some M -> copyRows m h = (Return m', h') ->
  exists rs', h' !! m' = Some (Rows rs') /\ NoDup rs' /\
    Forall (fun r' => h !! r' = None) rs' /\
    Forall2 (fun r x => h' !! r = Some (Numbers x)) rs' M.
Proof.
  intros HM Hrun.
  destruct (copyRows_copies h m M HM) as (m0 & h0 & Hrun0 & Hsub & Hread).
  rewrite Hrun in Hrun0. injection Hrun0 as <- <-.
  destruct (copyRows_rows _ _ _ _ Hrun) as (rs' & Hc & _ & Hnd & Hall).
  exists rs'. split; [exact Hc|]. split; [exact Hnd|]. split.
  - eapply Forall_impl; [exact Hall|]. intros r' [Hn _]. exact Hn.
  - unfold read_mat in Hread.
    destruct ((h' ∖ h) !! m') as [[|rs0| |]|] eqn:Hc0; try discriminate.
    apply lookup_difference_Some in Hc0 as [Hc0 _].
    rewrite Hc in Hc0. injection Hc0 as <-.
    eapply mapM_read_vec_rows; [|exact Hread].
    apply map_subseteq_difference_l. reflexivity.
Qed.

(** after the copy, the embeddings and the output layer of [newWeights]
    are held by distinct arrays of numbers and stand for those of the input *)
Lemma copyWeights_rep (h h3 : heap) (r nw : WeightsRef) (W : Weights) :
  read_weights h r = Some W -> copyWeights r h = (Return nw, h3) ->
  exists rsE rsW,
    NoDup (rsE ++ rsW ++ [ref_output_b nw]) /\
    mutable_rep h3 nw rsE rsW (embeddings W) (output W).
Proof.
  intros HW Hrun. unfold read_weights in HW.
  destruct (read_mat h (ref_embeddings r)) as [E|] eqn:HE; [|discriminate].
  destruct (read_layers h (ref_layers r)) as [ls0|] eqn:Hls; [|discriminate].
  destruct (read_mat h (ref_output_W r)) as [OW|] eqn:HOW; [|discriminate].
  destruct (read_vec h (ref_output_b r)) as [OB|] eqn:HOB; [|discriminate].
  cbn in HW. injection HW as <-. cbn [embeddings output].
  unfold copyWeights in Hrun.
  apply heap_bind_Return in Hrun as (e & ha & Hce & Hrun).
  apply heap_bind_Return in Hrun as (ls & hb & Hlo & Hrun).
  apply heap_bind_Return in Hrun as (ls' & hc & Hcl & Hrun).
  apply heap_bind_Return in Hrun as (ll & hd & Hal & Hrun).
  apply heap_bind_Return in Hrun as (ow & he & Hco & Hrun).
  apply heap_bind_Return in Hrun as (ob & hf & Hsp & Hret).
  injection Hret as <- <-.
  cbn [ref_embeddings ref_output_W ref_output_b].
  pose proof (extends_only_copyRows _ _ _ _ Hce) as Sa.
  pose proof (extends_only_layers_of _ _ _ _ Hlo) as Sb.
  pose proof (extends_only_mapM copyLayer ls extends_only_copyLayer _ _ _ Hcl) as Sc.
  pose proof (extends_only_alloc _ _ _ _ Hal) as Sd.
  pose proof (extends_only_copyRows _ _ _ _ Hco) as Se.
  pose proof (extends_only_spread _ _ _ _ Hsp) as Sf.
  assert (Sad : ha ⊆ hd).
  { transitivity hb; [exact Sb|]. transitivity hc; [exact Sc | exact Sd]. }
  assert (Shd : h ⊆ hd) by (transitivity ha; assumption).
  assert (Sdf : hd ⊆ hf) by (transitivity he; assumption).
  assert (Saf : ha ⊆ hf) by (transitivity hd; assumption).
  destruct (copyRows_contents _ _ _ _ _ HE Hce) as (rsE & HcE & HndE & _ & HrE).
  destruct (copyRows_contents _ _ _ _ _ (read_mat_mono _ _ Shd _ _ HOW) Hco)
    as (rsW & HcW & HndW & HfrW & HrW).
  destruct (spread_run _ _ _ _ Hsp) as (Hobn & xs & Hxs & Hhf).
  rewrite Forall_forall in HfrW.
  exists rsE, rsW. split.
  - apply NoDup_app. split; [exact HndE|]. split.
    + intros x HxE Hin. apply list_elem_of_lookup in HxE as [i Hi].
      destruct (Forall2_lookup_l _ _ _ _ _ HrE Hi) as (xe & _ & Hxe).
      assert (Hd : hd !! x = Some (Numbers xe)) by (eapply lookup_weaken; eassumption).
      apply elem_of_app in Hin as [HxW | Hxo].
      * rewrite (HfrW x HxW) in Hd. discriminate.
      * apply list_elem_of_singleton in Hxo as ->.
        rewrite (lookup_weaken _ _ _ _ Hd Se) in Hobn. discriminate.
    + apply NoDup_app. split; [exact HndW|]. split; [|apply NoDup_singleton].
      intros x HxW Hxo. apply list_elem_of_singleton in Hxo as ->.
      apply list_elem_of_lookup in HxW as [i Hi].
      destruct (Forall2_lookup_l _ _ _ _ _ HrW Hi) as (xw & _ & Hxw). congruence.
  - unfold mutable_rep. cbn [ref_embeddings ref_output_W ref_output_b output_W output_b].
    split; [exact (lookup_weaken _ _ _ _ HcE Saf)|].
    split; [exact (lookup_weaken _ _ _ _ HcW Sf)|].
    split; [|split].
    + eapply Forall2_impl; [exact HrE|]. intros a b Hab. exact (lookup_weaken _ _ _ _ Hab Saf).
    + eapply Forall2_impl; [exact HrW|]. intros a b Hab. exact (lookup_weaken _ _ _ _ Hab Sf).
    + assert (Hv : read_vec he (ref_output_b r) = Some OB).
      { eapply read_vec_mono; [|exact HOB]. transitivity hd; assumption. }
      rewrite Hv in Hxs. injection Hxs as <-. rewrite Hhf. apply lookup_insert_eq.
Qed.

Lemma refines_bind {A A' B B'} (Q : heap -> A -> B -> Prop)
    (R : heap -> A' -> B' -> Prop) (m : Heap A) (k : A -> Heap A')
    (p : js B) (kp : B -> js B') (H : heap) :
  refines Q m H p ->
  (forall H' a b, Q H' a b -> refines R (k a) H' (kp b)) ->
  refines R (m ≫= k) H (p ≫= kp).
Proof.
  unfold refines. destruct p as [b|]; cbn.
  - intros (a & H' & Hm & HQ) Hk. specialize (Hk _ _ _ HQ).
    destruct (kp b) as [b'|].
    + destruct Hk as (a' & H'' & Hrun & HR). exists a', H''. split; [|exact HR].
      rewrite heap_bind_run, Hm. exact Hrun.
    + destruct Hk as (H'' & Hrun). exists H''. rewrite heap_bind_run, Hm. exact Hrun.
  - intros (H' & Hm) _. exists H'. rewrite heap_bind_run, Hm. reflexivity.
Qed.

Lemma refines_fold {X A B} (R : heap -> A -> B -> Prop)
    (body : X -> A -> Heap A) (bodyp : X -> B -> js B) (l : list X) :
  (forall x H a b, R H a b -> refines R (body x a) H (bodyp x b)) ->
  forall H a b, R H a b -> refines R (heap_fold body l a) H (js_fold bodyp l b).
Proof.
  intros Hbody. induction l as [|x l IH]; intros H a b HR; cbn [heap_fold js_fold].
  - exists a, H. split; [reflexivity | exact HR].
  - eapply refines_bind; [apply Hbody; exact HR|]. intros H' a' b' HR'. apply IH. exact HR'.
Qed.

Lemma refines_lift_bind {A A' B'} (R : heap -> A' -> B' -> Prop) (p : js A)
    (k : A -> Heap A') (kp : A -> js B') (H : heap) :
  (forall a, p = Return a -> refines R (k a) H (kp a)) ->
  refines R (lift p ≫= k) H (p ≫= kp).
Proof.
  intros Hk. destruct p as [a|].
  - exact (Hk a eq_refl).
  - exists H. reflexivity.
Qed.

Lemma refines_step {A A' B'} (R : heap -> A' -> B' -> Prop) (m : Heap A)
    (k : A -> Heap A') (p : js B') (H H' : heap) (a : A) :
  m H = (Return a, H') -> refines R (k a) H' p -> refines R (m ≫= k) H p.
Proof.
  intros Hm. unfold refines. rewrite heap_bind_run, Hm. auto.
Qed.

Lemma refines_run {A B} (Q : heap -> A -> B -> Prop) (I : heap -> Prop)
    (m : Heap A) (H : heap) (p : js B) :
  refines Q m H p -> (forall res H', m H = (res, H') -> I H') ->
  refines (fun H' a b => Q H' a b /\ I H') m H p.
Proof.
  unfold refines. destruct p as [b|]; [|auto].
  intros (a & H' & Hm & HQ) HI. exists a, H'. eauto.
Qed.

Lemma rows_write_other (H : heap) (rs : list loc) (M : mat) (l : loc) (c : cell) :
  l ∉ rs ->
  Forall2 (fun r x => H !! r = Some (Numbers x)) rs M ->
  Forall2 (fun r x => <[l := c]> H !! r = Some (Numbers x)) rs M.
Proof.
  intros Hl HM. apply Forall2_same_length_lookup in HM as [Hlen HM].
  apply Forall2_same_length_lookup. split; [exact Hlen|].
  intros i r x Hr Hx. rewrite lookup_insert_ne; [eauto|].
  intros ->. apply Hl. eapply list_elem_of_lookup_2. exact Hr.
Qed.

Lemma rows_write_at (H : heap) (rs : list loc) (M : mat) (d : nat) (l : loc) (y : vec) :
  NoDup rs -> rs !! d = Some l ->
  Forall2 (fun r x => H !! r = Some (Numbers x)) rs M ->
  Forall2 (fun r x => <[l := Numbers y]> H !! r = Some (Numbers x)) rs (<[d := y]> M).
Proof.
  intros Hnd Hd HM. apply Forall2_same_length_lookup in HM as [Hlen HM].
  apply Forall2_same_length_lookup. split; [rewrite length_insert; exact Hlen|].
  intros i r x Hr Hx. apply list_lookup_insert_Some in Hx as [(<- & <- & _) | (Hne & Hx)].
  - assert (r = l) as -> by congruence. apply lookup_insert_eq.
  - rewrite lookup_insert_ne; [eauto|].
    intros ->. apply Hne. eapply NoDup_lookup; eassumption.
Qed.

Section Simulation.
Context {host : Host}.
Variables (nw : WeightsRef) (rsE rsW : list loc).
Hypothesis Hnd : NoDup (rsE ++ rsW ++ [ref_output_b nw]).

Lemma output_row_write (H : heap) (E : mat) (o : OutputLayer) (d : nat) (r : loc) (y : vec) :
  mutable_rep H nw rsE rsW E o -> rsW !! d = Some r ->
  mutable_rep (<[r := Numbers y]> H) nw rsE rsW E
    {| output_W := <[d := y]> (output_W o); output_b := output_b o |}.
Proof.
  intros (HcE & HcW & HrE & HrW & Hb) Hd.
  destruct (Forall2_lookup_l _ _ _ _ _ HrW Hd) as (x & _ & Hx).
  apply NoDup_app in Hnd as (_ & HEW & HndW). apply NoDup_app in HndW as (HndW & HWb & _).
  pose proof (list_elem_of_lookup_2 _ _ _ Hd) as Hin.
  unfold mutable_rep. cbn [output_W output_b].
  split; [rewrite lookup_insert_ne; [exact HcE | congruence]|].
  split; [rewrite lookup_insert_ne; [exact HcW | congruence]|].
  split; [|split].
  - apply rows_write_other; [|exact HrE]. intros HinE.
    apply (HEW r HinE). apply elem_of_app. left. exact Hin.
  - apply rows_write_at; assumption.
  - rewrite lookup_insert_ne; [exact Hb|]. intros ->.
    apply (HWb _ Hin). apply list_elem_of_singleton. reflexivity.
Qed.

Lemma output_bias_write (H : heap) (E : mat) (o : OutputLayer) (y : vec) :
  mutable_rep H nw rsE rsW E o ->
  mutable_rep (<[ref_output_b nw := Numbers y]> H) nw rsE rsW E
    {| output_W := output_W o; output_b := y |}.
Proof.
  intros (HcE & HcW & HrE & HrW & Hb).
  apply NoDup_app in Hnd as (_ & HEW & HndW). apply NoDup_app in HndW as (HndW & HWb & _).
  unfold mutable_rep. cbn [output_W output_b].
  split; [rewrite lookup_insert_ne; [exact HcE | congruence]|].
  split; [rewrite lookup_insert_ne; [exact HcW | congruence]|].
  split; [|split].
  - apply rows_write_other; [|exact HrE]. intros HinE.
    apply (HEW _ HinE). apply elem_of_app. right. apply list_elem_of_singleton. reflexivity.
  - apply rows_write_other; [|exact HrW]. intros HinW.
    apply (HWb _ HinW). apply list_elem_of_singleton. reflexivity.
  - apply lookup_insert_eq.
Qed.

Lemma embedding_row_write (H : heap) (E : mat) (o : OutputLayer) (t : nat) (r : loc) (y : vec) :
  mutable_rep H nw rsE rsW E o -> rsE !! t = Some r ->
  mutable_rep (<[r := Numbers y]> H) nw rsE rsW (<[t := y]> E) o.
Proof.
  intros (HcE & HcW & HrE & HrW & Hb) Ht.
  destruct (Forall2_lookup_l _ _ _ _ _ HrE Ht) as (x & _ & Hx).
  apply NoDup_app in Hnd as (HndE & HEW & _).
  pose proof (list_elem_of_lookup_2 _ _ _ Ht) as Hin.
  unfold mutable_rep.
  split; [rewrite lookup_insert_ne; [exact HcE | congruence]|].
  split; [rewrite lookup_insert_ne; [exact HcW | congruence]|].
  split; [|split].
  - apply rows_write_at; assumption.
  - apply rows_write_other; [|exact HrW]. intros HinW.
    apply (HEW r Hin). apply elem_of_app. left. exact HinW.
  - rewrite lookup_insert_ne; [exact Hb|]. intros ->.
    apply (HEW _ Hin). apply elem_of_app. right. apply list_elem_of_singleton. reflexivity.
Qed.

(** the loop over [d] of the output update *)
Lemma output_rows_refine (v : nat) (c : nat -> float) (b : vec) (E : mat) (l : list nat)
    (H : heap) (W : mat) :
  mutable_rep H nw rsE rsW E {| output_W := W; output_b := b |} ->
  refines
    (fun H' (_ : unit) W' => mutable_rep H' nw rsE rsW E {| output_W := W'; output_b := b |})
    (heap_fold
       (fun d _ =>
          rs ← rows_of (ref_output_W nw);
          r ← lift (defined (rs !! d));
          add_at_ref r v (c d)) l tt)
    H
    (js_fold
       (fun d W => r ← defined (W !! d); Return (<[d := add_at r v (c d)]> W)) l W).
Proof.
  apply (refines_fold
           (fun H' (_ : unit) W' =>
              mutable_rep H' nw rsE rsW E {| output_W := W'; output_b := b |})).
  clear H W. intros d H [] W Hrep.
  pose proof Hrep as (HcE & HcW & HrE & HrW & Hb). cbn [output_W output_b] in HrW, Hb.
  unfold refines. rewrite !heap_bind_run. unfold rows_of. rewrite HcW.
  rewrite !heap_bind_run. unfold lift.
  destruct (W !! d) as [x|] eqn:Hx; cbn [defined mbind js_bind].
  - destruct (Forall2_lookup_r _ _ _ _ _ HrW Hx) as (r & Hr & Hrx).
    rewrite Hr. cbn [defined]. unfold add_at_ref, read_vec. rewrite Hrx.
    eexists tt, _. split; [reflexivity|].
    exact (output_row_write H E {| output_W := W; output_b := b |} d r _ Hrep Hr).
  - assert (Hr : rsW !! d = None).
    { apply lookup_ge_None. rewrite (Forall2_length _ _ _ HrW). apply lookup_ge_None. exact Hx. }
    rewrite Hr. cbn [defined]. eexists. reflexivity.
Qed.
Lemma updateOutput_refine (probs : vec) (lastHidden : option vec) (tgt : nat) (lr : float)
    (E : mat) (H : heap) (o : OutputLayer) :
  mutable_rep H nw rsE rsW E o ->
  refines (fun H' (_ : unit) o' => mutable_rep H' nw rsE rsW E o')
    (updateOutputRef probs lastHidden tgt lr nw) H
    (updateOutput probs lastHidden tgt lr o).
Proof.
  unfold updateOutputRef, updateOutput, heap_for, js_for.
  apply (refines_fold (fun H' (_ : unit) o' => mutable_rep H' nw rsE rsW E o')).
  clear H o. intros v H [] [W b] Hrep. cbn zeta. cbn [output_W output_b].
  apply refines_lift_bind. intros hd _.
  eapply refines_bind; [apply output_rows_refine; exact Hrep|].
  cbn beta. intros H' [] W' Hrep'.
  pose proof Hrep' as (_ & _ & _ & _ & Hb). cbn [output_b] in Hb.
  unfold refines, add_at_ref, read_vec. rewrite Hb.
  eexists tt, _. split; [reflexivity|].
  exact (output_bias_write H' E {| output_W := W'; output_b := b |} _ Hrep').
Qed.

(** the loop over [d] of the embedding update, on the row [r] of token [t] *)
Lemma embedding_row_refine (lr : float) (t : nat) (r : loc) (E : mat) (o : OutputLayer)
    (l : list nat) :
  rsE !! t = Some r -> (t < length E)%nat ->
  forall (H : heap) (xs : vec) (k : nat),
  mutable_rep H nw rsE rsW (<[t := xs]> E) o ->
  exists H',
    heap_fold
      (fun d k =>
         let adjustment := (lr * (Math_random k - 0.5) * 0.1)%float in
         add_at_ref r d adjustment;;
         mret (S k)) l k H
    = (Return (snd (fold_left
                      (fun s d =>
                         (fun d '(r, k) =>
                            let adjustment := (lr * (Math_random k - 0.5) * 0.1)%float in
                            (add_at r d adjustment, S k)) d s) l (xs, k))), H') /\
    mutable_rep H' nw rsE rsW
      (<[t := fst (fold_left
                     (fun s d =>
                        (fun d '(r, k) =>
                           let adjustment := (lr * (Math_random k - 0.5) * 0.1)%float in
                           (add_at r d adjustment, S k)) d s) l (xs, k))]> E) o.
Proof.
  intros Hr Ht. induction l as [|d l IH]; intros H xs k Hrep; cbn [heap_fold fold_left].
  - exists H. split; [reflexivity | exact Hrep].
  - pose proof Hrep as (_ & _ & HrE & _).
    destruct (Forall2_lookup_l _ _ _ _ _ HrE Hr) as (x & Hx & Hcell).
    rewrite list_lookup_insert_eq in Hx by exact Ht. injection Hx as <-.
    rewrite !heap_bind_run. cbn zeta. unfold add_at_ref at 1, read_vec. rewrite Hcell.
    change ((mret (S k) : Heap nat) ?h) with (Return (S k), h).
    pose proof (embedding_row_write H _ o t r
                  (add_at xs d (lr * (Math_random k - 0.5) * 0.1)%float) Hrep Hr) as Hrep'.
    rewrite list_insert_insert_eq in Hrep'.
    exact (IH _ _ _ Hrep').
Qed.

Lemma updateEmbeddings_refine (toks : list nat) (lr : float) (o : OutputLayer)
    (H : heap) (E : mat) (k : nat) :
  mutable_rep H nw rsE rsW E o ->
  refines (fun H' k' '(E', k'') => k' = k'' /\ mutable_rep H' nw rsE rsW E' o)
    (updateEmbeddingsRef toks lr nw k) H
    (updateEmbeddings toks lr E k).
Proof.
  intros Hrep. unfold updateEmbeddingsRef, updateEmbeddings.
  apply (refines_fold
           (fun H' k' '(E', k'') => k' = k'' /\ mutable_rep H' nw rsE rsW E' o));
    [|split; [reflexivity | exact Hrep]].
  clear H E k Hrep. intros t H k [E k0] [<- Hrep].
  pose proof Hrep as (HcE & _ & HrE & _).
  unfold refines. rewrite !heap_bind_run. unfold rows_of. rewrite HcE.
  rewrite !heap_bind_run. unfold lift.
  destruct (E !! t) as [x|] eqn:Hx; cbn [defined mbind js_bind].
  - destruct (Forall2_lookup_r _ _ _ _ _ HrE Hx) as (r & Hr & Hrx).
    rewrite Hr. cbn [defined]. rewrite !heap_bind_run. unfold numbers, read_vec.
    rewrite Hrx. cbn [defined].
    assert (Ht : (t < length E)%nat) by (apply lookup_lt_is_Some; eauto).
    rewrite <- (list_insert_id _ _ _ Hx) in Hrep.
    destruct (embedding_row_refine lr t r E o (seq 0 (length x)) Hr Ht H x k Hrep)
      as (H' & Hrun & Hrep').
    unfold for_loop, heap_for.
    destruct (fold_left _ (seq 0 (length x)) (x, k)) as [r' k'] eqn:Hloop.
    cbn [fst snd] in Hrun, Hrep'.
    exists k', H'. split; [exact Hrun|]. split; [reflexivity | exact Hrep'].
  - assert (Hr : rsE !! t = None).
    { apply lookup_ge_None. rewrite (Forall2_length _ _ _ HrE). apply lookup_ge_None. exact Hx. }
    rewrite Hr. cbn [defined]. eexists. reflexivity.
Qed.

Lemma rep_reads (H : heap) (E : mat) (o : OutputLayer) (W' : Weights) :
  mutable_rep H nw rsE rsW E o -> read_weights H nw = Some W' ->
  embeddings W' = E /\ output W' = o.
Proof.
  intros (HcE & HcW & HrE & HrW & Hb) HW'. unfold read_weights in HW'.
  assert (HE : read_mat H (ref_embeddings nw) = Some E).
  { unfold read_mat. rewrite HcE. apply mapM_Some.
    eapply Forall2_impl; [exact HrE|]. intros r x Hrx. unfold read_vec. rewrite Hrx. reflexivity. }
  assert (HO : read_mat H (ref_output_W nw) = Some (output_W o)).
  { unfold read_mat. rewrite HcW. apply mapM_Some.
    eapply Forall2_impl; [exact HrW|]. intros r x Hrx. unfold read_vec. rewrite Hrx. reflexivity. }
  assert (HB : read_vec H (ref_output_b nw) = Some (output_b o)).
  { unfold read_vec. rewrite Hb. reflexivity. }
  rewrite HE in HW'. cbn [mbind option_bind] in HW'.
  destruct (read_layers H (ref_layers nw)) as [ls|]; [|discriminate].
  cbn [mbind option_bind] in HW'. rewrite HO in HW'. cbn [mbind option_bind] in HW'.
  rewrite HB in HW'. cbn [mbind option_bind] in HW'. injection HW' as <-.
  cbn [embeddings output]. destruct o; auto.
Qed.
End Simulation.

Section TrainStepRefines.
Context {host : Host}.

(** [trainStep] on the heap against [trainStep] on values: run on a
    reference that reads as [W], the first throws exactly when the second
    does, and when they return the loss, the forward result and the number
    of draws agree and the returned reference reads as [newWeights] *)
Theorem trainStep_refines (toks : list nat) (tgt : nat) (w : WeightsRef) (lr : float)
    (k : nat) (h : heap) (W : Weights) :
  read_weights h w = Some W ->
  refines
    (fun h' '(nw, l, r, k') '(tr, k'') =>
       k' = k'' /\ l = train_loss tr /\ r = result tr /\
       read_weights h' nw = Some (newWeights tr))
    (trainStepRef toks tgt w lr k) h
    (trainStep toks tgt W lr k).
Proof.
  intros HW. unfold trainStepRef, trainStep.
  eapply refines_step; [rewrite HW; reflexivity|].
  apply refines_lift_bind. intros r _.
  destruct (copyWeights_spec h w W HW) as (nw & h1 & h2 & h3 & Hcopy & Hcopied).
  destruct (copyWeights_rep h h3 w nw W HW Hcopy) as (rsE & rsW & Hnd & Hrep).
  eapply refines_step; [exact Hcopy|].
  apply refines_lift_bind. intros lo _. cbn zeta.
  eapply refines_bind.
  { apply (refines_run (fun H' (_ : unit) o' => mutable_rep H' nw rsE rsW (embeddings W) o')
                        (updated h h1 h2 h3)).
    - apply (updateOutput_refine nw rsE rsW Hnd). exact Hrep.
    - intros res G. apply (updateOutputRef_updated h h1 h2 h3 nw W Hcopied).
      apply updated_start. }
  cbn beta. intros G1 [] o' [Hrep1 HG1].
  eapply refines_bind.
  { apply (refines_run
             (fun H' k' '(E', k'') => k' = k'' /\ mutable_rep H' nw rsE rsW E' o')
             (updated h h1 h2 h3)).
    - apply (updateEmbeddings_refine nw rsE rsW Hnd). exact Hrep1.
    - intros res G. apply (updateEmbeddingsRef_updated h h1 h2 h3 nw W Hcopied). exact HG1. }
  cbn beta. intros G2 k' [E' k''] [[<- Hrep2] HG2].
  eexists _, G2. split; [reflexivity|]. cbn [train_loss result newWeights].
  split; [reflexivity|]. split; [reflexivity|]. split; [reflexivity|].
  destruct (updated_reads h h1 h2 h3 nw W Hcopied G2 HG2) as (W' & HW' & Hls).
  assert (HW'' : read_weights G2 nw = Some W').
  { eapply read_weights_mono; [|exact HW']. apply map_subseteq_difference_l. reflexivity. }
  destruct (rep_reads nw rsE rsW G2 E' o' W' Hrep2 HW'') as [HE Ho].
  rewrite HW''. f_equal. destruct W' as [E0 ls0 o0]. cbn in HE, Ho, Hls. congruence.
Qed.
End TrainStepRefines.

(** *** Doubles: NaN and the order *)

Section FloatFacts.
Local Open Scope float_scope.

Lemma add_nan_r (x : float) : x + nan = nan.
Proof.
  apply FloatAxioms.Prim2SF_inj. rewrite FloatAxioms.add_spec.
  change (Prim2SF nan) with S754_nan. destruct (Prim2SF x); reflexivity.
Qed.

Lemma add_nan_l (x : float) : nan + x = nan.
Proof.
  apply FloatAxioms.Prim2SF_inj. rewrite FloatAxioms.add_spec.
  change (Prim2SF nan) with S754_nan. destruct (Prim2SF x); reflexivity.
Qed.

Lemma mul_nan_r (x : float) : x * nan = nan.
Proof.
  apply FloatAxioms.Prim2SF_inj. rewrite FloatAxioms.mul_spec.
  change (Prim2SF nan) with S754_nan. destruct (Prim2SF x); reflexivity.
Qed.

Lemma mul_nan_l (x : float) : nan * x = nan.
Proof.
  apply FloatAxioms.Prim2SF_inj. rewrite FloatAxioms.mul_spec.
  change (Prim2SF nan) with S754_nan. destruct (Prim2SF x); reflexivity.
Qed.

Lemma sub_nan_r (x : float) : x - nan = nan.
Proof.
  apply FloatAxioms.Prim2SF_inj. rewrite FloatAxioms.sub_spec.
  change (Prim2SF nan) with S754_nan. destruct (Prim2SF x); reflexivity.
Qed.

Lemma sub_nan_l (x : float) : nan - x = nan.
Proof.
  apply FloatAxioms.Prim2SF_inj. rewrite FloatAxioms.sub_spec.
  change (Prim2SF nan) with S754_nan. destruct (Prim2SF x); reflexivity.
Qed.

Lemma div_nan_l (x : float) : nan / x = nan.
Proof.
  apply FloatAxioms.Prim2SF_inj. rewrite FloatAxioms.div_spec.
  change (Prim2SF nan) with S754_nan. destruct (Prim2SF x); reflexivity.
Qed.

Lemma mul_comm (x y : float) : x * y = y * x.
Proof.
  apply FloatAxioms.Prim2SF_inj. rewrite !FloatAxioms.mul_spec.
  destruct (Prim2SF x) as [sx|sx| |sx mx ex], (Prim2SF y) as [sy|sy| |sy my ey]; cbn;
    rewrite ?(xorb_comm sx sy); try reflexivity.
  rewrite (Pos.mul_comm mx my), (Z.add_comm ex ey). reflexivity.
Qed.

(** comparing the other way round gives the opposite answer *)
Lemma SFcompare_swap (x y : spec_float) :
  SFcompare y x = CompOpp <$> SFcompare x y.
Proof.
  destruct x as [sx|sx| |sx mx ex], y as [sy|sy| |sy my ey]; cbn;
    try reflexivity; try (destruct sx; reflexivity); try (destruct sy; reflexivity);
    try (destruct sx, sy; reflexivity).
  destruct sx, sy; cbn; try reflexivity.
  - rewrite (Z.compare_antisym ey ex). destruct (ey ?= ex)%Z; cbn; try reflexivity.
    rewrite (Pos.compare_cont_antisym mx my Eq). cbn.
    destruct (Pos.compare_cont Eq mx my); reflexivity.
  - rewrite (Z.compare_antisym ey ex). destruct (ey ?= ex)%Z; cbn; try reflexivity.
    rewrite (Pos.compare_cont_antisym mx my Eq). reflexivity.
Qed.

Lemma SFcompare_refl (x : spec_float) : x <> S754_nan -> SFcompare x x = Some Eq.
Proof.
  destruct x as [s|s| |s m e]; cbn; intros Hx; try congruence.
  - destruct s; reflexivity.
  - rewrite Z.compare_refl, Pos.compare_cont_refl. destruct s; reflexivity.
Qed.

Lemma ltb_compare (x y : float) :
  (x <? y) = true <-> SFcompare (Prim2SF x) (Prim2SF y) = Some Lt.
Proof.
  rewrite FloatAxioms.ltb_spec. unfold SFltb.
  destruct (SFcompare (Prim2SF x) (Prim2SF y)) as [[]|]; split; congruence.
Qed.

Lemma leb_compare (x y : float) :
  (x <=? y) = true <->
  SFcompare (Prim2SF x) (Prim2SF y) = Some Lt \/ SFcompare (Prim2SF x) (Prim2SF y) = Some Eq.
Proof.
  rewrite FloatAxioms.leb_spec. unfold SFleb.
  destruct (SFcompare (Prim2SF x) (Prim2SF y)) as [[]|]; split; intros; try tauto;
    try discriminate; destruct H; discriminate.
Qed.

Lemma is_nan_Prim2SF (x : float) : is_nan x = true <-> Prim2SF x = S754_nan.
Proof.
  unfold is_nan. rewrite FloatAxioms.eqb_spec. unfold SFeqb. split.
  - intros Hn. destruct (Prim2SF x) as [s|s| |s m e] eqn:Hx; try reflexivity;
      rewrite SFcompare_refl in Hn by discriminate; discriminate.
  - intros ->. reflexivity.
Qed.

Lemma compared_not_nan (x y : float) (c : comparison) :
  SFcompare (Prim2SF x) (Prim2SF y) = Some c -> is_nan x = false /\ is_nan y = false.
Proof.
  intros Hc. split.
  - destruct (is_nan x) eqn:Hn; [|reflexivity].
    apply is_nan_Prim2SF in Hn. rewrite Hn in Hc. discriminate.
  - destruct (is_nan y) eqn:Hn; [|reflexivity].
    apply is_nan_Prim2SF in Hn. rewrite Hn in Hc. destruct (Prim2SF x); discriminate.
Qed.

Lemma ltb_not_nan (x y : float) : (x <? y) = true -> is_nan x = false /\ is_nan y = false.
Proof. intros Hlt. apply ltb_compare in Hlt. eapply compared_not_nan. exact Hlt. Qed.

Lemma ltb_asym (x y : float) : (x <? y) = true -> (y <? x) = false.
Proof.
  intros Hlt. apply ltb_compare in Hlt.
  rewrite FloatAxioms.ltb_spec. unfold SFltb. rewrite SFcompare_swap, Hlt. reflexivity.
Qed.

Lemma leb_not_ltb (x y : float) : (x <=? y) = true -> (y <? x) = false.
Proof.
  intros Hle. apply leb_compare in Hle.
  rewrite FloatAxioms.ltb_spec. unfold SFltb. rewrite SFcompare_swap.
  destruct Hle as [-> | ->]; reflexivity.
Qed.

(** [Math.max(0, v)] *)
Lemma Math_max_zero (v : float) :
  Math_max [0; v] = if is_nan v then nan else if 0 <? v then v else 0.
Proof.
  unfold Math_max. cbn [max_from].
  change (is_nan 0) with false. change (is_pos_zero 0 && is_neg_zero neg_infinity) with false.
  change (neg_infinity <? 0) with true. cbn match.
  destruct (is_nan v); [reflexivity|].
  change (is_neg_zero 0) with false. rewrite andb_false_r. reflexivity.
Qed.

(** [Math.max(p, c)] for a positive constant [c] *)
Lemma Math_max_floor (p c : float) :
  is_nan c = false -> is_pos_zero c = false -> (neg_infinity <? c) = true ->
  Math_max [p; c]
  = if is_nan p then nan
    else if neg_infinity <? p then (if p <? c then c else p) else c.
Proof.
  intros Hn Hz Hc. unfold Math_max. cbn [max_from].
  destruct (is_nan p); [reflexivity|].
  change (is_neg_zero neg_infinity) with false. rewrite andb_false_r.
  destruct (neg_infinity <? p); rewrite Hn, Hz; cbn [andb]; [reflexivity|].
  rewrite Hc. reflexivity.
Qed.
End FloatFacts.

(** *** math.ts: the vector primitives at and beyond their bounds *)

Section VectorBounds.
Local Open Scope float_scope.

Lemma get_take (b : vec) (n i : nat) : (i < n)%nat -> get (take n b) i = get b i.
Proof. intros Hi. unfold get. rewrite lookup_take_lt by exact Hi. reflexivity. Qed.

Lemma reduce_from_ext {A St} (f g : St -> A -> nat -> St) (i : nat) (a : list A) (acc : St) :
  (forall s v j, (i <= j < i + length a)%nat -> f s v j = g s v j) ->
  reduce_from f i a acc = reduce_from g i a acc.
Proof.
  revert i acc. induction a as [|v a IH]; intros i acc Hfg; cbn [reduce_from]; [reflexivity|].
  rewrite Hfg by (cbn [length]; lia). apply IH.
  intros s w j Hj. apply Hfg. cbn [length]. lia.
Qed.

Lemma reduce_from_nan (b : vec) (i : nat) (a : vec) :
  reduce_from (fun sum v i => sum + v * get b i) i a nan = nan.
Proof.
  revert i. induction a as [|v a IH]; intros i; cbn [reduce_from]; [reflexivity|].
  rewrite add_nan_l. apply IH.
Qed.

Lemma reduce_from_runs_out (b : vec) (a : vec) (i : nat) (acc : float) :
  (i <= length b < i + length a)%nat ->
  reduce_from (fun sum v i => sum + v * get b i) i a acc = nan.
Proof.
  revert i acc. induction a as [|v a IH]; intros i acc Hlen; cbn [length] in Hlen; [lia|].
  cbn [reduce_from]. destruct (Nat.lt_ge_cases i (length b)) as [Hi | Hi].
  - apply IH. lia.
  - rewrite (get_beyond b i) by assumption. rewrite mul_nan_r, add_nan_r.
    apply reduce_from_nan.
Qed.

(** a vector of NaN makes every non-empty dot product NaN *)
Lemma dotProduct_nan_vector (a : vec) (n : nat) :
  a <> [] -> dotProduct a (replicate n nan) = nan.
Proof.
  destruct a as [|v a]; [congruence|]. intros _. unfold dotProduct, reduce.
  cbn [reduce_from].
  assert (Hg : get (replicate n nan) 0 = nan).
  { unfold get. destruct n; reflexivity. }
  rewrite Hg, mul_nan_r, add_nan_r. apply reduce_from_nan.
Qed.

(** X1: [dotProduct(a, b)] runs over the indices of [a]. It reads nothing
    of [b] beyond the length of [a]; when [b] is the shorter one, [b[i]] is
    [undefined] from its end on and the result is NaN; for an empty [a] it
    is the initial 0. *)
Theorem dotProduct_bounds (a b : vec) :
  dotProduct a b = dotProduct a (take (length a) b) /\
  ((length b < length a)%nat -> dotProduct a b = nan) /\
  (a = [] -> dotProduct a b = 0).
Proof.
  split; [|split].
  - unfold dotProduct, reduce. apply reduce_from_ext.
    intros s v j Hj. rewrite get_take by lia. reflexivity.
  - intros Hlen. unfold dotProduct, reduce. apply reduce_from_runs_out. lia.
  - intros ->. reflexivity.
Qed.

Lemma dotProduct_bounds_witness :
  dotProduct [1; 2; 3] [4; 5] = nan /\
  dotProduct [1; 2] [4; 5; 6] = dotProduct [1; 2] [4; 5].
Proof.
  split.
  - apply (proj1 (proj2 (dotProduct_bounds [1; 2; 3] [4; 5]))). simpl. lia.
  - exact (proj1 (dotProduct_bounds [1; 2] [4; 5; 6])).
Defined.

(** X2: [vecAdd] and [vecSub] follow their first argument: the result has
    its length, a surplus of [b] is ignored, and where [b] has run out the
    entry is NaN. *)
Theorem vecAdd_vecSub_bounds (a b : vec) :
  length (vecAdd a b) = length a /\ length (vecSub a b) = length a /\
  vecAdd a b = vecAdd a (take (length a) b) /\
  vecSub a b = vecSub a (take (length a) b) /\
  (forall i x y, a !! i = Some x -> b !! i = Some y ->
     vecAdd a b !! i = Some (x + y) /\ vecSub a b !! i = Some (x - y)) /\
  (forall i, (length b <= i < length a)%nat ->
     vecAdd a b !! i = Some nan /\ vecSub a b !! i = Some nan).
Proof.
  unfold vecAdd, vecSub. rewrite !length_imap.
  split; [reflexivity|]. split; [reflexivity|].
  split; [|split; [|split]].
  - apply list_eq. intros i. rewrite !list_lookup_imap.
    destruct (a !! i) as [x|] eqn:Hx; [|reflexivity]. cbn.
    rewrite get_take by (apply lookup_lt_is_Some; eauto). reflexivity.
  - apply list_eq. intros i. rewrite !list_lookup_imap.
    destruct (a !! i) as [x|] eqn:Hx; [|reflexivity]. cbn.
    rewrite get_take by (apply lookup_lt_is_Some; eauto). reflexivity.
  - intros i x y Hx Hy. rewrite !list_lookup_imap, Hx. cbn.
    rewrite (get_lookup b i y Hy). auto.
  - intros i [Hb Ha]. rewrite !list_lookup_imap.
    destruct (lookup_lt_is_Some_2 a i Ha) as [x ->]. cbn.
    rewrite (get_beyond b i Hb), add_nan_r, sub_nan_r. auto.
Qed.

Lemma vecAdd_vecSub_bounds_witness :
  vecAdd [1; 2; 3] [10] !! 2%nat = Some nan /\ vecSub [1; 2; 3] [10] !! 0%nat = Some (-9).
Proof.
  split.
  - apply (proj2 (proj2 (proj2 (proj2 (proj2 (vecAdd_vecSub_bounds [1; 2; 3] [10])))))).
    simpl. lia.
  - exact (proj2 (proj1 (proj2 (proj2 (proj2 (proj2 (vecAdd_vecSub_bounds [1; 2; 3] [10])))))
                   0%nat 1 10 eq_refl eq_refl)).
Defined.

(** X3: [relu] keeps the length; it leaves a positive entry as it is,
    turns a negative entry and either zero into +0 and keeps NaN; no entry
    of the result is below zero. *)
Theorem relu_entries (x : vec) :
  length (relu x) = length x /\
  (forall i v, x !! i = Some v ->
     relu x !! i = Some (if is_nan v then nan else if 0 <? v then v else 0)) /\
  Forall (fun y => (y <? 0) = false) (relu x).
Proof.
  unfold relu. split; [apply length_map|]. split.
  - intros i v Hv. rewrite list_lookup_fmap, Hv.
    cbn [fmap option_fmap option_map]. rewrite Math_max_zero. reflexivity.
  - apply Forall_forall. intros y Hy.
    apply list_elem_of_fmap in Hy as (v & -> & _). rewrite Math_max_zero.
    destruct (is_nan v); [reflexivity|].
    destruct (0 <? v) eqn:Hv; [apply ltb_asym; exact Hv | reflexivity].
Qed.

Lemma relu_entries_witness :
  relu [-2; 3; nan; -0] !! 0%nat = Some 0 /\ relu [-2; 3; nan; -0] = [0; 3; nan; 0].
Proof.
  split; [|reflexivity].
  exact (proj1 (proj2 (relu_entries [-2; 3; nan; -0])) 0%nat (-2) eq_refl).
Defined.
End VectorBounds.

Section LossCap.
Context `{Host}.
Local Open Scope float_scope.

(** X4: [crossEntropyLoss] clamps the probability of the target from
    below: for a probability under 1e-10 (zero and the negative numbers
    included) the loss is -log(1e-10), whatever the probability; from 1e-10
    on it is -log of the probability; a target outside [predicted], or a
    NaN there, gives -log(NaN). *)
Theorem crossEntropyLoss_capped (predicted : vec) (targetIndex : nat) :
  ((get predicted targetIndex <? 1e-10) = true ->
   crossEntropyLoss predicted targetIndex = - Math_log 1e-10) /\
  ((1e-10 <=? get predicted targetIndex) = true ->
   crossEntropyLoss predicted targetIndex = - Math_log (get predicted targetIndex)) /\
  ((length predicted <= targetIndex)%nat ->
   crossEntropyLoss predicted targetIndex = - Math_log nan).
Proof.
  unfold crossEntropyLoss.
  rewrite (Math_max_floor (get predicted targetIndex) 1e-10) by reflexivity.
  split; [|split].
  - intros Hlt. destruct (ltb_not_nan _ _ Hlt) as [-> _]. rewrite Hlt.
    destruct (neg_infinity <? get predicted targetIndex); reflexivity.
  - intros Hle. rewrite (leb_not_ltb _ _ Hle).
    apply leb_compare in Hle.
    assert (Hc : exists c, SFcompare (Prim2SF 1e-10) (Prim2SF (get predicted targetIndex)) = Some c)
      by (destruct Hle; eauto).
    destruct Hc as (c & Hc). destruct (compared_not_nan _ _ _ Hc) as [_ ->].
    assert (Hinf : (neg_infinity <? get predicted targetIndex) = true).
    { apply ltb_compare. change (Prim2SF neg_infinity) with (S754_infinity true).
      change (Prim2SF 1e-10) with (S754_finite false 7737125245533627 (-86)) in Hle.
      destruct (Prim2SF (get predicted targetIndex)) as [s|s| |s m e]; cbn in *;
        try reflexivity; try (destruct s; cbn in *; try reflexivity);
        destruct Hle; discriminate. }
    rewrite Hinf. reflexivity.
  - intros Hout. rewrite get_beyond by exact Hout. reflexivity.
Qed.
End LossCap.

Lemma crossEntropyLoss_capped_witness :
  crossEntropyLoss (H := ref_host) [0.5; 0; 0.5]%float 1 = (- Ref.log 1e-10)%float /\
  crossEntropyLoss (H := ref_host) [0.5; 0; 0.5]%float 0 = (- Ref.log 0.5)%float.
Proof.
  split.
  - apply (proj1 (crossEntropyLoss_capped (H := ref_host) [0.5; 0; 0.5]%float 1)). reflexivity.
  - apply (proj1 (proj2 (crossEntropyLoss_capped (H := ref_host) [0.5; 0; 0.5]%float 0))).
    reflexivity.
Defined.

(** *** Loops that may throw *)

Lemma js_fold_pure {A St} (body : A -> St -> js St) (g : A -> St -> St) (l : list A) (s : St) :
  (forall x s, x ∈ l -> body x s = Return (g x s)) ->
  js_fold body l s = Return (fold_left (fun s x => g x s) l s).
Proof.
  revert s. induction l as [|x l IH]; intros s Hb; cbn [js_fold fold_left]; [reflexivity|].
  rewrite Hb by (apply list_elem_of_here). cbn. apply IH.
  intros y s' Hy. apply Hb. apply list_elem_of_further. exact Hy.
Qed.

Lemma js_fold_throws {A St} (body : A -> St -> js St) (l : list A) (x : A) (s : St) :
  x ∈ l -> (forall s, body x s = TypeError) -> js_fold body l s = TypeError.
Proof.
  intros Hx Hb. revert s. induction l as [|y l IH]; intros s; [inversion Hx|].
  cbn [js_fold]. apply elem_of_cons in Hx as [-> | Hx].
  - rewrite Hb. reflexivity.
  - destruct (body y s) as [s'|]; cbn; [apply IH; exact Hx | reflexivity].
Qed.

Lemma js_mapM_pure {A B} (f : A -> js B) (g : A -> B) (l : list A) :
  (forall x, x ∈ l -> f x = Return (g x)) -> js_mapM f l = Return (map g l).
Proof.
  induction l as [|x l IH]; intros Hf; cbn [js_mapM map]; [reflexivity|].
  rewrite Hf by (apply list_elem_of_here). cbn.
  rewrite IH by (intros y Hy; apply Hf, list_elem_of_further, Hy). reflexivity.
Qed.

Lemma js_mapM_throws {A B} (f : A -> js B) (l : list A) (x : A) :
  x ∈ l -> f x = TypeError -> js_mapM f l = TypeError.
Proof.
  intros Hx Hf. induction l as [|y l IH]; [inversion Hx|].
  cbn [js_mapM]. apply elem_of_cons in Hx as [-> | Hx].
  - rewrite Hf. reflexivity.
  - destruct (f y) as [b|]; cbn; [|reflexivity]. rewrite (IH Hx). reflexivity.
Qed.

Lemma for_loop_ext {St} (n : nat) (f g : nat -> St -> St) (init : St) :
  (forall k s, k < n -> f k s = g k s) -> for_loop n f init = for_loop n g init.
Proof.
  induction n as [|n IH]; intros Hfg; [reflexivity|].
  rewrite !for_loop_S, IH by (intros; apply Hfg; lia). apply Hfg. lia.
Qed.

Lemma reduce_from_snoc {A St} (f : St -> A -> nat -> St) (i : nat) (l : list A) (v : A)
    (acc : St) :
  reduce_from f i (l ++ [v]) acc = f (reduce_from f i l acc) v (i + length l).
Proof.
  revert i acc. induction l as [|w l IH]; intros i acc; cbn [app reduce_from length].
  - rewrite Nat.add_0_r. reflexivity.
  - rewrite IH. f_equal. lia.
Qed.

Lemma get_snoc_before (l : vec) (v : float) (k : nat) :
  k < length l -> get (l ++ [v]) k = get l k.
Proof. intros Hk. unfold get. rewrite lookup_app_l by exact Hk. reflexivity. Qed.

Lemma get_snoc_last (l : vec) (v : float) : get (l ++ [v]) (length l) = v.
Proof. unfold get. rewrite list_lookup_middle by reflexivity. reflexivity. Qed.

(** [dotProduct] as the loop over the indices of its first argument *)
Lemma dotProduct_as_loop (col r : vec) :
  dotProduct col r
  = for_loop (length col) (fun k sum => (sum + get col k * get r k)%float) 0%float.
Proof.
  unfold dotProduct, reduce. induction col as [|v col IH] using rev_ind; [reflexivity|].
  rewrite reduce_from_snoc, IH, length_app. cbn [length]. rewrite Nat.add_1_r, for_loop_S.
  cbn [Nat.add]. rewrite get_snoc_last. f_equal.
  apply for_loop_ext. intros k s Hk. rewrite get_snoc_before by exact Hk. reflexivity.
Qed.

(** *** math.ts: matMul and transpose *)

Section MatMul.
Local Open Scope float_scope.

Lemma matMul_sum_returns (b : mat) (ai : vec) (j n : nat) :
  (n <= length b)%nat ->
  js_for n (fun k sum => bk ← defined (b !! k); Return (sum + get ai k * get bk j)) 0
  = Return (for_loop n (fun k sum => sum + get ai k * get (row b k) j) 0).
Proof.
  intros Hn. unfold js_for, for_loop.
  apply (js_fold_pure _ (fun k sum => sum + get ai k * get (row b k) j)).
  intros k s Hk. apply elem_of_seq in Hk.
  destruct (lookup_lt_is_Some_2 b k ltac:(lia)) as [bk Hbk].
  unfold row. rewrite Hbk. reflexivity.
Qed.

Lemma matMul_sum_throws (b : mat) (ai : vec) (j n : nat) :
  (length b < n)%nat ->
  js_for n (fun k sum => bk ← defined (b !! k); Return (sum + get ai k * get bk j)) 0
  = TypeError.
Proof.
  intros Hn. unfold js_for. apply (js_fold_throws _ _ (length b)).
  - apply elem_of_seq. lia.
  - intros s. rewrite lookup_ge_None_2 by lia. reflexivity.
Qed.

(** what [matMul] returns when it returns *)
Lemma matMul_value (a b : mat) (b0 : vec) :
  b !! 0%nat = Some b0 -> (length (row a 0) <= length b)%nat ->
  matMul a b
  = Return (map (fun i =>
                   map (fun j =>
                          for_loop (length (row a 0))
                            (fun k sum => sum + get (row a i) k * get (row b k) j) 0)
                       (seq 0 (length b0)))
                (seq 0 (length a))).
Proof.
  intros Hb0 Hlen. unfold matMul. rewrite Hb0. cbn [defined mbind js_bind].
  apply js_mapM_pure. intros i _. apply js_mapM_pure. intros j _.
  apply matMul_sum_returns. exact Hlen.
Qed.

(** X5: [matMul(a, b)] throws a TypeError exactly when [b] is empty, or
    when [a] has a row, [b] has a column and the first row of [a] is longer
    than [b] has rows. When it returns, the result has one row per row of
    [a], each as long as the first row of [b], and entry (i, j) is the sum
    over the indices k of the first row of [a] of a[i][k] * b[k][j], a
    missing element counting as NaN. *)
Theorem matMul_returns_iff (a b : mat) :
  (matMul a b = TypeError <->
   b = [] \/ (a <> [] /\ row b 0 <> [] /\ (length b < length (row a 0))%nat)) /\
  (forall m, matMul a b = Return m ->
     length m = length a /\ rectangular (length (row b 0)) m /\
     forall i j, (i < length a)%nat -> (j < length (row b 0))%nat ->
       get (row m i) j
       = for_loop (length (row a 0))
           (fun k sum => sum + get (row a i) k * get (row b k) j) 0).
Proof.
  destruct b as [|b0 b'].
  - split; [split; [auto | reflexivity] | intros m Hm; discriminate].
  - set (b := b0 :: b') in *.
    assert (Hb0 : b !! 0%nat = Some b0) by reflexivity.
    assert (Hrow : row b 0 = b0) by reflexivity.
    destruct (Nat.le_gt_cases (length (row a 0)) (length b)) as [Hle | Hgt].
    + rewrite (matMul_value a b b0 Hb0 Hle), Hrow. split.
      * split; [discriminate|]. intros [Hb | (_ & _ & Hlt)]; [discriminate | lia].
      * intros m Hm.
        assert (m = map (fun i =>
                      map (fun j =>
                             for_loop (length (row a 0))
                               (fun k sum => sum + get (row a i) k * get (row b k) j) 0)
                          (seq 0 (length b0)))
                   (seq 0 (length a))) as -> by congruence.
        rewrite length_map, length_seq. split; [reflexivity|]. split.
        -- apply Forall_forall. intros r Hr. apply list_elem_of_fmap in Hr as (i & -> & _).
           rewrite length_map, length_seq. reflexivity.
        -- intros i j Hi Hj. unfold row at 1, get at 1.
           rewrite list_lookup_fmap, lookup_seq_lt by exact Hi. cbn.
           rewrite list_lookup_fmap, lookup_seq_lt by exact Hj. reflexivity.
    + destruct a as [|a0 a'].
      { cbn in Hgt. lia. }
      destruct b0 as [|x b0'].
      { assert (Hval : matMul (a0 :: a') b
                       = Return (map (fun _ => []) (seq 0 (length (a0 :: a'))))).
        { unfold matMul. rewrite Hb0. cbn [defined mbind js_bind].
          apply js_mapM_pure. intros i _. reflexivity. }
        rewrite Hval. split.
        - split; [discriminate|]. intros [Hb | (_ & Hne & _)]; [discriminate|].
          exfalso. apply Hne. reflexivity.
        - intros m Hm.
          assert (m = map (fun _ => []) (seq 0 (length (a0 :: a')))) as -> by congruence.
          rewrite length_map, length_seq. split; [reflexivity|].
          split; [|intros i j _ Hj; rewrite Hrow in Hj; cbn in Hj; lia].
          apply Forall_forall. intros r Hr. apply list_elem_of_fmap in Hr as (i & -> & _).
          reflexivity. }
      assert (Hthrow : matMul (a0 :: a') b = TypeError).
      { unfold matMul. rewrite Hb0. cbn [defined mbind js_bind].
        apply (js_mapM_throws _ _ 0%nat); [apply elem_of_seq; cbn; lia|].
        apply (js_mapM_throws _ _ 0%nat); [apply elem_of_seq; cbn; lia|].
        apply matMul_sum_throws. exact Hgt. }
      rewrite Hthrow. split; [|intros m Hm; discriminate].
      split; [|reflexivity]. intros _. right.
      split; [discriminate|]. split; [rewrite Hrow; discriminate | exact Hgt].
Qed.

Lemma matMul_returns_iff_witness :
  matMul [[1; 2]; [3; 4]] [[1; 0]] = TypeError /\
  matMul [[1; 2]; [3; 4]] [] = TypeError /\
  matMul [[1; 2]; [3]] [[1; 0]; [0; 1]] = Return [[1; 2]; [nan; nan]].
Proof.
  split; [|split; [|reflexivity]].
  - apply (proj1 (matMul_returns_iff [[1; 2]; [3; 4]] [[1; 0]])). right.
    split; [discriminate|]. split; [discriminate | cbn; lia].
  - apply (proj1 (matMul_returns_iff [[1; 2]; [3; 4]] [])). left. reflexivity.
Defined.

Lemma get_fmap_row (b : mat) (j k : nat) :
  (k < length b)%nat -> get (map (fun br => get br j) b) k = get (row b k) j.
Proof.
  intros Hk. unfold get at 1, row. rewrite list_lookup_fmap.
  destruct (lookup_lt_is_Some_2 b k Hk) as [bk ->]. reflexivity.
Qed.

Lemma length_columns (b : mat) : length (columns b) = length (row b 0).
Proof. unfold columns. apply length_imap. Qed.

Lemma columns_lookup (b : mat) (j : nat) :
  (j < length (row b 0))%nat ->
  columns b !! j = Some (map (fun br => get br j) b).
Proof.
  intros Hj. unfold columns. rewrite list_lookup_imap.
  destruct (lookup_lt_is_Some_2 _ _ Hj) as [x ->]. reflexivity.
Qed.

(** X6: for a matrix [a] whose rows all have as many elements as [b] has
    rows, [matMul(a, b)] multiplies every row of [a] by [b]: row i of the
    product is [matVecMul] of the columns of [b] with row i of [a], to the
    last bit. *)
Theorem matMul_rows_by_matVecMul (a b : mat) :
  b <> [] -> rectangular (length b) a ->
  matMul a b = Return (map (fun r => matVecMul (columns b) r) a).
Proof.
  intros Hb Ha. destruct b as [|b0 b']; [congruence|]. set (b := b0 :: b') in *.
  assert (Hb0 : b !! 0%nat = Some b0) by reflexivity.
  assert (Hrow0 : (length (row a 0) <= length b)%nat).
  { unfold row. destruct a as [|a0 a']; [apply Nat.le_0_l|].
    inversion Ha as [|? ? Ha0 _]; subst.
    change (length a0 <= length b)%nat. rewrite Ha0. reflexivity. }
  rewrite (matMul_value a b b0 Hb0 Hrow0). f_equal.
  apply list_eq. intros i. rewrite !list_lookup_fmap.
  destruct (decide (i < length a)%nat) as [Hi | Hi].
  2:{ rewrite lookup_seq_ge by lia. rewrite lookup_ge_None_2 by lia. reflexivity. }
  rewrite lookup_seq_lt by exact Hi.
  destruct (lookup_lt_is_Some_2 a i Hi) as [r Hr]. rewrite Hr.
  cbn [fmap option_fmap option_map]. f_equal.
  assert (Hlr : length r = length b).
  { unfold rectangular in Ha. rewrite Forall_lookup in Ha. exact (Ha i r Hr). }
  assert (Hl0 : length (row a 0) = length b).
  { unfold row. destruct a as [|a0 a']; [cbn in Hi; lia|]. cbn.
    inversion Ha; subst. assumption. }
  unfold matVecMul. apply list_eq. intros j. rewrite !list_lookup_fmap.
  destruct (decide (j < length b0)%nat) as [Hj | Hj].
  2:{ rewrite lookup_seq_ge by lia.
      rewrite (lookup_ge_None_2 (columns b)) by (rewrite length_columns; cbn; lia).
      reflexivity. }
  rewrite lookup_seq_lt by exact Hj. rewrite columns_lookup by exact Hj.
  cbn [fmap option_fmap option_map]. f_equal.
  rewrite dotProduct_as_loop, length_map, Hl0.
  apply for_loop_ext. intros k s Hk. cbn [Nat.add]. unfold row at 1. rewrite Hr.
  cbn [default].
  rewrite get_fmap_row by exact Hk. rewrite (mul_comm (get r k)). reflexivity.
Qed.

Lemma matMul_rows_by_matVecMul_witness :
  matMul [[1; 2]; [3; 4]] [[5; 6; 7]; [8; 9; 10]]
  = Return [matVecMul [[5; 8]; [6; 9]; [7; 10]] [1; 2];
            matVecMul [[5; 8]; [6; 9]; [7; 10]] [3; 4]].
Proof.
  apply (matMul_rows_by_matVecMul [[1; 2]; [3; 4]] [[5; 6; 7]; [8; 9; 10]]).
  - discriminate.
  - repeat constructor.
Defined.
End MatMul.

Section Transpose.

Lemma elements_lookup (m : mat) (i : nat) : elements m !! i = map Some <$> (m !! i).
Proof. unfold elements. apply list_lookup_fmap. Qed.

Lemma some_lookup (r : vec) (c : nat) :
  (c < length r)%nat -> default None (map Some r !! c) = Some (get r c).
Proof.
  intros Hc. rewrite list_lookup_fmap. unfold get.
  destruct (lookup_lt_is_Some_2 r c Hc) as [x ->]. reflexivity.
Qed.

Lemma columns_rectangular (m : mat) : rectangular (length m) (columns m).
Proof.
  apply Forall_forall. intros col Hcol. unfold columns in Hcol.
  apply list_elem_of_lookup in Hcol as [j Hj]. rewrite list_lookup_imap in Hj.
  destruct (row m 0 !! j); [|discriminate]. injection Hj as <-. apply length_map.
Qed.

Lemma transpose_elements (m : mat) (n : nat) :
  m <> [] -> rectangular n m -> transpose (elements m) = Return (elements (columns m)).
Proof.
  intros Hne Hrect. destruct m as [|m0 m']; [congruence|]. set (m := m0 :: m') in *.
  assert (Hm0 : m !! 0%nat = Some m0) by reflexivity.
  assert (Hrow0 : row m 0 = m0) by reflexivity.
  assert (Hn0 : length m0 = n) by (inversion Hrect; assumption).
  clearbody m.
  unfold transpose. rewrite elements_lookup, Hm0.
  cbn [fmap option_fmap option_map defined mbind js_bind]. f_equal.
  apply list_eq. intros c. rewrite list_lookup_imap, elements_lookup.
  unfold columns. rewrite list_lookup_imap, Hrow0.
  rewrite list_lookup_fmap.
  destruct (m0 !! c) as [x|] eqn:Hx; [|reflexivity].
  cbn [fmap option_fmap option_map]. f_equal.
  unfold elements. rewrite !map_map. apply map_ext_in. intros r Hr.
  apply some_lookup. apply list_elem_of_In in Hr.
  unfold rectangular in Hrect. rewrite Forall_forall in Hrect. rewrite (Hrect r Hr), <- Hn0.
  apply lookup_lt_is_Some. eauto.
Qed.

Lemma columns_columns (m : mat) (n : nat) :
  m <> [] -> (1 <= n)%nat -> rectangular n m -> columns (columns m) = m.
Proof.
  intros Hne Hn Hrect. destruct m as [|m0 m']; [congruence|]. set (m := m0 :: m') in *.
  assert (Hrow0 : row m 0 = m0) by reflexivity.
  assert (Hn0 : length m0 = n) by (inversion Hrect; assumption).
  clearbody m.
  assert (Hcol0 : row (columns m) 0 = map (fun r => get r 0) m).
  { unfold row at 1. rewrite columns_lookup by (rewrite Hrow0; lia). reflexivity. }
  unfold columns at 1. rewrite Hcol0. apply list_eq. intros i.
  rewrite list_lookup_imap, list_lookup_fmap.
  destruct (m !! i) as [r|] eqn:Hr; [|reflexivity].
  cbn [fmap option_fmap option_map]. f_equal.
  assert (Hlr : length r = n).
  { unfold rectangular in Hrect. rewrite Forall_lookup in Hrect. exact (Hrect i r Hr). }
  assert (Hi : (i < length m)%nat) by (apply lookup_lt_is_Some; eauto).
  apply list_eq. intros c. rewrite list_lookup_fmap.
  destruct (decide (c < n)%nat) as [Hc | Hc].
  - rewrite columns_lookup by (rewrite Hrow0; lia).
    cbn [fmap option_fmap option_map].
    rewrite get_fmap_row by exact Hi. unfold row. rewrite Hr.
    change (default [] (Some r)) with r. unfold get.
    destruct (lookup_lt_is_Some_2 r c ltac:(lia)) as [x ->]. reflexivity.
  - rewrite (lookup_ge_None_2 (columns m)) by (rewrite length_columns, Hrow0; lia).
    rewrite lookup_ge_None_2 by lia. reflexivity.
Qed.

(** X7: [transpose] throws on the empty matrix. On a matrix of numbers
    with at least one row, whose rows all have the same positive number of
    elements, it returns the columns, and transposing the result gives the
    matrix back. *)
Theorem transpose_round_trip (m : mat) (n : nat) :
  transpose [] = TypeError /\
  (m <> [] -> (1 <= n)%nat -> rectangular n m ->
   transpose (elements m) = Return (elements (columns m)) /\
   length (columns m) = n /\ rectangular (length m) (columns m) /\
   transpose (elements (columns m)) = Return (elements m)).
Proof.
  split; [reflexivity|]. intros Hne Hn Hrect.
  assert (Hlen : length (columns m) = n).
  { rewrite length_columns. destruct m as [|m0 m']; [congruence|].
    inversion Hrect; assumption. }
  split; [exact (transpose_elements m n Hne Hrect)|].
  split; [exact Hlen|]. split; [apply columns_rectangular|].
  rewrite (transpose_elements (columns m) (length m)).
  - rewrite (columns_columns m n Hne Hn Hrect). reflexivity.
  - intros Hnil. rewrite Hnil in Hlen. cbn in Hlen. lia.
  - apply columns_rectangular.
Qed.

Lemma transpose_round_trip_witness :
  transpose (elements [[1; 2; 3]; [4; 5; 6]]%float)
  = Return (elements [[1; 4]; [2; 5]; [3; 6]]%float) /\
  transpose (elements [[1; 4]; [2; 5]; [3; 6]]%float)
  = Return (elements [[1; 2; 3]; [4; 5; 6]]%float).
Proof.
  destruct (proj2 (transpose_round_trip [[1; 2; 3]; [4; 5; 6]]%float 3))
    as (H1 & _ & _ & H2).
  - discriminate.
  - lia.
  - repeat constructor.
  - split; [exact H1 | exact H2].
Defined.
End Transpose.

(** *** math.ts: computeAttention *)

Section ComputeAttention.
Context `{Host}.
Local Open Scope float_scope.

(** with a key and a value for every query, [computeAttention] returns the
    unmasked scores and the sums of the values they weigh *)
Lemma computeAttention_value (queries keys values : mat) :
  queries <> [] ->
  (length queries <= length keys)%nat -> (length queries <= length values)%nat ->
  computeAttention queries keys values
  = Return
      (map (fun i =>
              softmax
                (map (fun j => dotProduct (row queries i) (row keys j)
                               / PrimFloat.sqrt (float_of_nat (length (row queries 0))))
                     (seq 0 (length queries))))
           (seq 0 (length queries)),
       map (fun i =>
              weightedSum
                (row (map (fun i =>
                             softmax
                               (map (fun j =>
                                       dotProduct (row queries i) (row keys j)
                                       / PrimFloat.sqrt (float_of_nat (length (row queries 0))))
                                    (seq 0 (length queries))))
                          (seq 0 (length queries))) i)
                values (length (row values 0)) (length queries))
           (seq 0 (length queries))).
Proof.
  intros Hne Hk Hv. unfold computeAttention.
  destruct queries as [|q0 qs] eqn:Hq; [congruence|]. rewrite <- Hq in *.
  assert (Hq0 : queries !! 0%nat = Some q0) by (rewrite Hq; reflexivity).
  assert (Hrow0 : row queries 0 = q0) by (rewrite Hq; reflexivity).
  assert (Hn : (1 <= length queries)%nat) by (rewrite Hq; cbn; lia).
  clear Hq. rewrite Hq0, Hrow0. cbn [defined mbind js_bind].
  rewrite (js_mapM_pure _
    (fun i => softmax
                (map (fun j => dotProduct (row queries i) (row keys j)
                               / PrimFloat.sqrt (float_of_nat (length q0)))
                     (seq 0 (length queries))))).
  2:{ intros i _.
      rewrite (js_mapM_pure _
        (fun j => dotProduct (row queries i) (row keys j)
                  / PrimFloat.sqrt (float_of_nat (length q0)))); [reflexivity|].
      intros j Hj. apply elem_of_seq in Hj.
      destruct (lookup_lt_is_Some_2 keys j ltac:(lia)) as [kj Hkj].
      assert (row keys j = kj) as -> by (unfold row; rewrite Hkj; reflexivity).
      rewrite Hkj. reflexivity. }
  cbn [mbind js_bind].
  destruct (lookup_lt_is_Some_2 values 0 ltac:(lia)) as [v0 Hv0].
  assert (Hvrow : row values 0 = v0) by (unfold row; rewrite Hv0; reflexivity).
  rewrite Hvrow.
  set (scores := map _ (seq 0 (length queries))).
  rewrite (js_mapM_pure _
    (fun i => weightedSum (row scores i) values (length v0) (length queries))).
  { reflexivity. }
  intros i _. rewrite Hv0. cbn [defined mbind js_bind]. unfold weightedSum, js_for, for_loop.
  apply (js_fold_pure _
    (fun j weighted =>
       fold_left (fun s k => add_at s k (get (row scores i) j * get (row values j) k))
                 (seq 0 (length v0)) weighted)).
  intros j weighted Hj. apply elem_of_seq in Hj.
  destruct (lookup_lt_is_Some_2 values j ltac:(lia)) as [vj Hvj].
  assert (row values j = vj) as -> by (unfold row; rewrite Hvj; reflexivity).
  apply (js_fold_pure _ (fun k s => add_at s k (get (row scores i) j * get vj k))).
  intros k s _. rewrite Hvj. reflexivity.
Qed.

(** X8: [computeAttention] throws without queries. Given the queries,
    keys and values a head computes from a non-empty input, it returns, and
    it agrees with [attentionHead] at the last position, where the causal
    mask hides nothing: the same scores and the same output there. *)
Theorem computeAttention_last_position (input : mat) (head : AttentionHead)
    (keys values : mat) :
  computeAttention [] keys values = TypeError /\
  (input <> [] ->
   exists s o s' o',
     attentionHead input head = Return (s, o) /\
     computeAttention (projectAll (Wq head) input) (projectAll (Wk head) input)
       (projectAll (Wv head) input) = Return (s', o') /\
     s !! (length input - 1)%nat = s' !! (length input - 1)%nat /\
     o !! (length input - 1)%nat = o' !! (length input - 1)%nat).
Proof.
  split; [reflexivity|]. intros Hne.
  assert (Hn : (1 <= length input)%nat) by (destruct input; [congruence | cbn; lia]).
  rewrite (attentionHead_returns input head Hne).
  rewrite computeAttention_value.
  2:{ intros Hnil. apply (f_equal length) in Hnil.
      rewrite length_projectAll in Hnil. cbn in Hnil. lia. }
  2,3: rewrite !length_projectAll; reflexivity.
  rewrite !length_projectAll.
  assert (HQ0 : length (row (projectAll (Wq head) input) 0) = length (Wq head)).
  { unfold row, projectAll. rewrite list_lookup_fmap.
    destruct (lookup_lt_is_Some_2 input 0 ltac:(lia)) as [x ->]. apply length_matVecMul. }
  assert (HV0 : length (row (projectAll (Wv head) input) 0) = length (Wv head)).
  { unfold row, projectAll. rewrite list_lookup_fmap.
    destruct (lookup_lt_is_Some_2 input 0 ltac:(lia)) as [x ->]. apply length_matVecMul. }
  rewrite HQ0, HV0.
  eexists _, _, _, _. split; [reflexivity|]. split; [reflexivity|].
  assert (Hrow : rowScores (projectAll (Wq head) input) (projectAll (Wk head) input)
                   (PrimFloat.sqrt (float_of_nat (length (Wq head)))) (length input)
                   (length input - 1)
                 = map (fun j =>
                          dotProduct (row (projectAll (Wq head) input) (length input - 1))
                                     (row (projectAll (Wk head) input) j)
                          / PrimFloat.sqrt (float_of_nat (length (Wq head))))
                       (seq 0 (length input))).
  { unfold rowScores. apply map_ext_in. intros j Hj. apply in_seq in Hj.
    destruct (Nat.ltb_spec (length input - 1) j); [lia | reflexivity]. }
  assert (Hs : forall A (f g : nat -> A),
             f (length input - 1)%nat = g (length input - 1)%nat ->
             map f (seq 0 (length input)) !! (length input - 1)%nat
             = map g (seq 0 (length input)) !! (length input - 1)%nat).
  { intros A f g Hfg. rewrite !list_lookup_fmap, lookup_seq_lt by lia. cbn. f_equal. exact Hfg. }
  assert (Hr : forall f : nat -> vec,
             row (map f (seq 0 (length input))) (length input - 1) = f (length input - 1)%nat).
  { intros f. unfold row. rewrite list_lookup_fmap, lookup_seq_lt by lia. reflexivity. }
  split.
  - apply Hs. rewrite Hrow. reflexivity.
  - apply Hs. rewrite !Hr, Hrow. reflexivity.
Qed.
End ComputeAttention.

Lemma computeAttention_last_position_witness :
  exists s o s' o',
    attentionHead (H := ref_host) [[1; 2]; [3; 4]]%float
      {| Wq := [[1; 0]; [0; 1]]%float; Wk := [[1; 0]; [0; 1]]%float;
         Wv := [[1; 0]; [0; 1]]%float |} = Return (s, o) /\
    computeAttention (H := ref_host) [[1; 2]; [3; 4]]%float [[1; 2]; [3; 4]]%float
      [[1; 2]; [3; 4]]%float = Return (s', o') /\
    s !! 1%nat = s' !! 1%nat /\ o !! 1%nat = o' !! 1%nat.
Proof.
  apply (proj2 (computeAttention_last_position (H := ref_host) [[1; 2]; [3; 4]]%float
                  {| Wq := [[1; 0]; [0; 1]]%float; Wk := [[1; 0]; [0; 1]]%float;
                     Wv := [[1; 0]; [0; 1]]%float |} [] [])).
  discriminate.
Defined.

(** *** initializeWeights: shapes and draws *)

Section InitializationDraws.
Context `{Host}.

Lemma Array_from_draws {A} (n : nat) (f : Rand A) (c k : nat) :
  (forall k, snd (f k) = k + c) -> snd (Array_from n f k) = k + n * c.
Proof.
  intros Hf. revert k. induction n as [|n IH]; intros k; cbn [Array_from]; [cbn; lia|].
  destruct (f k) as [a k1] eqn:Hfk. specialize (IH k1).
  destruct (Array_from n f k1) as [l k2]. cbn [snd] in *.
  pose proof (Hf k) as Hk. rewrite Hfk in Hk. cbn [snd] in Hk. lia.
Qed.

Lemma randomVector_draws (size : nat) (scale : float) (k : nat) :
  snd (randomVector size scale k) = k + size.
Proof.
  unfold randomVector. rewrite (Array_from_draws size _ 1); [lia|].
  intros k'. cbn. lia.
Qed.

Lemma randomMatrix_draws (rows cols : nat) (scale : float) (k : nat) :
  snd (randomMatrix rows cols scale k) = k + rows * cols.
Proof.
  unfold randomMatrix. apply Array_from_draws. intros k'.
  rewrite (Array_from_draws cols _ 1); [lia|]. intros k''. cbn. lia.
Qed.

Lemma initHead_draws (E Hd k : nat) : snd (initHead E Hd k) = k + 3 * (E * Hd).
Proof.
  unfold initHead.
  pose proof (randomMatrix_draws E Hd 0.1 k) as H1.
  destruct (randomMatrix E Hd 0.1 k) as [wq k1]. cbn [snd] in H1.
  pose proof (randomMatrix_draws E Hd 0.1 k1) as H2.
  destruct (randomMatrix E Hd 0.1 k1) as [wk k2]. cbn [snd] in H2.
  pose proof (randomMatrix_draws E Hd 0.1 k2) as H3.
  destruct (randomMatrix E Hd 0.1 k2) as [wv k3]. cbn [snd] in *. lia.
Qed.

Lemma initLayer_draws (E Hd N k : nat) :
  snd (initLayer E Hd N k)
  = k + (N * (3 * (E * Hd)) + E * (E * 2) + E * 2 + E * 2 * E + E).
Proof.
  unfold initLayer.
  pose proof (Array_from_draws N (initHead E Hd) (3 * (E * Hd)) k (initHead_draws E Hd)) as H0.
  destruct (Array_from N (initHead E Hd) k) as [hs k1]. cbn [snd] in H0.
  pose proof (randomMatrix_draws E (E * 2) 0.1 k1) as H1.
  destruct (randomMatrix E (E * 2) 0.1 k1) as [w1 k2]. cbn [snd] in H1.
  pose proof (randomVector_draws (E * 2) 0.1 k2) as H2.
  destruct (randomVector (E * 2) 0.1 k2) as [v1 k3]. cbn [snd] in H2.
  pose proof (randomMatrix_draws (E * 2) E 0.1 k3) as H3.
  destruct (randomMatrix (E * 2) E 0.1 k3) as [w2 k4]. cbn [snd] in H3.
  pose proof (randomVector_draws E 0.1 k4) as H4.
  destruct (randomVector E 0.1 k4) as [v2 k5]. cbn [snd] in *. lia.
Qed.

(** X9: [initializeWeights] gives the embeddings one row of [embedDim]
    numbers per token, [numLayers] layers of [numHeads] heads whose Wq, Wk
    and Wv have [embedDim] rows of floor(embedDim / numHeads) numbers, W1
    with [embedDim] rows of 2 * embedDim numbers, W2 with 2 * embedDim rows
    of [embedDim] numbers, an output matrix of [embedDim] rows of
    [vocabSize] numbers and an output bias of [vocabSize] numbers; and it
    calls [Math.random] once for every number it stores. *)
Theorem initializeWeights_shape_and_draws (vocabSize : nat) (config : ModelConfig) (k : nat) :
  let E := embedDim config in
  let Hd := (embedDim config / numHeads config)%nat in
  let w := fst (initializeWeights vocabSize config k) in
  (length (embeddings w) = vocabSize /\ rectangular E (embeddings w)) /\
  (length (layers w) = numLayers config /\
   Forall (layer_shape E Hd (numHeads config)) (layers w)) /\
  (length (output_W (output w)) = E /\ rectangular vocabSize (output_W (output w)) /\
   length (output_b (output w)) = vocabSize) /\
  snd (initializeWeights vocabSize config k)
  = k + (vocabSize * E
         + numLayers config
           * (numHeads config * (3 * (E * Hd)) + E * (E * 2) + E * 2 + E * 2 * E + E)
         + E * vocabSize + vocabSize).
Proof.
  intros E Hd w.
  destruct (initialized_shape vocabSize config w (ex_intro _ k eq_refl))
    as (H1 & H2 & H3 & H4 & H5 & H6 & H7).
  split; [split; assumption|]. split; [split; assumption|].
  split; [repeat split; assumption|].
  unfold initializeWeights. cbn zeta. subst E Hd.
  set (E := embedDim config). set (Hd := (E / numHeads config)%nat).
  pose proof (randomMatrix_draws vocabSize E 0.5 k) as D1.
  destruct (randomMatrix vocabSize E 0.5 k) as [emb k1]. cbn [snd] in D1.
  pose proof (Array_from_draws (numLayers config) (initLayer E Hd (numHeads config))
                (numHeads config * (3 * (E * Hd)) + E * (E * 2) + E * 2 + E * 2 * E + E) k1
                (initLayer_draws E Hd (numHeads config))) as D2.
  destruct (Array_from (numLayers config) (initLayer E Hd (numHeads config)) k1) as [ls k2].
  cbn [snd] in D2.
  pose proof (randomMatrix_draws E vocabSize 0.1 k2) as D3.
  destruct (randomMatrix E vocabSize 0.1 k2) as [ow k3]. cbn [snd] in D3.
  pose proof (randomVector_draws vocabSize 0.1 k3) as D4.
  destruct (randomVector vocabSize 0.1 k3) as [ob k4]. cbn [snd] in *.
  rewrite D4, D3, D2, D1. ring.
Qed.
End InitializationDraws.

(** *** NaN through the layers *)

Section NaNLayers.
Context `{Host}.
Local Open Scope float_scope.

Lemma replicate_eq {A} (l : list A) (x : A) :
  (forall i y, l !! i = Some y -> y = x) -> l = replicate (length l) x.
Proof.
  intros Hl. apply list_eq. intros i.
  destruct (l !! i) as [y|] eqn:Hy.
  - rewrite (Hl i y Hy). symmetry. apply lookup_replicate_2. apply lookup_lt_is_Some. eauto.
  - symmetry. apply lookup_ge_None. rewrite length_replicate. apply lookup_ge_None. exact Hy.
Qed.

Lemma get_replicate_nan (n i : nat) : get (replicate n nan) i = nan.
Proof.
  unfold get. destruct (decide (i < n)%nat) as [Hi | Hi].
  - rewrite lookup_replicate_2 by exact Hi. reflexivity.
  - rewrite lookup_ge_None_2 by (rewrite length_replicate; lia). reflexivity.
Qed.

(** rows longer than the vector: every product reads past its end *)
Lemma matVecMul_long_rows (M : mat) (x : vec) :
  Forall (fun r => (length x < length r)%nat) M ->
  matVecMul M x = replicate (length M) nan.
Proof.
  intros HM. unfold matVecMul. rewrite <- (length_map (fun r => dotProduct r x) M).
  apply replicate_eq. intros i y Hy. rewrite list_lookup_fmap in Hy.
  destruct (M !! i) as [r|] eqn:Hr; [|discriminate]. injection Hy as <-.
  rewrite Forall_lookup in HM. unfold dotProduct, reduce.
  apply reduce_from_runs_out. specialize (HM i r Hr). simpl. lia.
Qed.

Lemma matVecMul_nan_vector (M : mat) (n : nat) :
  Forall (fun r => r <> []) M -> matVecMul M (replicate n nan) = replicate (length M) nan.
Proof.
  intros HM. unfold matVecMul.
  rewrite <- (length_map (fun r => dotProduct r (replicate n nan)) M).
  apply replicate_eq. intros i y Hy. rewrite list_lookup_fmap in Hy.
  destruct (M !! i) as [r|] eqn:Hr; [|discriminate]. injection Hy as <-.
  rewrite Forall_lookup in HM. apply dotProduct_nan_vector. exact (HM i r Hr).
Qed.

Lemma vecAdd_nan_l (n : nat) (b : vec) : vecAdd (replicate n nan) b = replicate n nan.
Proof.
  unfold vecAdd. rewrite <- (length_replicate n nan) at 2.
  rewrite <- (length_imap (fun i v => v + get b i) (replicate n nan)).
  apply replicate_eq. intros i y Hy. rewrite list_lookup_imap in Hy.
  destruct (replicate n nan !! i) as [v|] eqn:Hv; [|discriminate].
  apply lookup_replicate in Hv as [-> _]. injection Hy as <-. apply add_nan_l.
Qed.

Lemma vecAdd_nan_r (x : vec) (n : nat) :
  vecAdd x (replicate n nan) = replicate (length x) nan.
Proof.
  unfold vecAdd.
  rewrite <- (length_imap (fun i v => v + get (replicate n nan) i) x).
  apply replicate_eq. intros i y Hy. rewrite list_lookup_imap in Hy.
  destruct (x !! i) as [v|]; [|discriminate]. injection Hy as <-.
  rewrite get_replicate_nan. apply add_nan_r.
Qed.

Lemma relu_nan (n : nat) : relu (replicate n nan) = replicate n nan.
Proof. unfold relu. apply (fmap_replicate (fun v => Math_max [0; v])). Qed.

Lemma layerNorm_nan (n : nat) : layerNorm (replicate n nan) = replicate n nan.
Proof.
  unfold layerNorm. set (mean := num_div _ _). set (std := num_sqrt _).
  rewrite (fmap_replicate (fun v => num_div (num_sub v mean) std)). f_equal.
  change ((nan - mean) / std = nan). rewrite sub_nan_l. apply div_nan_l.
Qed.

(** the feed-forward block of a layer whose W1 has rows longer than its
    input and whose W2 has no empty row *)
Lemma feedForward_nan (x : vec) (f : FFN) :
  Forall (fun r => (length x < length r)%nat) (W1 f) ->
  Forall (fun r => r <> []) (W2 f) ->
  feedForward x f = replicate (length (W2 f)) nan.
Proof.
  intros H1 H2. unfold feedForward.
  rewrite (matVecMul_long_rows _ _ H1), vecAdd_nan_l, relu_nan.
  rewrite (matVecMul_nan_vector _ _ H2). apply vecAdd_nan_l.
Qed.

Lemma feedForward_nan_shape (E Hd N : nat) (layer : TransformerLayer) (x : vec) :
  layer_shape E Hd N layer -> (1 <= E)%nat -> (length x < 2 * E)%nat ->
  feedForward x (ffn layer) = replicate (2 * E) nan.
Proof.
  intros (_ & _ & _ & HW1 & _ & HW2 & HW2r & _) HE Hx.
  rewrite feedForward_nan.
  - rewrite HW2. f_equal. lia.
  - eapply Forall_impl; [exact HW1|]. intros r Hr. cbn beta in Hr. lia.
  - eapply Forall_impl; [exact HW2r|]. intros r Hr Hnil. cbn beta in Hr.
    rewrite Hnil in Hr. cbn in Hr. lia.
Qed.

(** X10: in a layer built by [initializeWeights] for a positive embedDim,
    the feed-forward block returns 2 * embedDim NaN for every input shorter
    than 2 * embedDim: the rows of W1 hold 2 * embedDim numbers, so every
    product of [matVecMul(W1, input)] reads past the end of the input. *)
Theorem feedForward_on_initialized_weights (vocabSize : nat) (config : ModelConfig)
    (w : Weights) (l : nat) (layer : TransformerLayer) (x : vec) :
  initialized vocabSize config w ->
  layers w !! l = Some layer ->
  (1 <= embedDim config)%nat ->
  (length x < 2 * embedDim config)%nat ->
  feedForward x (ffn layer) = replicate (2 * embedDim config) nan.
Proof.
  intros Hinit Hl HE Hx.
  destruct (initialized_shape _ _ _ Hinit) as (_ & _ & _ & Hls & _).
  rewrite Forall_lookup in Hls.
  exact (feedForward_nan_shape _ _ _ layer x (Hls l layer Hl) HE Hx).
Qed.
End NaNLayers.

Lemma feedForward_on_initialized_weights_witness :
  feedForward [0.25; -0.5]%float
    (ffn (default {| heads := []; ffn := {| W1 := []; b1 := []; W2 := []; b2 := [] |} |}
            (layers small_weights !! 0%nat)))
  = [nan; nan; nan; nan].
Proof.
  apply (feedForward_on_initialized_weights (H := ref_host) 3 small_config small_weights 0).
  - exists 0%nat. reflexivity.
  - reflexivity.
  - simpl. lia.
  - simpl. lia.
Defined.

(** *** forward: when it returns, and what it returns on initialized weights *)

Section ForwardRuns.
Context `{Host}.
Local Open Scope float_scope.

Lemma js_mapM_returns {A B} (f : A -> js B) (l : list A) :
  (forall x, x ∈ l -> exists b, f x = Return b) -> exists bs, js_mapM f l = Return bs.
Proof.
  induction l as [|x l IH]; intros Hf; cbn [js_mapM]; [eauto|].
  destruct (Hf x (list_elem_of_here _ _)) as [b ->].
  destruct IH as [bs ->]; [intros y Hy; apply Hf, list_elem_of_further, Hy|].
  cbn. eauto.
Qed.

Lemma layerForward_returns (current : mat) (layer : TransformerLayer) :
  current <> [] \/ heads layer = [] ->
  exists current' out, layerForward current layer = Return (current', out).
Proof.
  intros Hc. unfold layerForward.
  destruct (js_mapM_returns (fun head => attentionHead current head) (heads layer)) as [hs ->].
  - intros head Hhead. destruct Hc as [Hne | Hnil].
    + rewrite (attentionHead_returns current head Hne). eauto.
    + rewrite Hnil in Hhead. inversion Hhead.
  - cbn. eauto.
Qed.

Lemma layerForward_throws (layer : TransformerLayer) :
  heads layer <> [] -> layerForward [] layer = TypeError.
Proof.
  intros Hh. unfold layerForward. destruct (heads layer) as [|head hs]; [congruence|].
  cbn [js_mapM]. rewrite attentionHead_empty. reflexivity.
Qed.

Lemma layers_fold_returns (ls : list TransformerLayer) (current : mat)
    (outs : list LayerOutput) :
  current <> [] \/ Forall (fun l => heads l = []) ls ->
  exists current' outs',
    js_fold
      (fun layer '(current, outs) =>
         '(current', out) ← layerForward current layer;
         Return (current', outs ++ [out]))
      ls (current, outs) = Return (current', outs').
Proof.
  revert current outs. induction ls as [|layer ls IH]; intros current outs Hc;
    cbn [js_fold]; [eauto|].
  destruct (layerForward_returns current layer) as (c' & out & Hrun).
  { destruct Hc as [Hne | Hall]; [left; exact Hne | right; inversion Hall; assumption]. }
  rewrite Hrun. cbn [mbind js_bind]. apply IH.
  destruct (layerForward_shape _ _ _ _ Hrun) as [Hlen _].
  destruct Hc as [Hne | Hall]; [left | right; inversion Hall; assumption].
  intros ->. destruct current; [congruence | discriminate].
Qed.

Lemma layers_fold_throws (ls : list TransformerLayer) (outs : list LayerOutput) :
  Exists (fun l => heads l <> []) ls ->
  js_fold
    (fun layer '(current, outs) =>
       '(current', out) ← layerForward current layer;
       Return (current', outs ++ [out]))
    ls ([], outs) = TypeError.
Proof.
  intros Hex. revert outs. induction Hex as [layer ls Hh | layer ls Hex IH]; intros outs;
    cbn [js_fold].
  - rewrite (layerForward_throws layer Hh). reflexivity.
  - destruct (layerForward [] layer) as [[c' out]|] eqn:Hrun; cbn [mbind js_bind]; [|reflexivity].
    destruct (layerForward_shape _ _ _ _ Hrun) as [Hlen _].
    destruct c'; [apply IH | discriminate].
Qed.

Lemma project_undefined (m : mat) :
  (exists p, project m None = Return p) <-> Forall (fun r => r = []) m.
Proof.
  unfold project. split.
  - intros [p Hp]. apply js_mapM_Forall2 in Hp.
    apply Forall_forall. intros r Hr. apply list_elem_of_lookup in Hr as [i Hi].
    destruct (Forall2_lookup_l _ _ _ _ _ Hp Hi) as (y & _ & Hy).
    destruct r; [reflexivity | discriminate].
  - intros Hm. apply js_mapM_returns. intros r Hr.
    rewrite Forall_forall in Hm. rewrite (Hm r Hr). eauto.
Qed.

Lemma forward_returns (toks : list nat) (w : Weights) (tgt : option nat) :
  Forall (fun t => (t < length (embeddings w))%nat) toks ->
  (toks = [] ->
   Forall (fun layer => heads layer = []) (layers w) /\
   Forall (fun r => r = []) (output_W (output w))) ->
  exists r, forward toks w tgt = Return r.
Proof.
  intros Hin Hempty. unfold forward.
  destruct (js_mapM_defined (embeddings w) toks Hin) as (c0 & -> & Hlen0 & _).
  cbn [mbind js_bind]. unfold layersForward.
  destruct (layers_fold_returns (layers w) c0 []) as (c & outs & Hfold).
  { destruct toks as [|t toks'].
    - right. exact (proj1 (Hempty eq_refl)).
    - left. intros ->. discriminate. }
  rewrite Hfold. cbn [mbind js_bind].
  destruct (layers_fold_records _ _ _ _ _ Hfold) as [Hlen _].
  destruct toks as [|t toks'].
  - destruct c; [|cbn in *; lia]. cbn [length at_pred].
    destruct (proj2 (project_undefined (output_W (output w))) (proj2 (Hempty eq_refl)))
      as [p ->].
    cbn. eauto.
  - cbn [length at_pred].
    destruct (lookup_lt_is_Some_2 c (length toks') ltac:(cbn in *; lia)) as [h ->].
    cbn. eauto.
Qed.

(** X12: [forward] returns exactly when every token indexes a row of the
    embeddings and, should the sequence be empty, no layer has a head and
    the output matrix has no element; in every other case it throws a
    TypeError. So it never throws on a non-empty sequence of tokens of the
    vocabulary, whatever the shapes of the other weights. *)
Theorem forward_returns_iff (toks : list nat) (w : Weights) (tgt : option nat) :
  (exists r, forward toks w tgt = Return r) <->
  Forall (fun t => (t < length (embeddings w))%nat) toks /\
  (toks = [] ->
   Forall (fun layer => heads layer = []) (layers w) /\
   Forall (fun r => r = []) (output_W (output w))).
Proof.
  split.
  - intros [r Hr]. split; [exact (proj2 (proj2 (proj2 (forward_shape _ _ _ _ Hr))))|].
    intros ->. unfold forward in Hr. cbn [js_mapM mbind js_bind length] in Hr.
    unfold layersForward in Hr.
    destruct (decide (Forall (fun layer => heads layer = []) (layers w))) as [Hall | Hnot].
    + split; [exact Hall|].
      destruct (js_fold _ (layers w) ([], [])) as [[c outs]|] eqn:Hfold;
        cbn [mbind js_bind] in Hr; [|discriminate].
      destruct (layers_fold_records _ _ _ _ _ Hfold) as [Hlen _].
      destruct c; [|discriminate]. cbn [at_pred] in Hr.
      apply project_undefined.
      destruct (project (output_W (output w)) None) as [p|]; [eauto | discriminate].
    + exfalso. apply not_Forall_Exists in Hnot; [|intros l; apply _].
      rewrite (layers_fold_throws _ [] Hnot) in Hr. discriminate.
  - intros [Hin Hempty]. exact (forward_returns toks w tgt Hin Hempty).
Qed.
End ForwardRuns.

Lemma forward_returns_iff_witness :
  (exists r, forward (H := ref_host) [0; 1] small_weights None = Return r) /\
  ~ (exists r, forward (H := ref_host) [] small_weights None = Return r).
Proof.
  split.
  - apply (proj2 (forward_returns_iff (H := ref_host) [0; 1] small_weights None)).
    split; [repeat constructor; vm_compute; lia | discriminate].
  - intros Hr.
    destruct (proj1 (forward_returns_iff (H := ref_host) [] small_weights None) Hr)
      as [_ Hempty].
    destruct (Hempty eq_refl) as [Hheads _].
    apply Forall_inv in Hheads. vm_compute in Hheads. discriminate.
Defined.

Section ForwardInitialized.
Context `{Host}.
Local Open Scope float_scope.

Lemma row_replicate (n i : nat) (x : vec) : (i < n)%nat -> row (replicate n x) i = x.
Proof. intros Hi. unfold row. rewrite lookup_replicate_2 by exact Hi. reflexivity. Qed.

Lemma layerForward_nan (E Hd N : nat) (layer : TransformerLayer) (current current' : mat)
    (out : LayerOutput) :
  layer_shape E Hd N layer -> (1 <= E)%nat ->
  Forall (fun x => length x = E) current ->
  layerForward current layer = Return (current', out) ->
  current' = replicate (length current) (replicate E nan) /\
  ffnOutput out = replicate (length current) (replicate (2 * E) nan).
Proof.
  intros Hshape HE Hrows Hrun. unfold layerForward in Hrun.
  destruct (js_mapM _ (heads layer)) as [hs|]; cbn [mbind js_bind] in Hrun; [|discriminate].
  injection Hrun as <- <-. cbn [ffnOutput].
  set (attn := imap (fun i _ => combineHeads current (map snd hs) i) current).
  set (after := imap (fun i x => layerNorm (vecAdd x (row attn i))) current).
  assert (Hafter : Forall (fun x => length x = E) after).
  { apply Forall_forall. intros x Hx. apply list_elem_of_lookup in Hx as [i Hi].
    unfold after in Hi. rewrite list_lookup_imap in Hi.
    destruct (current !! i) as [y|] eqn:Hy; [|discriminate]. injection Hi as <-.
    rewrite length_layerNorm, length_vecAdd.
    rewrite Forall_lookup in Hrows. exact (Hrows i y Hy). }
  assert (Hlen : length after = length current) by apply length_imap.
  assert (Hffn : map (fun x => feedForward x (ffn layer)) after
                 = replicate (length current) (replicate (2 * E) nan)).
  { rewrite <- Hlen, <- (length_map (fun x => feedForward x (ffn layer)) after).
    apply replicate_eq. intros i y Hy. rewrite list_lookup_fmap in Hy.
    destruct (after !! i) as [x|] eqn:Hx; [|discriminate]. injection Hy as <-.
    apply (feedForward_nan_shape E Hd N); [assumption | assumption |].
    rewrite Forall_lookup in Hafter. rewrite (Hafter i x Hx). lia. }
  split; [|exact Hffn].
  rewrite Hffn, <- Hlen.
  rewrite <- (length_imap
                (fun i x => layerNorm
                              (vecAdd x (row (replicate (length after) (replicate (2 * E) nan)) i)))
                after) at 1.
  apply replicate_eq. intros i y Hy. rewrite list_lookup_imap in Hy.
  destruct (after !! i) as [x|] eqn:Hx; [|discriminate]. injection Hy as <-.
  assert (Hi : (i < length after)%nat) by (apply lookup_lt_is_Some; eauto).
  rewrite (row_replicate _ _ _ Hi), vecAdd_nan_r, layerNorm_nan.
  rewrite Forall_lookup in Hafter. rewrite (Hafter i x Hx). reflexivity.
Qed.

Lemma layers_fold_nan (E Hd N : nat) (ls : list TransformerLayer) (layer : TransformerLayer)
    (current current' : mat) (outs outs' : list LayerOutput) :
  Forall (layer_shape E Hd N) (layer :: ls) -> (1 <= E)%nat ->
  Forall (fun x => length x = E) current ->
  js_fold
    (fun layer '(current, outs) =>
       '(current', out) ← layerForward current layer;
       Return (current', outs ++ [out]))
    (layer :: ls) (current, outs) = Return (current', outs') ->
  current' = replicate (length current) (replicate E nan) /\
  exists new, outs' = outs ++ new /\
    Forall (fun out => ffnOutput out = replicate (length current) (replicate (2 * E) nan)) new.
Proof.
  intros Hshape HE. revert layer current outs Hshape.
  induction ls as [|layer2 ls IH]; intros layer current outs Hshape Hrows Hrun;
    cbn [js_fold] in Hrun;
    destruct (layerForward current layer) as [[c1 out1]|] eqn:H1;
    cbn [mbind js_bind] in Hrun; try discriminate;
    inversion Hshape as [|? ? Hl Hrest]; subst;
    destruct (layerForward_nan E Hd N layer current c1 out1 Hl HE Hrows H1) as [Hc1 Ho1].
  - injection Hrun as <- <-. split; [exact Hc1|].
    exists [out1]. split; [reflexivity|]. repeat constructor. exact Ho1.
  - assert (Hrows1 : Forall (fun x => length x = E) c1).
    { rewrite Hc1. apply Forall_forall. intros x Hx.
      apply elem_of_replicate in Hx as [-> _]. apply length_replicate. }
    destruct (IH layer2 c1 (outs ++ [out1]) Hrest Hrows1 Hrun) as (Hc' & new & Hnew & Hall).
    assert (Hlen1 : length c1 = length current) by (rewrite Hc1; apply length_replicate).
    rewrite Hlen1 in Hc', Hall. split; [exact Hc'|].
    exists (out1 :: new). split; [rewrite Hnew, <- app_assoc; reflexivity|].
    constructor; assumption.
Qed.

Lemma argmax_nan (n : nat) : argmax (replicate n nan) = 0%nat.
Proof.
  unfold argmax. rewrite length_replicate.
  assert (Hloop : for_loop n
            (fun i '(maxProb, predicted) =>
               if maxProb <? get (replicate n nan) i
               then (get (replicate n nan) i, i) else (maxProb, predicted))
            (-1, 0%nat) = (-1, 0%nat)).
  { generalize n at 2 3. intros m. induction n as [|n IH]; [reflexivity|].
    rewrite for_loop_S, IH. rewrite get_replicate_nan. reflexivity. }
  rewrite Hloop. reflexivity.
Qed.

Lemma softmax_nan (n : nat) :
  Math_exp nan = nan -> softmax (replicate n nan) = replicate n nan.
Proof.
  intros Hexp. unfold softmax. cbn zeta.
  set (maxVal := num_max _). set (sumExp := sum_of _).
  rewrite (fmap_replicate (fun v => num_exp (num_sub v maxVal))).
  rewrite (fmap_replicate (fun v => num_div v sumExp)). f_equal.
  change (Math_exp (nan - maxVal) / sumExp = nan).
  rewrite sub_nan_l, Hexp. apply div_nan_l.
Qed.

(** X11: on weights built by [initializeWeights] with at least one layer
    and a positive embedDim, a forward pass over a non-empty sequence that
    returns has logits that are embedDim NaN (as many as [output.W] has
    rows, not one per token of the vocabulary), and every layer records a
    feed-forward output of 2 * embedDim NaN per position. With a
    [Math.exp] that maps NaN to NaN, as ECMAScript requires, the
    probabilities are NaN as well and the predicted token is 0. *)
Theorem forward_on_initialized_weights (vocabSize : nat) (config : ModelConfig)
    (w : Weights) (toks : list nat) (tgt : option nat) (r : ForwardResult) :
  initialized vocabSize config w ->
  (1 <= numLayers config)%nat -> (1 <= embedDim config)%nat ->
  toks <> [] ->
  forward toks w tgt = Return r ->
  logits r = replicate (embedDim config) nan /\
  Forall (fun out => ffnOutput out
                     = replicate (length toks) (replicate (2 * embedDim config) nan))
         (layerOutputs r) /\
  (Math_exp nan = nan ->
   probabilities r = replicate (embedDim config) nan /\ predictedToken r = 0%nat).
Proof.
  intros Hinit HL HE Hne Hrun.
  destruct (initialized_shape _ _ _ Hinit) as (HlenE & HrowsE & HlenL & Hls & HlenW & HrowsW & _).
  pose proof (proj2 (proj2 (proj2 (forward_shape _ _ _ _ Hrun)))) as Hin.
  unfold forward in Hrun.
  destruct (js_mapM _ toks) as [c0|] eqn:Hc0; cbn [mbind js_bind] in Hrun; [|discriminate].
  assert (Hlen0 : length c0 = length toks) by exact (js_mapM_length _ _ _ Hc0).
  assert (Hrows0 : Forall (fun x => length x = embedDim config) c0).
  { apply Forall_forall. intros x Hx. apply list_elem_of_lookup in Hx as [i Hi].
    destruct (Forall2_lookup_r _ _ _ _ _ (js_mapM_Forall2 _ _ _ Hc0) Hi) as (t & _ & Ht).
    destruct (embeddings w !! t) as [e|] eqn:He; [|discriminate]. injection Ht as <-.
    rewrite Forall_lookup in HrowsE. exact (HrowsE t e He). }
  unfold layersForward in Hrun.
  destruct (js_fold _ (layers w) (c0, [])) as [[c outs]|] eqn:Hfold;
    cbn [mbind js_bind] in Hrun; [|discriminate].
  destruct (layers w) as [|layer ls] eqn:Hlayers; [cbn in HlenL; lia|].
  destruct (layers_fold_nan _ _ _ ls layer c0 c [] outs Hls HE Hrows0 Hfold)
    as (Hc & new & Hnew & Hall).
  cbn [app] in Hnew. subst new. rewrite Hlen0 in Hc, Hall.
  destruct toks as [|t toks'] eqn:Htoks; [congruence|]. rewrite <- Htoks in *.
  assert (Hlast : at_pred c (length toks) = Some (replicate (embedDim config) nan)).
  { rewrite Hc, Htoks. cbn [length at_pred]. apply lookup_replicate_2. lia. }
  rewrite Hlast in Hrun. cbn [project mbind js_bind] in Hrun.
  assert (Hvocab : (1 <= vocabSize)%nat).
  { rewrite Htoks in Hin. apply Forall_inv in Hin. lia. }
  assert (Hlogits : vecAdd (matVecMul (output_W (output w)) (replicate (embedDim config) nan))
                      (output_b (output w))
                    = replicate (embedDim config) nan).
  { rewrite matVecMul_nan_vector.
    - rewrite HlenW. apply vecAdd_nan_l.
    - eapply Forall_impl; [exact HrowsW|]. intros x Hx Hnil. cbn beta in Hx.
      rewrite Hnil in Hx. cbn in Hx. lia. }
  rewrite Hlogits in Hrun. injection Hrun as <-.
  cbn [logits layerOutputs probabilities predictedToken].
  split; [reflexivity|]. split; [exact Hall|].
  intros Hexp. rewrite (softmax_nan _ Hexp). split; [reflexivity | apply argmax_nan].
Qed.
End ForwardInitialized.

Lemma forward_on_initialized_weights_witness :
  logits (returned no_result (forward (H := ref_host) [0; 1] small_weights (Some 0%nat)))
  = [nan; nan] /\
  predictedToken (returned no_result (forward (H := ref_host) [0; 1] small_weights (Some 0%nat)))
  = 0%nat.
Proof.
  destruct (forward_on_initialized_weights (H := ref_host) 3 small_config small_weights
              [0; 1] (Some 0%nat)
              (returned no_result (forward (H := ref_host) [0; 1] small_weights (Some 0%nat))))
    as (Hlogits & _ & Hprobs).
  - exists 0%nat. reflexivity.
  - simpl. lia.
  - simpl. lia.
  - discriminate.
  - vm_compute. reflexivity.
  - split; [exact Hlogits|]. exact (proj2 (Hprobs eq_refl)).
Defined.

(** *** trainStep: when it returns, and the output layer it returns *)

Section TrainStepRuns.
Context `{Host}.
Local Open Scope float_scope.

Lemma at_pred_last {A} (l : list A) : at_pred l (length l) = last l.
Proof. rewrite last_lookup. destruct l; reflexivity. Qed.

Lemma imap_imap {A B C} (f : nat -> B -> C) (g : nat -> A -> B) (l : list A) :
  imap f (imap g l) = imap (fun i x => f i (g i x)) l.
Proof.
  apply list_eq. intros i. rewrite !list_lookup_imap. destruct (l !! i); reflexivity.
Qed.

(** the loop over [d]: the rows below [n] are updated, each once *)
Lemma output_rows_loop_value (f : nat -> vec -> vec) (n : nat) (W : mat) :
  (n <= length W)%nat ->
  js_fold (fun d W => r ← defined (W !! d); Return (<[d := f d r]> W)) (seq 0 n) W
  = Return (imap (fun d r => if (d <? n)%nat then f d r else r) W).
Proof.
  induction n as [|n IH]; intros Hn.
  - cbn [seq js_fold]. f_equal. apply list_eq. intros i. rewrite list_lookup_imap.
    destruct (W !! i); reflexivity.
  - rewrite seq_S, js_fold_app, IH by lia. cbn [mbind js_bind js_fold Nat.add].
    destruct (lookup_lt_is_Some_2 W n ltac:(lia)) as [r Hr].
    rewrite list_lookup_imap, Hr. cbn [fmap option_fmap option_map defined mbind js_bind].
    rewrite Nat.ltb_irrefl. f_equal. apply list_eq. intros i.
    rewrite list_lookup_imap. destruct (decide (i = n)) as [-> | Hi].
    + rewrite list_lookup_insert_eq by (rewrite length_imap; lia).
      rewrite Hr. cbn [fmap option_fmap option_map].
      rewrite (proj2 (Nat.ltb_lt n (S n))) by lia. reflexivity.
    + rewrite list_lookup_insert_ne by congruence. rewrite list_lookup_imap.
      destruct (W !! i) as [x|]; [|reflexivity]. cbn [fmap option_fmap option_map].
      destruct (Nat.ltb_spec i n), (Nat.ltb_spec i (S n)); try reflexivity; lia.
Qed.

(** the output layer after the passes for the first [n] tokens of the
    vocabulary *)
Lemma updateOutput_loop (probs h : vec) (tgt : nat) (lr : float) (o : OutputLayer) (n : nat) :
  (length h <= length (output_W o))%nat ->
  js_fold
    (fun v o =>
       let error := (if (v =? tgt)%nat then 1 else 0) - get probs v in
       h ← defined (Some h);
       W' ← js_for (length h)
              (fun d W =>
                 r ← defined (W !! d);
                 Return (<[d := add_at r v (lr * error * get h d)]> W))
              (output_W o);
       Return {| output_W := W';
                 output_b := add_at (output_b o) v (lr * error) |})
    (seq 0 n) o
  = Return
      {| output_W :=
           imap (fun d r =>
                   if (d <? length h)%nat
                   then for_loop n
                          (fun v r =>
                             add_at r v
                               (lr * ((if (v =? tgt)%nat then 1 else 0) - get probs v)
                                * get h d)) r
                   else r) (output_W o);
         output_b :=
           for_loop n
             (fun v b => add_at b v (lr * ((if (v =? tgt)%nat then 1 else 0) - get probs v)))
             (output_b o) |}.
Proof.
  intros Hh. induction n as [|n IH].
  - cbn [seq js_fold]. destruct o as [W b]. cbn [output_W output_b]. f_equal. f_equal.
    apply list_eq. intros i. rewrite list_lookup_imap.
    destruct (W !! i); cbn [fmap option_fmap option_map]; [|reflexivity].
    destruct (i <? length h)%nat; reflexivity.
  - rewrite seq_S, js_fold_app, IH. cbn [mbind js_bind js_fold Nat.add defined].
    cbn [output_W output_b]. unfold js_for.
    rewrite (output_rows_loop_value
               (fun d r => add_at r n
                             (lr * ((if (n =? tgt)%nat then 1 else 0) - get probs n) * get h d)))
      by (rewrite length_imap; exact Hh).
    cbn [mbind js_bind]. f_equal. f_equal.
    + rewrite imap_imap. apply imap_ext. intros d r _. cbn beta.
      destruct (d <? length h)%nat; [|reflexivity]. rewrite for_loop_S. reflexivity.
    + rewrite for_loop_S. reflexivity.
Qed.

Lemma updateOutput_value (probs : vec) (h : vec) (tgt : nat) (lr : float) (o : OutputLayer) :
  (length h <= length (output_W o))%nat ->
  updateOutput probs (Some h) tgt lr o
  = Return
      {| output_W :=
           imap (fun d r =>
                   if (d <? length h)%nat
                   then for_loop (length probs)
                          (fun v r =>
                             add_at r v
                               (lr * ((if (v =? tgt)%nat then 1 else 0) - get probs v)
                                * get h d)) r
                   else r) (output_W o);
         output_b :=
           for_loop (length probs)
             (fun v b => add_at b v (lr * ((if (v =? tgt)%nat then 1 else 0) - get probs v)))
             (output_b o) |}.
Proof. intros Hh. unfold updateOutput, js_for. apply updateOutput_loop. exact Hh. Qed.

Lemma updateOutput_no_probs (lastHidden : option vec) (tgt : nat) (lr : float)
    (o : OutputLayer) :
  updateOutput [] lastHidden tgt lr o = Return o.
Proof. reflexivity. Qed.

Lemma updateEmbeddings_returns (toks : list nat) (lr : float) (E : mat) (k : nat) :
  Forall (fun t => (t < length E)%nat) toks ->
  exists E' k', updateEmbeddings toks lr E k = Return (E', k').
Proof.
  unfold updateEmbeddings. revert E k. induction toks as [|t toks IH]; intros E k Hin;
    cbn [js_fold]; [eauto|].
  inversion Hin as [|? ? Ht Hrest]; subst.
  destruct (lookup_lt_is_Some_2 E t Ht) as [r ->]. cbn [defined mbind js_bind].
  destruct (for_loop (length r) _ (r, k)) as [r' k1]. cbn [mbind js_bind].
  apply IH. rewrite length_insert. exact Hrest.
Qed.

(** the record of the last layer and the vector [trainStep] reads from it *)
Lemma last_record (toks : list nat) (w : Weights) (tgt : option nat) (r : ForwardResult)
    (layer : TransformerLayer) :
  forward toks w tgt = Return r -> last (layers w) = Some layer ->
  exists lo, last (layerOutputs r) = Some lo /\
    length (ffnOutput lo) = length toks /\
    Forall (fun x => length x = length (W2 (ffn layer))) (ffnOutput lo).
Proof.
  intros Hr Hlast.
  destruct (forward_shape _ _ _ _ Hr) as (_ & Hrows & _).
  pose proof (Forall2_last _ _ _ Hrows) as Hl. rewrite Hlast in Hl.
  inversion Hl as [? lo [Hlen Hw] Heq1 Heq2|]; subst. exists lo. auto.
Qed.

(** X13: [trainStep] returns exactly when its forward pass returns, the
    weights have a layer, and either [output.W] is empty or the sequence
    is non-empty and the last layer's W2 has no more rows than [output.W];
    in every other case it throws a TypeError. *)
Theorem trainStep_returns_iff (toks : list nat) (tgt : nat) (w : Weights) (lr : float)
    (k : nat) :
  (exists tr k', trainStep toks tgt w lr k = Return (tr, k')) <->
  (exists r, forward toks w (Some tgt) = Return r) /\
  exists layer, last (layers w) = Some layer /\
    (output_W (output w) = [] \/
     (toks <> [] /\ (length (W2 (ffn layer)) <= length (output_W (output w)))%nat)).
Proof.
  unfold trainStep. split.
  - intros (tr & k' & Hrun).
    destruct (forward toks w (Some tgt)) as [r|] eqn:Hr; cbn [mbind js_bind] in Hrun;
      [|discriminate].
    split; [eauto|].
    destruct (last (layers w)) as [layer|] eqn:Hlast.
    2:{ apply last_None in Hlast.
        rewrite (forward_no_layers _ _ _ _ Hlast Hr) in Hrun. discriminate. }
    exists layer. split; [reflexivity|].
    destruct (last_record _ _ _ _ _ Hr Hlast) as (lo & Hlo & Hlen & Hw).
    rewrite at_pred_last, Hlo in Hrun. cbn [defined mbind js_bind] in Hrun.
    destruct (forward_shape _ _ _ _ Hr) as (_ & _ & Hprobs & _).
    destruct (decide (output_W (output w) = [])) as [HW | HW]; [left; exact HW|]. right.
    assert (HP : (0 < length (probabilities r))%nat).
    { rewrite Hprobs. destruct (output_W (output w)); [congruence | cbn; lia]. }
    destruct (updateOutput _ _ _ _ _) as [o|] eqn:Hout; cbn [mbind js_bind] in Hrun;
      [|discriminate].
    destruct toks as [|t toks'].
    + exfalso. destruct (ffnOutput lo); [|discriminate]. cbn [length at_pred] in Hout.
      rewrite updateOutput_throws in Hout; [discriminate | exact HP | exact I].
    + split; [discriminate|].
      destruct (at_pred (ffnOutput lo) (length (t :: toks'))) as [h|] eqn:Hh.
      2:{ cbn [length at_pred] in Hh. apply lookup_ge_None in Hh. cbn in Hlen. lia. }
      destruct (Nat.le_gt_cases (length h) (length (output_W (output w)))) as [Hle | Hgt].
      * cbn [length at_pred] in Hh. rewrite Forall_lookup in Hw.
        rewrite <- (Hw _ _ Hh). exact Hle.
      * rewrite updateOutput_throws in Hout; [discriminate | exact HP | exact Hgt].
  - intros ([r Hr] & layer & Hlast & Hcond). rewrite Hr. cbn [mbind js_bind].
    destruct (last_record _ _ _ _ _ Hr Hlast) as (lo & Hlo & Hlen & Hw).
    rewrite at_pred_last, Hlo. cbn [defined mbind js_bind].
    destruct (forward_shape _ _ _ _ Hr) as (_ & _ & Hprobs & Hin).
    assert (Hout : exists o, updateOutput (probabilities r)
                               (at_pred (ffnOutput lo) (length toks)) tgt lr (output w)
                             = Return o).
    { destruct Hcond as [HW | [Hne Hle]].
      - rewrite HW in Hprobs. destruct (probabilities r); [|discriminate].
        rewrite updateOutput_no_probs. eauto.
      - destruct toks as [|t toks']; [congruence|]. cbn [length at_pred].
        destruct (lookup_lt_is_Some_2 (ffnOutput lo) (length toks') ltac:(cbn in Hlen; lia))
          as [h Hh].
        rewrite Hh, updateOutput_value; [eauto|].
        rewrite Forall_lookup in Hw. rewrite (Hw _ _ Hh). exact Hle. }
    destruct Hout as [o ->]. cbn [mbind js_bind].
    destruct (updateEmbeddings_returns toks lr (embeddings w) k Hin) as (E' & k' & ->).
    cbn. eauto.
Qed.
End TrainStepRuns.

Lemma trainStep_returns_iff_witness :
  (exists tr k', trainStep (H := ref_host) [0; 1] 1 steep_weights 0.1%float 0 = Return (tr, k')) /\
  ~ (exists tr k', trainStep (H := ref_host) [0; 1] 0 small_weights 0.1%float 0 = Return (tr, k')).
Proof.
  split.
  - apply (proj2 (trainStep_returns_iff (H := ref_host) [0; 1] 1 steep_weights 0.1%float 0)).
    split; [eexists; vm_compute; reflexivity|].
    eexists. split; [reflexivity|]. right. split; [discriminate | cbn; lia].
  - intros Hr.
    destruct (proj1 (trainStep_returns_iff (H := ref_host) [0; 1] 0 small_weights 0.1%float 0) Hr)
      as (_ & layer & Hlast & Hcond).
    vm_compute in Hlast. injection Hlast as <-.
    destruct Hcond as [HW | [_ Hle]]; [vm_compute in HW; discriminate|].
    vm_compute in Hle. lia.
Defined.

Section TrainStepOutput.
Context `{Host}.
Local Open Scope float_scope.

Lemma get_for_loop_add_at (f : nat -> float) (n v : nat) (x : vec) :
  (n <= length x)%nat -> (v < n)%nat ->
  get (for_loop n (fun d x => add_at x d (f d)) x) v = get x v + f v.
Proof.
  intros Hn Hv. rewrite for_loop_add_at by exact Hn. unfold get.
  rewrite list_lookup_imap.
  destruct (lookup_lt_is_Some_2 x v ltac:(lia)) as [y ->]. cbn [fmap option_fmap option_map default].
  rewrite (proj2 (Nat.ltb_lt v n) Hv). reflexivity.
Qed.

(** X14: when [trainStep] returns, the result carries the forward pass and
    its loss, the layers are those of the input, and the output layer is
    the input's after, for every index v of the probabilities, adding
    learningRate * error_v to b[v] and learningRate * error_v * lastHidden[d]
    to W[d][v] for every index d of [lastHidden], where error_v is
    (1 if v is the target, else 0) minus the probability of v, and
    [lastHidden] is the row the last layer recorded as its feed-forward
    output at the last position. Rows of W from the length of [lastHidden]
    on are unchanged. *)
Theorem trainStep_output_update (toks : list nat) (tgt : nat) (w : Weights) (lr : float)
    (k k' : nat) (tr : TrainResult) :
  trainStep toks tgt w lr k = Return (tr, k') ->
  exists r lo,
    forward toks w (Some tgt) = Return r /\ last (layerOutputs r) = Some lo /\
    result tr = r /\ train_loss tr = loss r /\ layers (newWeights tr) = layers w /\
    let lastHidden := row (ffnOutput lo) (length toks - 1) in
    let error := fun v => (if (v =? tgt)%nat then 1 else 0) - get (probabilities r) v in
    let P := length (probabilities r) in
    output_b (output (newWeights tr))
    = for_loop P (fun v b => add_at b v (lr * error v)) (output_b (output w)) /\
    output_W (output (newWeights tr))
    = imap (fun d x =>
              if (d <? length lastHidden)%nat
              then for_loop P (fun v x => add_at x v (lr * error v * get lastHidden d)) x
              else x) (output_W (output w)) /\
    ((P <= length (output_b (output w)))%nat ->
     forall v, (v < P)%nat ->
       get (output_b (output (newWeights tr))) v
       = get (output_b (output w)) v + lr * error v) /\
    (forall d v x, output_W (output w) !! d = Some x ->
       (d < length lastHidden)%nat -> (P <= length x)%nat -> (v < P)%nat ->
       get (row (output_W (output (newWeights tr))) d) v
       = get x v + lr * error v * get lastHidden d).
Proof.
  intros Hrun. unfold trainStep in Hrun.
  destruct (forward toks w (Some tgt)) as [r|] eqn:Hr; cbn [mbind js_bind] in Hrun;
    [|discriminate].
  rewrite at_pred_last in Hrun.
  destruct (last (layerOutputs r)) as [lo|] eqn:Hlo; cbn [defined mbind js_bind] in Hrun;
    [|discriminate].
  destruct (updateOutput _ _ _ _ _) as [o|] eqn:Hout; cbn [mbind js_bind] in Hrun;
    [|discriminate].
  destruct (updateEmbeddings _ _ _ _) as [[E k1]|]; cbn [mbind js_bind] in Hrun;
    [|discriminate].
  injection Hrun as <- <-. cbn [result train_loss newWeights layers output].
  exists r, lo. split; [reflexivity|]. split; [exact Hlo|]. do 3 (split; [reflexivity|]).
  destruct (forward_shape _ _ _ _ Hr) as (_ & _ & Hprobs & _).
  set (h := row (ffnOutput lo) (length toks - 1)).
  set (error := fun v => (if (v =? tgt)%nat then 1 else 0) - get (probabilities r) v).
  assert (Hval : o = {| output_W :=
                          imap (fun d x =>
                                  if (d <? length h)%nat
                                  then for_loop (length (probabilities r))
                                         (fun v x => add_at x v (lr * error v * get h d)) x
                                  else x) (output_W (output w));
                        output_b :=
                          for_loop (length (probabilities r))
                            (fun v b => add_at b v (lr * error v)) (output_b (output w)) |}).
  { destruct (decide (probabilities r = [])) as [Hp | Hp].
    - rewrite Hp, updateOutput_no_probs in Hout. injection Hout as <-.
      rewrite Hp in Hprobs. rewrite Hp. cbn [length] in *.
      destruct (output w) as [W b]. cbn [output_W output_b] in *.
      destruct W; [reflexivity | discriminate].
    - assert (HP : (0 < length (probabilities r))%nat).
      { destruct (probabilities r); [congruence | cbn; lia]. }
      destruct (at_pred (ffnOutput lo) (length toks)) as [h'|] eqn:Hh'.
      2:{ rewrite updateOutput_throws in Hout; [discriminate | exact HP | exact I]. }
      assert (Hh : h = h').
      { unfold h, row. destruct toks as [|t toks']; [discriminate|].
        cbn [length at_pred] in Hh'.
        replace (length (t :: toks') - 1)%nat with (length toks') by (cbn; lia).
        rewrite Hh'. reflexivity. }
      rewrite <- Hh in *.
      destruct (Nat.le_gt_cases (length h) (length (output_W (output w)))) as [Hle | Hgt].
      + rewrite (updateOutput_value _ _ _ _ _ Hle) in Hout. injection Hout as <-. reflexivity.
      + rewrite updateOutput_throws in Hout; [discriminate | exact HP | exact Hgt]. }
  rewrite Hval. cbn [output_W output_b].
  split; [reflexivity|]. split; [reflexivity|]. split.
  - intros HPb v Hv. apply (get_for_loop_add_at (fun v => lr * error v)); assumption.
  - intros d v x Hx Hd HPx Hv. unfold row at 1. rewrite list_lookup_imap, Hx.
    cbn [fmap option_fmap option_map default]. rewrite (proj2 (Nat.ltb_lt d (length h)) Hd).
    apply (get_for_loop_add_at (fun v => lr * error v * get h d)); assumption.
Qed.
End TrainStepOutput.

Lemma trainStep_output_update_witness :
  exists tr k',
    trainStep (H := ref_host) [0; 1] 1 steep_weights 0.1%float 0 = Return (tr, k') /\
    exists r, forward (H := ref_host) [0; 1] steep_weights (Some 1%nat) = Return r /\
      get (output_b (output (newWeights tr))) 1
      = (get (output_b (output steep_weights)) 1
         + 0.1 * (1 - get (probabilities r) 1))%float.
Proof.
  eexists _, _. split; [vm_compute; reflexivity|].
  edestruct (trainStep_output_update (H := ref_host) [0; 1] 1 steep_weights 0.1%float 0)
    as (r & lo & Hr & _ & _ & _ & _ & _ & _ & Hb & _); [vm_compute; reflexivity|].
  exists r. split; [exact Hr|].
  apply (Hb ltac:(rewrite (proj1 (proj2 (proj2 (forward_shape _ _ _ _ Hr)))); cbn; lia) 1%nat).
  rewrite (proj1 (proj2 (proj2 (forward_shape _ _ _ _ Hr)))). cbn. lia.
Defined.

(** *** The predicted token *)

Section Prediction.
Local Open Scope float_scope.

Lemma compare_cont_Eq (p q : positive) : PosDef.Pos.compare_cont Eq p q = (p ?= q)%positive.
Proof. reflexivity. Qed.

Lemma SFcompare_Lt_trans (x y z : spec_float) :
  SFcompare x y = Some Lt -> SFcompare y z = Some Lt -> SFcompare x z = Some Lt.
Proof.
  intros Hxy Hyz.
  destruct x as [sx|sx| |sx mx ex], y as [sy|sy| |sy my ey], z as [sz|sz| |sz mz ez];
    cbn in *; try discriminate;
    repeat match goal with s : bool |- _ => destruct s end; cbn in *;
    try discriminate; try reflexivity;
    rewrite ?compare_cont_Eq in *; order_cases; subst;
    try discriminate; try reflexivity; try lia.
Qed.

(** [y] is at most [x], and [x] is below [z] *)
Lemma SFcompare_le_Lt_trans (x y z : spec_float) :
  SFcompare x y <> Some Lt -> y <> S754_nan ->
  SFcompare x z = Some Lt -> SFcompare y z = Some Lt.
Proof.
  intros Hxy Hy Hxz.
  destruct x as [sx|sx| |sx mx ex], y as [sy|sy| |sy my ey], z as [sz|sz| |sz mz ez];
    cbn in *; try discriminate; try congruence;
    repeat match goal with s : bool |- _ => destruct s end; cbn in *;
    try discriminate; try reflexivity; try congruence;
    rewrite ?compare_cont_Eq in *; order_cases; subst;
    try discriminate; try reflexivity; try congruence; try lia.
Qed.

Lemma ltb_trans (x y z : float) : (x <? y) = true -> (y <? z) = true -> (x <? z) = true.
Proof.
  rewrite !ltb_compare. apply SFcompare_Lt_trans.
Qed.

Lemma ltb_irrefl (x : float) : (x <? x) = false.
Proof.
  destruct (x <? x) eqn:Hx; [|reflexivity]. pose proof (ltb_asym x x Hx). congruence.
Qed.

Lemma nlt_ltb_trans (x y z : float) :
  (x <? y) = false -> is_nan y = false -> (x <? z) = true -> (y <? z) = true.
Proof.
  intros Hxy Hy Hxz. apply ltb_compare. apply ltb_compare in Hxz.
  apply (SFcompare_le_Lt_trans (Prim2SF x)); [| |exact Hxz].
  - intros Hlt. apply ltb_compare in Hlt. congruence.
  - intros Hn. apply is_nan_Prim2SF in Hn. congruence.
Qed.

(** the state of the loop that finds the predicted token, after [n] passes *)
Lemma argmax_loop (p : vec) (n : nat) :
  let st := for_loop n
              (fun i '(maxProb, predicted) =>
                 if maxProb <? get p i then (get p i, i) else (maxProb, predicted))
              (-1, 0%nat) in
  (fst st = -1 /\ snd st = 0%nat /\ forall j, (j < n)%nat -> (-1 <? get p j) = false) \/
  ((snd st < n)%nat /\ fst st = get p (snd st) /\ (-1 <? fst st) = true /\
   (forall j, (j < n)%nat -> (fst st <? get p j) = false) /\
   (forall j, (j < snd st)%nat ->
      (get p j <? fst st) = true \/ is_nan (get p j) = true)).
Proof.
  induction n as [|n IH]; cbn zeta in *.
  - left. split; [reflexivity|]. split; [reflexivity|]. intros j Hj. lia.
  - rewrite for_loop_S.
    destruct (for_loop n _ (-1, 0%nat)) as [m t]. cbn [fst snd] in IH.
    destruct (m <? get p n) eqn:Hcmp; cbn [fst snd].
    + right. split; [lia|]. split; [reflexivity|].
      assert (Hone : (-1 <? get p n) = true).
      { destruct IH as [(-> & _ & _) | (_ & _ & Hm & _)]; [exact Hcmp|].
        exact (ltb_trans _ _ _ Hm Hcmp). }
      split; [exact Hone|]. split.
      * intros j Hj. destruct (decide (j = n)) as [-> | Hne]; [apply ltb_irrefl|].
        destruct (get p n <? get p j) eqn:Hnj; [|reflexivity].
        pose proof (ltb_trans _ _ _ Hcmp Hnj) as Hmj.
        destruct IH as [(-> & _ & Hall) | (_ & _ & _ & Hall & _)];
          rewrite Hall in Hmj by lia; discriminate.
      * intros j Hj. destruct (is_nan (get p j)) eqn:Hnan; [right; reflexivity|]. left.
        apply (nlt_ltb_trans m); [|exact Hnan | exact Hcmp].
        destruct IH as [(-> & _ & Hall) | (_ & _ & _ & Hall & _)]; apply Hall; lia.
    + destruct IH as [(Hm & Ht & Hall) | (Ht & Hm & Hone & Hall & Hfirst)].
      * left. split; [exact Hm|]. split; [exact Ht|]. intros j Hj.
        destruct (decide (j = n)) as [-> | Hne]; [rewrite <- Hm; exact Hcmp | apply Hall; lia].
      * right. split; [lia|]. split; [exact Hm|]. split; [exact Hone|]. split; [|exact Hfirst].
        intros j Hj. destruct (decide (j = n)) as [-> | Hne]; [exact Hcmp | apply Hall; lia].
Qed.
End Prediction.

Section PredictedToken.
Context `{Host}.
Local Open Scope float_scope.

(** X15: the predicted token of a forward pass. When some probability
    exceeds -1, the predicted token indexes the probabilities, no
    probability is larger than its own, and every earlier one is smaller
    or NaN: it is the first index of a largest probability. When none
    does (the probabilities are empty, or all NaN), it is token 0. *)
Theorem predictedToken_first_largest (toks : list nat) (w : Weights) (tgt : option nat)
    (r : ForwardResult) :
  forward toks w tgt = Return r ->
  ((exists i, (-1 <? get (probabilities r) i) = true) ->
   (predictedToken r < length (probabilities r))%nat /\
   (forall i, (get (probabilities r) (predictedToken r) <? get (probabilities r) i) = false) /\
   (forall j, (j < predictedToken r)%nat ->
      (get (probabilities r) j <? get (probabilities r) (predictedToken r)) = true \/
      is_nan (get (probabilities r) j) = true)) /\
  ((forall i, (-1 <? get (probabilities r) i) = false) -> predictedToken r = 0%nat).
Proof.
  intros Hr.
  assert (Hpred : predictedToken r = argmax (probabilities r)).
  { unfold forward in Hr.
    destruct (js_mapM _ toks) as [c0|]; cbn [mbind js_bind] in Hr; [|discriminate].
    destruct (layersForward _ _) as [[c outs]|]; cbn [mbind js_bind] in Hr; [|discriminate].
    destruct (project _ _) as [pr|]; cbn [mbind js_bind] in Hr; [|discriminate].
    injection Hr as <-. reflexivity. }
  rewrite Hpred. unfold argmax.
  pose proof (argmax_loop (probabilities r) (length (probabilities r))) as Hloop.
  cbn zeta in Hloop.
  destruct (for_loop (length (probabilities r)) _ (-1, 0%nat)) as [m t]. cbn [fst snd] in *.
  assert (Hbeyond : forall x i, (length (probabilities r) <= i)%nat ->
                      (x <? get (probabilities r) i) = false).
  { intros x i Hi. rewrite get_beyond by exact Hi.
    destruct (x <? nan) eqn:Hx; [|reflexivity].
    destruct (ltb_not_nan _ _ Hx) as [_ Hn]. discriminate. }
  split.
  - intros [i Hi].
    destruct Hloop as [(_ & _ & Hall) | (Ht & Hm & _ & Hall & Hfirst)].
    + destruct (Nat.lt_ge_cases i (length (probabilities r))) as [Hlt | Hge].
      * rewrite (Hall i Hlt) in Hi. discriminate.
      * rewrite (Hbeyond _ i Hge) in Hi. discriminate.
    + split; [exact Ht|]. rewrite <- Hm. split; [|exact Hfirst].
      intros j. destruct (Nat.lt_ge_cases j (length (probabilities r))) as [Hlt | Hge];
        [apply Hall; exact Hlt | apply Hbeyond; exact Hge].
  - intros Hnone. destruct Hloop as [(_ & Ht & _) | (_ & Hm & Hone & _)]; [exact Ht|].
    rewrite Hm, Hnone in Hone. discriminate.
Qed.
End PredictedToken.

Lemma predictedToken_first_largest_witness :
  exists r, forward (H := ref_host) [0; 1] steep_weights None = Return r /\
    (predictedToken r < length (probabilities r))%nat /\
    (get (probabilities r) (predictedToken r) <? get (probabilities r) 1)%float = false.
Proof.
  eexists. split; [vm_compute; reflexivity|].
  edestruct (proj1 (predictedToken_first_largest (H := ref_host) [0; 1] steep_weights None _
                      ltac:(vm_compute; reflexivity))) as (Hlt & Hmax & _).
  - exists 0%nat. vm_compute. reflexivity.
  - split; [exact Hlt | exact (Hmax 1%nat)].
Defined.

(** *** The vocabulary object *)

Section VocabularyObject.

Lemma own_Some (v : vocabulary) (word : jsstring) (id : nat) :
  own v word = Some id -> (word, id) ∈ v.
Proof.
  unfold own. destruct (find _ v) as [[w i]|] eqn:Hf; [|discriminate].
  intros [= <-]. apply find_some in Hf as [Hin Hw]. cbn in Hw.
  apply bool_decide_eq_true in Hw as <-. apply list_elem_of_In. exact Hin.
Qed.

Lemma own_None (v : vocabulary) (word : jsstring) :
  own v word = None <-> word ∉ map fst v.
Proof.
  unfold own. split.
  - destruct (find _ v) as [e|] eqn:Hf; [discriminate|]. intros _ Hin.
    apply list_elem_of_fmap in Hin as ([w i] & -> & Hin). apply list_elem_of_In in Hin.
    pose proof (find_none _ _ Hf _ Hin) as Hw. cbn in Hw.
    apply bool_decide_eq_false in Hw. congruence.
  - intros Hnot. destruct (find _ v) as [[w i]|] eqn:Hf; [|reflexivity].
    apply find_some in Hf as [Hin Hw]. cbn in Hw. apply bool_decide_eq_true in Hw as <-.
    exfalso. apply Hnot. apply list_elem_of_fmap. exists (w, i). split; [reflexivity|].
    apply list_elem_of_In. exact Hin.
Qed.

Lemma own_unique (v : vocabulary) (word : jsstring) (id : nat) :
  NoDup (map fst v) -> (word, id) ∈ v -> own v word = Some id.
Proof.
  intros Hnd Hin. destruct (own v word) as [i|] eqn:Hown.
  - apply own_Some in Hown. f_equal.
    apply list_elem_of_lookup in Hown as [a Ha]. apply list_elem_of_lookup in Hin as [b Hb].
    assert (a = b).
    { apply (NoDup_lookup _ a b word Hnd); rewrite list_lookup_fmap.
      - rewrite Ha. reflexivity.
      - rewrite Hb. reflexivity. }
    subst. congruence.
  - exfalso. apply own_None in Hown. apply Hown. apply list_elem_of_fmap.
    exists (word, id). auto.
Qed.

Lemma own_app_l (v : vocabulary) (word : jsstring) (id : nat) (e : jsstring * nat) :
  own v word = Some id -> own (v ++ [e]) word = Some id.
Proof.
  unfold own. induction v as [|[w i] v IH]; [discriminate|]. cbn [app find fst].
  destruct (bool_decide (w = word)); [auto | exact IH].
Qed.

Lemma own_app_new (v : vocabulary) (word : jsstring) (id : nat) :
  own v word = None -> own (v ++ [(word, id)]) word = Some id.
Proof.
  unfold own. induction v as [|[w i] v IH]; cbn [app find fst].
  - intros _. rewrite bool_decide_eq_true_2 by reflexivity. reflexivity.
  - destruct (bool_decide (w = word)); [discriminate | exact IH].
Qed.

Lemma has_property_true (v : vocabulary) (word : jsstring) :
  has_property v word = true <->
  is_Some (own v word) \/ word ∈ Object_prototype_names.
Proof.
  unfold has_property, get_property. rewrite bool_decide_eq_true.
  destruct (own v word) as [id|].
  - split; [intros _; left; eauto | eauto].
  - destruct (bool_decide (word ∈ Object_prototype_names)) eqn:Hp.
    + apply bool_decide_eq_true in Hp. split; [auto | eauto].
    + apply bool_decide_eq_false in Hp. split.
      * intros [x Hx]. discriminate.
      * intros [[x Hx] | Hin]; [discriminate | contradiction].
Qed.

Lemma has_property_false (v : vocabulary) (word : jsstring) :
  has_property v word = false <->
  own v word = None /\ word ∉ Object_prototype_names.
Proof.
  destruct (has_property v word) eqn:Hh.
  - apply has_property_true in Hh. split; [discriminate|].
    intros [Hown Hnot]. destruct Hh as [[x Hx] | Hin]; [congruence | contradiction].
  - split; [|reflexivity]. intros _.
    destruct (own v word) as [id|] eqn:Hown.
    + assert (has_property v word = true) by (apply has_property_true; left; eauto). congruence.
    + split; [reflexivity|]. intros Hin.
      assert (has_property v word = true) by (apply has_property_true; right; exact Hin).
      congruence.
Qed.

Lemma insert_by_index_elem {A} (i : N) (a : A) (l : list (N * A)) (y : N * A) :
  y ∈ insert_by_index i a l <-> y = (i, a) \/ y ∈ l.
Proof.
  induction l as [|[j b] l IH]; cbn [insert_by_index].
  - rewrite list_elem_of_singleton. split; [auto|]. intros [? | Hin]; [assumption | inversion Hin].
  - destruct (i <? j)%N.
    + rewrite elem_of_cons. reflexivity.
    + rewrite !elem_of_cons, IH. tauto.
Qed.

Lemma indexed_entries_elem (v : vocabulary) (acc : list (N * (jsstring * nat)))
    (e : jsstring * nat) :
  e ∈ map snd
        (fold_left
           (fun l e => match array_index (fst e) with
                       | Some i => insert_by_index i e l
                       | None => l
                       end) v acc)
  <-> e ∈ map snd acc \/ (e ∈ v /\ array_index (fst e) <> None).
Proof.
  revert acc. induction v as [|x v IH]; intros acc; cbn [fold_left].
  - split; [auto|]. intros [? | [Hin _]]; [assumption | inversion Hin].
  - rewrite IH, elem_of_cons. destruct (array_index (fst x)) as [i|] eqn:Hx.
    + rewrite !list_elem_of_fmap. split.
      * intros [([j y] & -> & Hy) | [Hin Hidx]].
        -- apply insert_by_index_elem in Hy as [[= -> ->] | Hy].
           ++ right. cbn [snd]. split; [left; reflexivity | congruence].
           ++ left. exists (j, y). auto.
        -- right. split; [right; exact Hin | exact Hidx].
      * intros [([j y] & -> & Hy) | [[-> | Hin] Hidx]].
        -- left. exists (j, y). split; [reflexivity|]. apply insert_by_index_elem. auto.
        -- left. exists (i, x). split; [reflexivity|]. apply insert_by_index_elem. auto.
        -- right. auto.
    + split.
      * intros [Hacc | [Hin Hidx]]; [left; exact Hacc | right; auto].
      * intros [Hacc | [[-> | Hin] Hidx]]; [left; exact Hacc | congruence | right; auto].
Qed.

(** [Object.entries] lists the properties of the object, each one *)
Lemma Object_entries_elem (v : vocabulary) (e : jsstring * nat) :
  e ∈ Object_entries v <-> e ∈ v.
Proof.
  unfold Object_entries. rewrite elem_of_app, indexed_entries_elem, list_elem_of_filter.
  cbn [map]. split.
  - intros [[Hnil | [Hin _]] | [_ Hin]]; [inversion Hnil | exact Hin | exact Hin].
  - intros Hin. destruct (array_index (fst e)) eqn:He.
    + left. right. split; [exact Hin | congruence].
    + right. split; [reflexivity | exact Hin].
Qed.

Lemma same_id_same_entry (v : vocabulary) (e e' : jsstring * nat) :
  NoDup (map snd v) -> e ∈ v -> e' ∈ v -> snd e = snd e' -> e = e'.
Proof.
  intros Hnd He He' Hid.
  apply list_elem_of_lookup in He as [a Ha]. apply list_elem_of_lookup in He' as [b Hb].
  assert (a = b).
  { apply (NoDup_lookup _ a b (snd e) Hnd); rewrite list_lookup_fmap.
    - rewrite Ha. reflexivity.
    - rewrite Hb, Hid. reflexivity. }
  subst. congruence.
Qed.
End VocabularyObject.

(** *** tokenize and detokenize *)

Section TokenRoundTrip.
Context `{StringHost}.

Lemma detokenize_find (tokenId : nat) (v : vocabulary) (e : jsstring * nat) :
  find (fun e => (snd e =? tokenId)%nat) (Object_entries v) = Some e ->
  e ∈ v /\ snd e = tokenId.
Proof.
  intros Hf. apply find_some in Hf as [Hin Hid]. split.
  - apply Object_entries_elem, list_elem_of_In, Hin.
  - apply Nat.eqb_eq. exact Hid.
Qed.

Lemma detokenize_some_entry (tokenId : nat) (v : vocabulary) (word : jsstring) :
  (word, tokenId) ∈ v -> (detokenize tokenId v, tokenId) ∈ v.
Proof.
  intros Hin. unfold detokenize.
  destruct (find _ (Object_entries v)) as [[w i]|] eqn:Hf.
  - apply detokenize_find in Hf as [Hin' Hid]. cbn in Hid. subst i. exact Hin'.
  - exfalso. apply Object_entries_elem, list_elem_of_In in Hin.
    pose proof (find_none _ _ Hf _ Hin) as Hid. cbn in Hid.
    rewrite Nat.eqb_refl in Hid. discriminate.
Qed.

Lemma detokenize_the_entry (tokenId : nat) (v : vocabulary) (word : jsstring) :
  NoDup (map snd v) -> (word, tokenId) ∈ v -> detokenize tokenId v = word.
Proof.
  intros Hnd Hin. pose proof (detokenize_some_entry tokenId v word Hin) as Hin'.
  pose proof (same_id_same_entry v _ _ Hnd Hin' Hin eq_refl). congruence.
Qed.

(** X16: [detokenize] returns the word of a property of the vocabulary
    whose value is the token id: the first in the order of
    [Object.entries], and so the one word when no two words share an id.
    For an id that no word has it returns the id between angle brackets. *)
Theorem detokenize_entries (tokenId : nat) (v : vocabulary) :
  ((forall word, (word, tokenId) ∉ v) ->
   detokenize tokenId v = str "<" ++ Number_toString tokenId ++ str ">") /\
  (forall word, (word, tokenId) ∈ v ->
     (detokenize tokenId v, tokenId) ∈ v /\
     (NoDup (map snd v) -> detokenize tokenId v = word)).
Proof.
  split.
  - intros Hnone. unfold detokenize.
    destruct (find _ (Object_entries v)) as [[w i]|] eqn:Hf; [|reflexivity].
    apply detokenize_find in Hf as [Hin Hid]. cbn in Hid. subst i.
    exfalso. exact (Hnone w Hin).
  - intros word Hin. split; [exact (detokenize_some_entry _ _ _ Hin)|].
    intros Hnd. exact (detokenize_the_entry _ _ _ Hnd Hin).
Qed.

Lemma omap_cons_eq {A B} (f : A -> option B) (x : A) (l : list A) :
  omap f (x :: l) = match f x with Some y => y :: omap f l | None => omap f l end.
Proof. reflexivity. Qed.

Lemma omap_filter_is_Some {A B} (f : A -> option B) (P : A -> Prop)
    `{forall x, Decision (P x)} (l : list A) :
  (forall x, P x <-> is_Some (f x)) -> omap f (filter P l) = omap f l.
Proof.
  intros HP. induction l as [|x l IH]; [reflexivity|].
  rewrite filter_cons, (omap_cons_eq f x l). destruct (decide (P x)) as [Hx | Hx].
  - rewrite omap_cons_eq, IH. reflexivity.
  - rewrite IH. destruct (f x) as [y|] eqn:Hy; [|reflexivity].
    exfalso. apply Hx, HP. eauto.
Qed.

Lemma tokenize_omap (sentence : jsstring) (v : vocabulary) :
  tokenize sentence v = omap (get_property v) (words sentence).
Proof.
  unfold tokenize. apply omap_filter_is_Some. intros word.
  unfold has_property. rewrite bool_decide_eq_true. reflexivity.
Qed.

Lemma get_property_Inherited (v : vocabulary) (word : jsstring) :
  get_property v word = Some Inherited <->
  own v word = None /\ word ∈ Object_prototype_names.
Proof.
  unfold get_property. destruct (own v word) as [id|].
  - split; [discriminate | intros [? _]; discriminate].
  - destruct (bool_decide (word ∈ Object_prototype_names)) eqn:Hp.
    + apply bool_decide_eq_true in Hp. split; auto.
    + apply bool_decide_eq_false in Hp. split; [discriminate | intros [_ ?]; contradiction].
Qed.

Lemma detokenize_token_ids (ws : list jsstring) (v : vocabulary) :
  NoDup (map snd v) ->
  map (fun id => detokenize id v) (token_ids (omap (get_property v) ws))
  = filter (fun word => is_Some (own v word)) ws.
Proof.
  intros Hnd. unfold token_ids. induction ws as [|word ws IH]; [reflexivity|].
  rewrite filter_cons, omap_cons_eq. unfold get_property at 1.
  destruct (own v word) as [id|] eqn:Hown.
  - rewrite omap_cons_eq. cbn [map]. rewrite IH.
    destruct (decide (is_Some (Some id))) as [_ | Hn]; [|exfalso; apply Hn; eauto].
    f_equal. apply own_Some in Hown. exact (detokenize_the_entry _ _ _ Hnd Hown).
  - destruct (decide (is_Some (@None nat))) as [[x Hx] | _]; [discriminate|].
    destruct (bool_decide (word ∈ Object_prototype_names)); [|exact IH].
    rewrite omap_cons_eq. exact IH.
Qed.

(** X17: [tokenize] reads the words of the sentence in order: a word the
    vocabulary holds gives its id, a word it does not hold is dropped, and
    a word that is no key of the vocabulary but names a property of
    [Object.prototype] gives that inherited value, which is no number.
    When no two words of the vocabulary share an id, [detokenize] maps the
    ids of the result back to the words of the sentence the vocabulary
    holds. *)
Theorem detokenize_tokenize (sentence : jsstring) (v : vocabulary) :
  tokenize sentence v = omap (get_property v) (words sentence) /\
  (forall word, get_property v word = Some Inherited <->
                own v word = None /\ word ∈ Object_prototype_names) /\
  (NoDup (map snd v) ->
   map (fun id => detokenize id v) (token_ids (tokenize sentence v))
   = filter (fun word => is_Some (own v word)) (words sentence)).
Proof.
  split; [apply tokenize_omap|]. split; [apply get_property_Inherited|].
  intros Hnd. rewrite tokenize_omap. apply detokenize_token_ids. exact Hnd.
Qed.
End TokenRoundTrip.

Lemma detokenize_entries_witness :
  detokenize (H := ref_strings) 1 [(str "the", 0%nat); (str "cat", 1%nat)] = str "cat" /\
  detokenize (H := ref_strings) 7 [(str "the", 0%nat); (str "cat", 1%nat)] = str "<7>".
Proof.
  split.
  - apply (proj2 (detokenize_entries (H := ref_strings) 1
                    [(str "the", 0%nat); (str "cat", 1%nat)]) (str "cat")).
    + apply (bool_decide_unpack _). vm_compute. exact I.
    + apply (bool_decide_unpack _). vm_compute. exact I.
  - apply (proj1 (detokenize_entries (H := ref_strings) 7
                    [(str "the", 0%nat); (str "cat", 1%nat)])).
    intros word Hin. apply elem_of_cons in Hin as [Hin | Hin]; [discriminate|].
    apply elem_of_cons in Hin as [Hin | Hin]; [discriminate | inversion Hin].
Defined.

Lemma detokenize_tokenize_witness :
  tokenize (H := ref_strings) (str "The cat, the constructor!")
    [(str "the", 0%nat); (str "cat", 1%nat)]
  = [Own 0; Own 1; Own 0; Inherited] /\
  map (fun id => detokenize (H := ref_strings) id [(str "the", 0%nat); (str "cat", 1%nat)])
      (token_ids (tokenize (H := ref_strings) (str "The cat, the constructor!")
                    [(str "the", 0%nat); (str "cat", 1%nat)]))
  = [str "the"; str "cat"; str "the"].
Proof.
  split; [vm_compute; reflexivity|].
  rewrite (proj2 (proj2 (detokenize_tokenize (H := ref_strings)
                           (str "The cat, the constructor!")
                           [(str "the", 0%nat); (str "cat", 1%nat)]))).
  - vm_compute. reflexivity.
  - apply (bool_decide_unpack _). vm_compute. exact I.
Defined.

(** *** The vocabulary of a corpus *)

Section CorpusVocabulary.
Context `{StringHost}.

Lemma addWord_added (word : jsstring) (vocab : vocabulary) (id : nat) :
  word <> [] -> own vocab word = None -> word ∉ Object_prototype_names ->
  addWord word (vocab, id) = (vocab ++ [(word, id)], S id).
Proof.
  intros Hne Hown Hp. unfold addWord.
  rewrite bool_decide_eq_true_2 by exact Hne.
  rewrite (proj2 (has_property_false vocab word) (conj Hown Hp)). reflexivity.
Qed.

Lemma addWord_skipped (word : jsstring) (vocab : vocabulary) (id : nat) :
  word = [] \/ is_Some (own vocab word) \/ word ∈ Object_prototype_names ->
  addWord word (vocab, id) = (vocab, id).
Proof.
  intros Hc. unfold addWord. destruct (bool_decide (word <> [])) eqn:Hne; [|reflexivity].
  apply bool_decide_eq_true in Hne.
  destruct Hc as [-> | Hc]; [congruence|].
  rewrite (proj2 (has_property_true vocab word) Hc). reflexivity.
Qed.

Lemma addWord_cases (word : jsstring) (vocab : vocabulary) (id : nat) :
  (word <> [] /\ own vocab word = None /\ (word ∉ Object_prototype_names) /\
   addWord word (vocab, id) = (vocab ++ [(word, id)], S id)) \/
  ((word = [] \/ is_Some (own vocab word) \/ word ∈ Object_prototype_names) /\
   addWord word (vocab, id) = (vocab, id)).
Proof.
  destruct (decide (word = [])) as [-> | Hne].
  { right. split; [auto|]. apply addWord_skipped. auto. }
  destruct (own vocab word) as [i|] eqn:Hown.
  { right. split; [eauto|]. apply addWord_skipped. rewrite Hown. eauto. }
  destruct (decide (word ∈ Object_prototype_names)) as [Hp | Hp].
  { right. split; [auto|]. apply addWord_skipped. auto. }
  left. split; [exact Hne|]. split; [reflexivity|]. split; [exact Hp|].
  apply addWord_added; assumption.
Qed.

Lemma addWord_well_numbered (word : jsstring) (st : vocabulary * nat) :
  well_numbered st -> well_numbered (addWord word st).
Proof.
  destruct st as [vocab id]. intros (Hid & Hids & Hnd & Hkeys). cbn [fst snd] in *.
  destruct (addWord_cases word vocab id) as [(Hne & Hown & Hp & ->) | (_ & ->)];
    [|repeat split; assumption].
  unfold well_numbered. cbn [fst snd]. rewrite length_app. cbn [length]. subst id.
  split; [lia|]. split; [|split].
  - rewrite map_app, Hids. cbn [map snd]. rewrite Nat.add_1_r, seq_S. reflexivity.
  - rewrite map_app. apply NoDup_app. split; [exact Hnd|]. split; [|apply NoDup_singleton].
    intros x Hx Hx'. apply list_elem_of_singleton in Hx'. subst x.
    apply own_None in Hown. contradiction.
  - apply Forall_app. split; [exact Hkeys|]. repeat constructor; assumption.
Qed.

Lemma addWord_keeps (word w : jsstring) (i : nat) (st : vocabulary * nat) :
  own (fst st) w = Some i -> own (fst (addWord word st)) w = Some i.
Proof.
  destruct st as [vocab id]. cbn [fst]. intros Hw.
  destruct (addWord_cases word vocab id) as [(_ & _ & _ & ->) | (_ & ->)]; cbn [fst];
    [apply own_app_l; exact Hw | exact Hw].
Qed.

Lemma addWord_holds (word : jsstring) (st : vocabulary * nat) :
  word <> [] -> word ∉ Object_prototype_names ->
  is_Some (own (fst (addWord word st)) word).
Proof.
  destruct st as [vocab id]. intros Hne Hp.
  destruct (addWord_cases word vocab id) as [(_ & Hown & _ & ->) | (Hc & ->)]; cbn [fst].
  - rewrite (own_app_new vocab word id Hown). eauto.
  - destruct Hc as [-> | [Hs | Hin]]; [congruence | exact Hs | contradiction].
Qed.

Lemma addWord_from (word : jsstring) (st : vocabulary * nat) (e : jsstring * nat) :
  e ∈ fst (addWord word st) -> e ∈ fst st \/ fst e = word.
Proof.
  destruct st as [vocab id].
  destruct (addWord_cases word vocab id) as [(_ & _ & _ & ->) | (_ & ->)]; cbn [fst];
    [|auto].
  intros He. apply elem_of_app in He as [He | He]; [auto|].
  apply list_elem_of_singleton in He. subst e. auto.
Qed.

Lemma addWords_spec (ws : list jsstring) (st : vocabulary * nat) :
  well_numbered st ->
  let st' := fold_left (fun st word => addWord word st) ws st in
  well_numbered st' /\
  (forall w i, own (fst st) w = Some i -> own (fst st') w = Some i) /\
  (forall word, word ∈ ws -> word <> [] -> word ∉ Object_prototype_names ->
     is_Some (own (fst st') word)) /\
  (forall e, e ∈ fst st' -> e ∈ fst st \/ fst e ∈ ws).
Proof.
  revert st. induction ws as [|word ws IH]; intros st Hst; cbn [fold_left].
  - split; [exact Hst|]. split; [auto|]. split; [|auto]. intros word Hin. inversion Hin.
  - destruct (IH (addWord word st) (addWord_well_numbered word st Hst))
      as (Hwn & Hkeep & Hhold & Hfrom).
    cbn zeta in *. split; [exact Hwn|]. split; [|split].
    + intros w i Hw. apply Hkeep, addWord_keeps, Hw.
    + intros w Hin Hne Hp. apply elem_of_cons in Hin as [-> | Hin].
      * destruct (addWord_holds word st Hne Hp) as [i Hi]. rewrite (Hkeep _ _ Hi). eauto.
      * apply Hhold; assumption.
    + intros e He. destruct (Hfrom e He) as [He' | He'].
      * destruct (addWord_from word st e He') as [? | <-]; [auto|].
        right. apply list_elem_of_here.
      * right. apply list_elem_of_further. exact He'.
Qed.

Lemma corpus_fold_concat {St} (g : St -> jsstring -> St) (corpus : list jsstring) (st : St) :
  fold_left (fun st sentence => fold_left g (words sentence) st) corpus st
  = fold_left g (concat (map words corpus)) st.
Proof.
  revert st. induction corpus as [|s corpus IH]; intros st; cbn [fold_left map concat];
    [reflexivity|].
  rewrite fold_left_app. apply IH.
Qed.

Lemma corpusVocabulary_state (corpus : list jsstring) :
  corpusVocabulary corpus
  = fst (fold_left (fun st word => addWord word st) (concat (map words corpus)) ([], 0%nat)).
Proof. unfold corpusVocabulary. rewrite corpus_fold_concat. reflexivity. Qed.

Lemma corpus_word (corpus : list jsstring) (word : jsstring) :
  word ∈ concat (map words corpus) <->
  exists sentence, sentence ∈ corpus /\ word ∈ words sentence.
Proof.
  rewrite list_elem_of_In, in_concat. split.
  - intros (ws & Hws & Hw). apply in_map_iff in Hws as (s & <- & Hs).
    exists s. split; apply list_elem_of_In; assumption.
  - intros (s & Hs & Hw). exists (words s). split.
    + apply in_map. apply list_elem_of_In. exact Hs.
    + apply list_elem_of_In. exact Hw.
Qed.

Lemma corpusVocabulary_facts (corpus : list jsstring) :
  map snd (corpusVocabulary corpus) = seq 0 (vocabSize_of (corpusVocabulary corpus)) /\
  NoDup (map fst (corpusVocabulary corpus)) /\
  (forall word,
     is_Some (own (corpusVocabulary corpus) word) <->
     word <> [] /\ (word ∉ Object_prototype_names) /\
     exists sentence, sentence ∈ corpus /\ word ∈ words sentence).
Proof.
  rewrite corpusVocabulary_state.
  assert (Hstart : well_numbered ([], 0%nat)).
  { repeat split; cbn; constructor. }
  destruct (addWords_spec (concat (map words corpus)) ([], 0%nat) Hstart)
    as ((_ & Hids & Hnd & Hkeys) & _ & Hhold & Hfrom).
  cbn zeta in *. set (st := fold_left _ _ ([], 0%nat)) in *.
  split; [exact Hids|]. split; [exact Hnd|].
  intros word. split.
  - intros [i Hi]. apply own_Some in Hi.
    rewrite Forall_forall in Hkeys. destruct (Hkeys _ Hi) as [Hne Hp]. cbn [fst] in *.
    split; [exact Hne|]. split; [exact Hp|].
    destruct (Hfrom _ Hi) as [Hnil | Hw]; [inversion Hnil|].
    apply corpus_word. exact Hw.
  - intros (Hne & Hp & Hs). apply Hhold; [|assumption|assumption].
    apply corpus_word. exact Hs.
Qed.

(** X18: the vocabulary extracted from a corpus numbers its words 0, 1,
    2, ... in the order of their first occurrence, so the ids are distinct
    and below the size of the vocabulary, and no word is held twice. It
    holds exactly the non-empty words of the sentences that do not name a
    property of [Object.prototype]: such a word counts as present before
    it is ever assigned, and gets no id. *)
Theorem corpusVocabulary_ids (corpus : list jsstring) :
  let v := corpusVocabulary corpus in
  map snd v = seq 0 (vocabSize_of v) /\
  NoDup (map fst v) /\ NoDup (map snd v) /\
  (forall word,
     is_Some (own v word) <->
     word <> [] /\ (word ∉ Object_prototype_names) /\
     exists sentence, sentence ∈ corpus /\ word ∈ words sentence).
Proof.
  cbn zeta. destruct (corpusVocabulary_facts corpus) as (Hids & Hnd & Hown).
  split; [exact Hids|]. split; [exact Hnd|]. split; [|exact Hown].
  rewrite Hids. apply NoDup_seq.
Qed.
End CorpusVocabulary.

Section CorpusTokens.
Context `{Host} `{StringHost}.

Lemma filter_ext_elem {A} (P Q : A -> Prop) `{forall x, Decision (P x)}
    `{forall x, Decision (Q x)} (l : list A) :
  (forall x, x ∈ l -> P x <-> Q x) -> filter P l = filter Q l.
Proof.
  induction l as [|x l IH]; intros HPQ; [reflexivity|].
  rewrite !filter_cons, IH by (intros y Hy; apply HPQ, list_elem_of_further, Hy).
  pose proof (HPQ x (list_elem_of_here _ _)) as Hx.
  destruct (decide (P x)), (decide (Q x)); tauto.
Qed.

Lemma token_ids_Own (ids : list nat) : token_ids (map Own ids) = ids.
Proof.
  unfold token_ids. induction ids as [|i ids IH]; [reflexivity|].
  cbn [map]. rewrite omap_cons_eq, IH. reflexivity.
Qed.

Lemma tokens_without_inherited (ws : list jsstring) (v : vocabulary) :
  Forall (fun word => word ∉ Object_prototype_names) ws ->
  omap (get_property v) ws = map Own (omap (own v) ws).
Proof.
  induction 1 as [|word ws Hp _ IH]; [reflexivity|].
  rewrite !omap_cons_eq. unfold get_property at 1.
  destruct (own v word) as [id|]; [cbn [map]; rewrite IH; reflexivity|].
  rewrite bool_decide_eq_false_2 by exact Hp. exact IH.
Qed.

(** X19: with the vocabulary extracted from the corpus, a sentence of the
    corpus none of whose words names a property of [Object.prototype]
    tokenizes to numbers only, one for each of its non-empty words; every
    id is below the size of the vocabulary; [detokenize] gives the words
    back; and on weights initialized for that size the forward pass over a
    non-empty result returns. *)
Theorem corpus_sentence_tokens (corpus : list jsstring) (sentence : jsstring)
    (config : ModelConfig) (w : Weights) (tgt : option nat) :
  let v := corpusVocabulary corpus in
  sentence ∈ corpus ->
  Forall (fun word => word ∉ Object_prototype_names) (words sentence) ->
  initialized (vocabSize_of v) config w ->
  exists ids,
    tokenize sentence v = map Own ids /\
    Forall (fun id => id < vocabSize_of v) ids /\
    map (fun id => detokenize id v) ids = filter (fun word => word <> []) (words sentence) /\
    (ids <> [] -> exists r, forward ids w tgt = Return r).
Proof.
  cbn zeta. intros Hs Hp Hinit.
  destruct (corpusVocabulary_facts corpus) as (Hids & Hnd & Hown).
  set (v := corpusVocabulary corpus) in *.
  exists (omap (own v) (words sentence)).
  assert (Htok : tokenize sentence v = map Own (omap (own v) (words sentence))).
  { rewrite tokenize_omap. apply tokens_without_inherited. exact Hp. }
  assert (Hbound : Forall (fun id => id < vocabSize_of v) (omap (own v) (words sentence))).
  { apply Forall_forall. intros id Hid. apply list_elem_of_omap in Hid as (word & _ & Hword).
    apply own_Some in Hword.
    assert (Hin : id ∈ map snd v).
    { apply list_elem_of_fmap. exists (word, id). auto. }
    rewrite Hids in Hin. apply elem_of_seq in Hin. lia. }
  split; [exact Htok|]. split; [exact Hbound|]. split.
  - assert (Hnd' : NoDup (map snd v)) by (rewrite Hids; apply NoDup_seq).
    rewrite <- (token_ids_Own (omap (own v) (words sentence))).
    rewrite <- (tokens_without_inherited _ v Hp).
    rewrite (detokenize_token_ids _ v Hnd').
    apply filter_ext_elem. intros word Hw. rewrite Hown. split.
    + intros (Hne & _). exact Hne.
    + intros Hne. split; [exact Hne|]. split; [|eauto].
      rewrite Forall_forall in Hp. exact (Hp word Hw).
  - intros Hne. apply forward_returns.
    + destruct (initialized_shape _ _ _ Hinit) as (HlenE & _). rewrite HlenE. exact Hbound.
    + intros Hnil. congruence.
Qed.
End CorpusTokens.

Lemma corpus_sentence_tokens_witness :
  exists ids,
    tokenize (H := ref_strings) (str "The dog sat.")
      (corpusVocabulary (H := ref_strings) [str "The cat sat."; str "The dog sat."])
    = map Own ids /\
    map (fun id => detokenize (H := ref_strings) id
                     (corpusVocabulary (H := ref_strings)
                        [str "The cat sat."; str "The dog sat."])) ids
    = [str "the"; str "dog"; str "sat"].
Proof.
  destruct (corpus_sentence_tokens (H := ref_host) (H0 := ref_strings)
              [str "The cat sat."; str "The dog sat."] (str "The dog sat.")
              small_config
              (fst (initializeWeights (H := ref_host) 4 small_config 0)) None)
    as (ids & Htok & _ & Hback & _).
  - apply (bool_decide_unpack _). vm_compute. exact I.
  - apply (bool_decide_unpack _). vm_compute. exact I.
  - exists 0%nat. reflexivity.
  - exists ids. split; [exact Htok|]. rewrite Hback. vm_compute. reflexivity.
Defined.

(** *** The shape of what forward records *)

Section ForwardRecord.
Context `{Host}.

Lemma layer_record_shape (n : nat) (layer : TransformerLayer) (out : LayerOutput) :
  layer_record n layer out ->
  length (attentionScores out) = length (heads layer) /\
  Forall (fun s => length s = n /\ Forall (fun x => length x = n) s) (attentionScores out) /\
  length (attentionOutput out) = n /\ length (ffnOutput out) = n.
Proof.
  intros (current & current' & Hn & Hrun). unfold layerForward in Hrun.
  destruct (js_mapM _ (heads layer)) as [hs|] eqn:Hmap; cbn [mbind js_bind] in Hrun;
    [|discriminate].
  injection Hrun as _ <-. cbn [attentionScores attentionOutput ffnOutput].
  rewrite !length_map, !length_imap, (js_mapM_length _ _ _ Hmap), Hn.
  split; [reflexivity|]. split; [|split; reflexivity].
  apply Forall_forall. intros s Hs. apply list_elem_of_fmap in Hs as ([s' o] & -> & Hso).
  apply list_elem_of_lookup in Hso as [i Hi].
  destruct (Forall2_lookup_r _ _ _ _ _ (js_mapM_Forall2 _ _ _ Hmap) Hi) as (head & _ & Hhead).
  destruct (attentionHead_output_shape _ _ _ _ Hhead) as (Hl & Hrows & _).
  cbn [fst]. rewrite <- Hn. split; [exact Hl | exact Hrows].
Qed.

(** X20: a forward pass that returns records its input tokens and target,
    a copy of the embedding row of every token, and one record per layer
    holding one square matrix of scores per head, with one row and one
    column per position, and an attention output and a feed-forward output
    of one row per position. It returns one logit and one probability per
    row of [output.W], and a loss exactly when a target is given. *)
Theorem forward_result_shape (toks : list nat) (w : Weights) (tgt : option nat)
    (r : ForwardResult) :
  forward toks w tgt = Return r ->
  inputTokens r = toks /\ targetToken r = tgt /\
  embeddingsSnapshot r = map (fun t => row (embeddings w) t) toks /\
  Forall2
    (fun layer out =>
       length (attentionScores out) = length (heads layer) /\
       Forall (fun s => length s = length toks /\ Forall (fun x => length x = length toks) s)
              (attentionScores out) /\
       length (attentionOutput out) = length toks /\ length (ffnOutput out) = length toks)
    (layers w) (layerOutputs r) /\
  length (logits r) = length (output_W (output w)) /\
  length (probabilities r) = length (output_W (output w)) /\
  loss r = option_map (crossEntropyLoss (probabilities r)) tgt.
Proof.
  intros Hr. destruct (forward_shape _ _ _ _ Hr) as (Hrec & _ & Hprobs & Hin).
  assert (Hshape : Forall2
            (fun layer out =>
               length (attentionScores out) = length (heads layer) /\
               Forall (fun s => length s = length toks /\
                                Forall (fun x => length x = length toks) s)
                      (attentionScores out) /\
               length (attentionOutput out) = length toks /\
               length (ffnOutput out) = length toks)
            (layers w) (layerOutputs r)).
  { eapply Forall2_impl; [exact Hrec|]. intros layer out. apply layer_record_shape. }
  unfold forward in Hr.
  destruct (js_mapM _ toks) as [c0|] eqn:Hc0; cbn [mbind js_bind] in Hr; [|discriminate].
  destruct (layersForward _ _) as [[c outs]|]; cbn [mbind js_bind] in Hr; [|discriminate].
  destruct (project _ _) as [p|] eqn:Hp; cbn [mbind js_bind] in Hr; [|discriminate].
  injection Hr as <-.
  cbn [inputTokens targetToken embeddingsSnapshot layerOutputs logits probabilities loss] in *.
  split; [reflexivity|]. split; [reflexivity|]. split.
  - apply list_eq. intros i. rewrite list_lookup_fmap.
    pose proof (js_mapM_Forall2 _ _ _ Hc0) as H2.
    destruct (toks !! i) as [t|] eqn:Ht.
    + destruct (Forall2_lookup_l _ _ _ _ _ H2 Ht) as (x & Hx & Hdef). rewrite Hx.
      cbn [fmap option_fmap option_map]. f_equal. unfold row.
      destruct (embeddings w !! t); [injection Hdef as ->; reflexivity | discriminate].
    + apply lookup_ge_None. rewrite <- (Forall2_length _ _ _ H2). apply lookup_ge_None. exact Ht.
  - split; [exact Hshape|].
    rewrite length_softmax in Hprobs. rewrite length_softmax.
    split; [exact Hprobs|]. split; [exact Hprobs | reflexivity].
Qed.
End ForwardRecord.

Lemma forward_result_shape_witness :
  exists r, forward (H := ref_host) [0; 1] two_head_weights (Some 2%nat) = Return r /\
    embeddingsSnapshot r
    = [row (embeddings two_head_weights) 0; row (embeddings two_head_weights) 1] /\
    length (probabilities r) = 4%nat.
Proof.
  eexists. split; [vm_compute; reflexivity|].
  edestruct (forward_result_shape (H := ref_host) [0; 1] two_head_weights (Some 2%nat))
    as (_ & _ & Hsnap & _ & _ & Hprobs & _); [vm_compute; reflexivity|].
  split; [exact Hsnap | exact Hprobs].
Defined.

(** *** The words of a sentence *)

Section Words.
Context `{StringHost}.

Lemma split_from_nonempty (s field : jsstring) (b : bool) : split_from s field b <> [].
Proof.
  revert field b. induction s as [|c s IH]; intros field b; cbn [split_from]; [discriminate|].
  destruct (is_space c); [destruct b; [apply IH | discriminate] | apply IH].
Qed.

Lemma split_from_clean (s field : jsstring) (b : bool) :
  Forall (fun c => is_space c = false) field ->
  Forall (Forall (fun c => is_space c = false)) (split_from s field b).
Proof.
  revert field b. induction s as [|c s IH]; intros field b Hf; cbn [split_from].
  - repeat constructor. exact Hf.
  - destruct (is_space c) eqn:Hc.
    + destruct b; [apply IH; constructor|]. constructor; [exact Hf | apply IH; constructor].
    + apply IH. apply Forall_app. split; [exact Hf | repeat constructor; exact Hc].
Qed.

Lemma split_from_concat (s field : jsstring) (b : bool) :
  (b = true -> field = []) ->
  concat (split_from s field b) = field ++ filter (fun c => is_space c = false) s.
Proof.
  revert field b. induction s as [|c s IH]; intros field b Hb; cbn [split_from].
  - cbn. rewrite !app_nil_r. reflexivity.
  - rewrite filter_cons. destruct (is_space c) eqn:Hc.
    + destruct (decide (true = false)) as [Hd | _]; [discriminate|].
      destruct b.
      * rewrite (Hb eq_refl). apply IH. reflexivity.
      * cbn [concat]. rewrite IH by reflexivity. reflexivity.
    + destruct (decide (false = false)) as [_ | Hd]; [|congruence].
      rewrite IH by discriminate. rewrite <- app_assoc. reflexivity.
Qed.

Lemma split_from_inner (s field : jsstring) (b : bool) :
  (forall i, (0 < i)%nat -> (S i < length (split_from s field b))%nat ->
     split_from s field b !! i <> Some []) /\
  (field <> [] \/ b = true ->
   (1 < length (split_from s field b))%nat -> split_from s field b !! 0%nat <> Some []).
Proof.
  revert field b. induction s as [|c s IH]; intros field b; cbn [split_from].
  - split; [intros i _ Hi; cbn in Hi; lia | intros _ Hl; cbn in Hl; lia].
  - destruct (is_space c).
    + destruct b.
      * destruct (IH [] true) as [Hin Hfirst]. split; [exact Hin|].
        intros _. apply Hfirst. right. reflexivity.
      * destruct (IH [] true) as [Hin Hfirst]. split.
        -- intros i Hi Hlen. cbn [length] in Hlen. destruct i as [|i]; [lia|].
           cbn [lookup list_lookup]. destruct i as [|i].
           ++ apply Hfirst; [right; reflexivity | lia].
           ++ apply Hin; lia.
        -- intros [Hf | Hb] _; [|discriminate]. cbn. congruence.
    + destruct (IH (field ++ [c]) false) as [Hin Hfirst]. split; [exact Hin|].
      intros _. apply Hfirst. left. intros Hnil. apply app_eq_nil in Hnil as [_ Hnil].
      discriminate.
Qed.

(** X21: the words [tokenize] and the vocabulary builders read from a
    sentence. There is always at least one; none contains white space or
    one of the characters . , ! ? ; put together they are the lower-cased
    sentence without its white space and these characters; and only the
    first and the last may be empty, which happens when the sentence
    starts or ends with white space. *)
Theorem words_of_a_sentence (sentence : jsstring) :
  words sentence <> [] /\
  Forall (Forall (fun c => is_space c = false /\ is_punctuation c = false))
         (words sentence) /\
  concat (words sentence)
  = filter (fun c => is_space c = false) (strip_punctuation (toLowerCase sentence)) /\
  (forall i, (0 < i)%nat -> (S i < length (words sentence))%nat ->
     words sentence !! i <> Some []).
Proof.
  unfold words, split_spaces. split; [apply split_from_nonempty|]. split; [|split].
  - pose proof (split_from_clean (strip_punctuation (toLowerCase sentence)) [] false
                  (Forall_nil_2 _)) as Hclean.
    pose proof (split_from_concat (strip_punctuation (toLowerCase sentence)) [] false
                  ltac:(discriminate)) as Hcat.
    cbn [app] in Hcat.
    apply Forall_forall. intros word Hword. apply Forall_forall. intros c Hc.
    rewrite Forall_forall in Hclean. pose proof (Hclean word Hword) as Hw.
    rewrite Forall_forall in Hw. split; [exact (Hw c Hc)|].
    assert (Hin : c ∈ concat (split_from (strip_punctuation (toLowerCase sentence)) [] false)).
    { apply list_elem_of_In, in_concat. exists word.
      split; apply list_elem_of_In; assumption. }
    rewrite Hcat in Hin. apply list_elem_of_filter in Hin as [_ Hin].
    unfold strip_punctuation in Hin. apply list_elem_of_filter in Hin as [Hp _]. exact Hp.
  - apply (split_from_concat _ [] false). discriminate.
  - apply split_from_inner.
Qed.
End Words.

Lemma words_of_a_sentence_witness :
  words (H := ref_strings) (str " The cat,  sat! ")
  = [str ""; str "the"; str "cat"; str "sat"; str ""] /\
  words (H := ref_strings) (str " The cat,  sat! ") !! 2%nat <> Some [].
Proof.
  split; [vm_compute; reflexivity|].
  apply (proj2 (proj2 (proj2 (words_of_a_sentence (H := ref_strings)
                                (str " The cat,  sat! "))))).
  - lia.
  - vm_compute. lia.
Defined.

(** *** The numbers randomMatrix stores *)

Section RandomEntries.
Context `{Host}.
Local Open Scope float_scope.

Lemma Array_from_draw (g : nat -> float) (n k : nat) :
  Array_from n (fun k => (g k, S k)) k = (map g (seq k n), (k + n)%nat).
Proof.
  revert k. induction n as [|n IH]; intros k; cbn [Array_from seq map].
  - f_equal. lia.
  - rewrite IH. f_equal. lia.
Qed.

Lemma Array_from_rows {A} (f : Rand A) (g : nat -> A) (c n k : nat) :
  (forall k, f k = (g k, (k + c)%nat)) ->
  Array_from n f k = (map (fun i => g (k + i * c)%nat) (seq 0 n), (k + n * c)%nat).
Proof.
  intros Hf. revert k. induction n as [|n IH]; intros k; cbn [Array_from].
  - cbn. f_equal. lia.
  - rewrite Hf, IH. cbn [seq map]. f_equal; [|lia]. f_equal; [f_equal; lia|].
    rewrite <- seq_shift, map_map. apply map_ext. intros i. f_equal. lia.
Qed.

(** X22: [randomVector] and [randomMatrix] store (Math.random() * 2 - 1)
    * scale for consecutive values of [Math.random], a matrix row after
    row: with k draws made before the call, entry j of a vector comes from
    draw k + j and entry (i, j) of a matrix of [cols] columns from draw
    k + i * cols + j; the vector makes [size] draws and the matrix
    rows * cols. *)
Theorem random_entries (rows cols size : nat) (scale : float) (k : nat) :
  randomVector size scale k
  = (map (fun j => (Math_random (k + j) * 2 - 1) * scale) (seq 0 size), (k + size)%nat) /\
  randomMatrix rows cols scale k
  = (map (fun i =>
            map (fun j => (Math_random (k + i * cols + j) * 2 - 1) * scale) (seq 0 cols))
         (seq 0 rows),
     (k + rows * cols)%nat).
Proof.
  split.
  - unfold randomVector. rewrite (Array_from_draw (fun k => (Math_random k * 2 - 1) * scale)).
    f_equal. rewrite <- (Nat.add_0_r k) at 1. rewrite <- fmap_add_seq, map_map. reflexivity.
  - unfold randomMatrix.
    apply (Array_from_rows _
             (fun k => map (fun j => (Math_random (k + j) * 2 - 1) * scale) (seq 0 cols))).
    intros k'. rewrite (Array_from_draw (fun k => (Math_random k * 2 - 1) * scale)).
    f_equal. rewrite <- (Nat.add_0_r k') at 1. rewrite <- fmap_add_seq, map_map. reflexivity.
Qed.
End RandomEntries.

(** *** NaN in the kernels *)

Section NaNKernels.
Context `{Host}.
Local Open Scope float_scope.

Lemma max_from_nan (l : vec) (highest : float) : nan ∈ l -> max_from highest l = nan.
Proof.
  revert highest. induction l as [|n l IH]; intros highest Hin; [inversion Hin|].
  cbn [max_from]. destruct (is_nan n) eqn:Hn; [reflexivity|].
  apply elem_of_cons in Hin as [<- | Hin]; [discriminate|].
  destruct (is_pos_zero n && is_neg_zero highest); [apply IH; exact Hin|].
  destruct (highest <? n); apply IH; exact Hin.
Qed.

Lemma fold_add_nan (f : float -> float) (l : vec) :
  fold_left (fun a b => a + f b) l nan = nan.
Proof. induction l as [|b l IH]; cbn [fold_left]; [reflexivity|]. rewrite add_nan_l. exact IH. Qed.

Lemma fold_add_meets_nan (f : float -> float) (l : vec) (a : float) :
  (exists b, b ∈ l /\ f b = nan) -> fold_left (fun a b => a + f b) l a = nan.
Proof.
  revert a. induction l as [|b l IH]; intros a (x & Hx & Hfx); [inversion Hx|].
  cbn [fold_left]. apply elem_of_cons in Hx as [<- | Hx].
  - rewrite Hfx, add_nan_r. apply fold_add_nan.
  - apply IH. eauto.
Qed.

(** X23: one NaN in its input makes every entry of [layerNorm]'s output
    NaN, and, with a [Math.exp] that maps NaN to NaN as ECMAScript
    requires, every entry of [softmax]'s output as well. *)
Theorem nan_spreads (x : vec) :
  nan ∈ x ->
  layerNorm x = replicate (length x) nan /\
  (Math_exp nan = nan -> softmax x = replicate (length x) nan).
Proof.
  intros Hin. split.
  - unfold layerNorm. cbn zeta.
    assert (Hsum : sum_of x = nan).
    { unfold sum_of. apply (fold_add_meets_nan (fun b => b)). eauto. }
    rewrite Hsum. change (num_div nan (num_of_nat (length x))) with (nan / float_of_nat (length x)).
    rewrite div_nan_l. set (std := num_sqrt _).
    rewrite <- (length_map (fun v => num_div (num_sub v nan) std) x).
    apply replicate_eq. intros i y Hy. rewrite list_lookup_fmap in Hy.
    destruct (x !! i) as [v|]; [|discriminate]. injection Hy as <-.
    change ((v - nan) / std = nan). rewrite sub_nan_r. apply div_nan_l.
  - intros Hexp. unfold softmax. cbn zeta.
    change (num_max x) with (Math_max x). unfold Math_max. rewrite (max_from_nan x _ Hin).
    set (sumExp := sum_of _).
    rewrite map_map, <- (length_map (fun v => num_div (num_exp (num_sub v nan)) sumExp) x).
    apply replicate_eq. intros i y Hy. rewrite list_lookup_fmap in Hy.
    destruct (x !! i) as [v|]; [|discriminate]. injection Hy as <-.
    change (Math_exp (v - nan) / sumExp = nan). rewrite sub_nan_r, Hexp. apply div_nan_l.
Qed.
End NaNKernels.

Lemma nan_spreads_witness :
  layerNorm (arith := float_arith (H := ref_host)) [1; nan; 3]%float = [nan; nan; nan] /\
  softmax (arith := float_arith (H := ref_host)) [1; nan; 3]%float = [nan; nan; nan].
Proof.
  destruct (nan_spreads (H := ref_host) [1; nan; 3]%float) as [Hl Hs].
  - apply list_elem_of_further, list_elem_of_here.
  - split; [exact Hl | exact (Hs eq_refl)].
Defined.
